(** * asana-scrum: the name parser, the hierarchy builder and the estimate rollup

    A shallow embedding of [src/asana_wrapper/NameParser.py],
    [src/asana_wrapper/AsanaTask.py], [src/asana_wrapper/AsanaSection.py]
    and of the [BuildHierarchy] and [UpdateEstimatesForTask] commandlets of
    [src/asana_wrapper/commandlets.py]; further [AsanaProject.task_id] and
    the ideal line of the [PlotBurndown] commandlet.

    Conventions.
    - A Python [str] is a [string]; its characters are read as code points
      below 256, and [str.strip] removes the code points Python counts as
      white space in that range.
    - A Python exception is the [Raise] outcome of a computation.
    - Python objects live in a heap and are referred to by address; the
      remote task store is a separate component of the world. *)

From Stdlib Require Import String Ascii List ZArith QArith Qround Lia Bool.
From stdpp Require Import base option list gmap.

Local Open Scope string_scope.
Local Open Scope list_scope.

(** ** Exceptions *)

Inductive exn : Type :=
| AttributeError      (* attribute access on [None] *)
| KeyError            (* missing dictionary key *)
| TypeError           (* an operand of the wrong type *)
| ZeroDivisionError
| RecursionError      (* maximum recursion depth exceeded *)
| ApiError            (* the task store rejects a request *)
| Unfinished.         (* not an exception: a [while] loop that is still
                         running when the bound given to it is used up *)

Inductive outcome (A : Type) : Type :=
| Ok (a : A)
| Raise (e : exn).
Arguments Ok {A} a.
Arguments Raise {A} e.

Definition obind {A B} (x : outcome A) (f : A -> outcome B) : outcome B :=
  match x with
  | Ok a => f a
  | Raise e => Raise e
  end.

(** ** Python string primitives *)

Module Str.

(** [str.isspace] on one character (code points below 256). *)
Definition is_space (c : ascii) : bool :=
  let n := nat_of_ascii c in
  (((9 <=? n) && (n <=? 13)) || ((28 <=? n) && (n <=? 32))
   || (n =? 133) || (n =? 160))%nat.

Fixpoint lstrip (s : string) : string :=
  match s with
  | EmptyString => EmptyString
  | String c r => if is_space c then lstrip r else s
  end.

Fixpoint rstrip (s : string) : string :=
  match s with
  | EmptyString => EmptyString
  | String c r =>
      match rstrip r with
      | EmptyString => if is_space c then EmptyString else String c EmptyString
      | r' => String c r'
      end
  end.

(** [s.strip()] *)
Definition strip (s : string) : string := rstrip (lstrip s).

(** [s.split(sep)] for a one-character separator. *)
Fixpoint split (sep : ascii) (s : string) : list string :=
  match s with
  | EmptyString => [EmptyString]
  | String c r =>
      if Ascii.eqb c sep then EmptyString :: split sep r
      else match split sep r with
           | h :: t => String c h :: t
           | [] => [String c EmptyString]
           end
  end.

(** [sep.join(l)] *)
Fixpoint join (sep : string) (l : list string) : string :=
  match l with
  | [] => EmptyString
  | [x] => x
  | x :: r => x ++ sep ++ join sep r
  end.

(** The longest prefix whose characters satisfy [p], and the rest: what a
    greedy character-class repetition consumes. *)
Fixpoint span (p : ascii -> bool) (s : string) : string * string :=
  match s with
  | EmptyString => (EmptyString, EmptyString)
  | String c r =>
      if p c then let '(a, b) := span p r in (String c a, b)
      else (EmptyString, s)
  end.

(** Every character of the string satisfies [p]. *)
Fixpoint all_chars (p : ascii -> bool) (s : string) : bool :=
  match s with
  | EmptyString => true
  | String c r => p c && all_chars p r
  end.

(** Truthiness of a string: [bool(s)]. *)
Definition truthy (s : string) : bool :=
  match s with EmptyString => false | _ => true end.

(** [a or b] on strings. *)
Definition or_else (a b : string) : string := if truthy a then a else b.

End Str.

(** ** NameParser.py *)

Module NameParser.

(** The match object of [__name_regex]: the groups [name] and [abbr]. *)
Record name_match := { group_name : string; group_abbr : option string }.

(** [__name_regex.match(s)] for
    [(?P<name>[^(]+)([(](?P<abbr>[^)]+))?]: anchored at the start; the
    name is the longest run of characters other than an opening
    parenthesis and must not be empty; the optional group takes part when
    an opening parenthesis follows with at least one character other than
    a closing parenthesis behind it. *)
Definition name_regex_match (s : string) : option name_match :=
  let '(n, r) := Str.span (fun c => negb (Ascii.eqb c "(")) s in
  match n with
  | EmptyString => None
  | _ =>
      match r with
      | String _ r' =>
          let '(a, _) := Str.span (fun c => negb (Ascii.eqb c ")")) r' in
          match a with
          | EmptyString => Some {| group_name := n; group_abbr := None |}
          | _ => Some {| group_name := n; group_abbr := Some a |}
          end
      | EmptyString => Some {| group_name := n; group_abbr := None |}
      end
  end.

(** [m.group(...)] on the result of a match: [None.group] raises. *)
Definition group {A} (m : option name_match) (g : name_match -> A) : outcome A :=
  match m with
  | Some x => Ok (g x)
  | None => Raise AttributeError
  end.

(** The scanner of [__clean_regex.sub("", s)] for [\[[^]]*\]*]: outside a
    match characters are copied; an opening bracket starts a match, which
    runs over every character other than a closing bracket and then over
    every closing bracket that follows. *)
Inductive clean_state := Copy | InTag | Closing.

Fixpoint clean_from (st : clean_state) (s : string) : string :=
  match s with
  | EmptyString => EmptyString
  | String c r =>
      match st with
      | InTag =>
          if Ascii.eqb c "]" then clean_from Closing r else clean_from InTag r
      | Closing =>
          if Ascii.eqb c "]" then clean_from Closing r
          else if Ascii.eqb c "[" then clean_from InTag r
          else String c (clean_from Copy r)
      | Copy =>
          if Ascii.eqb c "[" then clean_from InTag r
          else String c (clean_from Copy r)
      end
  end.

Definition clean_sub (s : string) : string := clean_from Copy s.

Record NameParser := new { raw : string }.

Definition untagged (self : NameParser) : string :=
  Str.strip (clean_sub (raw self)).

Definition parts (self : NameParser) : list string :=
  map Str.strip (Str.split ">" (untagged self)).

(** [self.parts[0]]; the list is never empty. *)
Definition first (self : NameParser) : string :=
  match parts self with
  | p :: _ => p
  | [] => EmptyString
  end.

Definition remainder (self : NameParser) : string :=
  Str.join " > " (tl (parts self)).

Definition name (self : NameParser) : outcome string :=
  obind (group (name_regex_match (first self)) group_name)
        (fun n => Ok (Str.strip n)).

Definition abbreviation (self : NameParser) : outcome (option string) :=
  obind (group (name_regex_match (first self)) group_abbr)
        (fun result => Ok (option_map Str.strip result)).

(** [self.abbreviation or self.name] *)
Definition mnemonic (self : NameParser) : outcome string :=
  obind (abbreviation self) (fun a =>
    match a with
    | Some s => if Str.truthy s then Ok s else name self
    | None => name self
    end).

Definition matches (self : NameParser) (name_ : string) : outcome bool :=
  obind (group (name_regex_match name_) group_name) (fun n =>
  let name_name := Str.strip n in
  obind (group (name_regex_match name_) group_abbr) (fun name_abbreviation =>
  let name_mnemonic :=
    match name_abbreviation with
    | Some a => Str.or_else a name_name
    | None => name_name
    end in
  if Nat.eqb (length (parts self)) 1 then
    obind (mnemonic self) (fun m =>
      if String.eqb name_mnemonic m then Ok true
      else obind (name self) (fun n' => Ok (String.eqb name_name n')))
  else Ok false)).

End NameParser.

Import NameParser.

(** The computation returns a value. *)
Definition returns {A} (x : outcome A) : Prop := exists v, x = Ok v.

(** The string begins with an opening parenthesis. *)
Definition begins_with_paren (s : string) : Prop :=
  exists r, s = String "(" r.

(** The string has a character other than an opening parenthesis. *)
Definition has_other_than_paren (s : string) : Prop :=
  exists i c, String.get i s = Some c /\ c <> "("%char.
(** ** Computations with a world and exceptions *)

(** A computation reads and changes a world of type [W] and either returns
    a value or raises; the world it leaves behind is kept in both cases. *)
Definition M (W A : Type) : Type := W -> outcome A * W.

#[global] Instance M_ret {W} : MRet (M W) := fun A a w => (Ok a, w).

#[global] Instance M_bind {W} : MBind (M W) := fun A B f m w =>
  match m w with
  | (Ok a, w') => f a w'
  | (Raise e, w') => (Raise e, w')
  end.

#[global] Instance M_fmap {W} : FMap (M W) := fun A B f m =>
  x ← m; mret (f x).

Definition raise {W A} (e : exn) : M W A := fun w => (Raise e, w).
Definition get_world {W} : M W W := fun w => (Ok w, w).
Definition put_world {W} (w : W) : M W unit := fun _ => (Ok tt, w).
Definition lift {W A} (x : outcome A) : M W A := fun w => (x, w).

(** ** AsanaTask.reduce: the level-bucket fold *)

Module Fold.
Section Fold.
(** [W] is the world the callbacks act on, [T] the type of task handles,
    [A] the type of the accumulators the reducer returns ([None] is one
    more value a reducer may return). *)
Context {W T A : Type}.
Variable initializer : T -> M W unit.
Variable reducer : T -> option A -> M W (option A).
Variable updater : T -> option A -> M W unit.

(** [levels = defaultdict(lambda: None)]: a key that is absent reads as
    [None], and storing [None] is the same as removing the key. *)
Definition set_level (k : Z) (v : option A) (levels : gmap Z A) : gmap Z A :=
  match v with
  | Some a => <[k := a]> levels
  | None => delete k levels
  end.

(** The body of the [for] loop of [reduce]; the state is
    [(levels, prev_level)] and [subtask] is a [(level, task)] pair. *)
Definition reduce_body (st : gmap Z A * Z) (subtask : Z * T)
  : M W (gmap Z A * Z) :=
  let '(levels, prev_level) := st in
  initializer subtask.2 ;;
  levels ← (if bool_decide (subtask.1 < prev_level)%Z
            then updater subtask.2 (levels !! prev_level) ;;
                 mret (set_level prev_level None levels)
            else mret levels);
  r ← reducer subtask.2 (levels !! subtask.1);
  mret (set_level subtask.1 r levels, subtask.1).

Fixpoint reduce_loop (l : list (Z * T)) (st : gmap Z A * Z)
  : M W (gmap Z A * Z) :=
  match l with
  | [] => mret st
  | subtask :: l' => st' ← reduce_body st subtask; reduce_loop l' st'
  end.

(** [reduce], given the list [list(self.__leveled_subtasks())], which the
    source builds in full before the loop starts. *)
Definition reduce_from (leveled : list (Z * T)) (self : T) : M W unit :=
  st ← reduce_loop (rev leveled) (∅, (-1)%Z);
  initializer self ;;
  updater self (st.1 !! 0%Z).

(** *** The subtask tree *)

Local Unset Elimination Schemes.
Inductive tree : Type := Node (task : T) (subtasks : list tree).
Local Set Elimination Schemes.

Definition task_of (t : tree) : T := match t with Node x _ => x end.
Definition subtasks_of (t : tree) : list tree := match t with Node _ cs => cs end.

(** [self.__leveled_subtasks(level)]: each subtask with its level, followed
    by its own leveled subtasks one level down. *)
Fixpoint __leveled_subtasks (level : Z) (self : tree) : list (Z * T) :=
  match self with
  | Node _ cs =>
      flat_map (fun task => (level, task_of task)
                            :: __leveled_subtasks (level + 1) task) cs
  end.

Definition reduce (self : tree) : M W unit :=
  reduce_from (__leveled_subtasks 0 self) (task_of self).

(** *** Two recursive folds to compare with *)

(** The fold of the specification: true post-order, the children of a
    node visited and folded into its accumulator from left to right, and
    every node, with or without children, initialized and then finalized
    once its children are done. *)
Fixpoint spec_postorder (t : tree) : M W unit :=
  match t with
  | Node x cs =>
      let fix fold (cs : list tree) (acc : option A) : M W (option A) :=
        match cs with
        | [] => mret acc
        | c :: rest =>
            spec_postorder c ;;
            acc' ← reducer (task_of c) acc;
            fold rest acc'
        end in
      a ← fold cs None;
      initializer x ;;
      updater x a
  end.

(** The fold the loop performs: the children of a node are visited from
    right to left; a node is initialized after its whole subtree; it is
    finalized only when it has children; it is then folded into the
    accumulator of its parent. *)
Fixpoint mirror_fold (t : tree) (acc : option A) : M W (option A) :=
  match t with
  | Node x cs =>
      let fix children (cs : list tree) (acc : option A) : M W (option A) :=
        match cs with
        | [] => mret acc
        | c :: rest => acc' ← children rest acc; mirror_fold c acc'
        end in
      match cs with
      | [] => initializer x
      | _ :: _ => a ← children cs None; initializer x ;; updater x a
      end ;;
      reducer x acc
  end.

Fixpoint mirror_children (cs : list tree) (acc : option A) : M W (option A) :=
  match cs with
  | [] => mret acc
  | c :: rest => acc' ← mirror_children rest acc; mirror_fold c acc'
  end.

Definition mirror_postorder (self : tree) : M W unit :=
  a ← mirror_children (subtasks_of self) None;
  initializer (task_of self) ;;
  updater (task_of self) a.

(** The leveled subtasks of a list of sibling subtrees at level [lvl]. *)
Definition leveled_forest (lvl : Z) (cs : list tree) : list (Z * T) :=
  flat_map (fun c => (lvl, task_of c) :: __leveled_subtasks (lvl + 1) c) cs.

(** What the loop does with the subtree [t], entering it from a level
    that is not deeper with every bucket below its level empty: it makes
    the calls of [mirror_fold] and puts the result in the bucket of the
    level. *)
Definition loop_on_tree (t : tree) : Prop :=
  forall (lvl : Z) (lv : gmap Z A) (prev : Z) (rest : list (Z * T)) (w : W),
    (prev <= lvl)%Z ->
    (forall k, (lvl < k)%Z -> lv !! k = None) ->
    reduce_loop (rev ((lvl, task_of t) :: __leveled_subtasks (lvl + 1) t) ++ rest)
                (lv, prev) w
    = (a ← mirror_fold t (lv !! lvl);
       reduce_loop rest (set_level lvl a lv, lvl)) w.

End Fold.
End Fold.


(** *** Callbacks that record the calls made to them *)

Module FoldTrace.

Inductive call : Type :=
| Initializer (task : string)
| Reducer (task : string) (acc : option (list string))
| Updater (task : string) (acc : option (list string)).

(** The world is the list of the calls so far; the accumulator is the list
    of the tasks folded into it, in the order they were folded. *)
Definition initializer (task : string) : M (list call) unit :=
  fun w => (Ok tt, w ++ [Initializer task]).

Definition reducer (task : string) (acc : option (list string))
  : M (list call) (option (list string)) :=
  fun w => (Ok (Some (default [] acc ++ [task])), w ++ [Reducer task acc]).

Definition updater (task : string) (acc : option (list string))
  : M (list call) unit :=
  fun w => (Ok tt, w ++ [Updater task acc]).

Definition reduce (self : Fold.tree) : M (list call) unit :=
  Fold.reduce initializer reducer updater self.

Definition spec_postorder (self : Fold.tree) : M (list call) unit :=
  Fold.spec_postorder initializer reducer updater self.

End FoldTrace.

(** ** The task store *)

(** The store is the remote service behind [asana_client]; what the
    wrappers need of it is described in section 6 of the specification. *)
Module Store.

Definition gid := nat.

(** The JSON values a custom field holds: [None], a number, a boolean, a
    string, or a dictionary with a ["name"] (an enum option). *)
Inductive value : Type :=
| VNone
| VNum (q : Q)
| VBool (b : bool)
| VStr (s : string)
| VDict (name : string).

(** A number out of a value, as Python arithmetic reads it. *)
Definition number_of (v : value) : option Q :=
  match v with
  | VNum q => Some q
  | VBool b => Some (if b then 1%Q else 0%Q)
  | _ => None
  end.

(** [a == b] *)
Definition value_eqb (a b : value) : bool :=
  match number_of a, number_of b with
  | Some x, Some y => Qeq_bool x y
  | Some _, None | None, Some _ => false
  | None, None =>
      match a, b with
      | VNone, VNone => true
      | VStr s, VStr s' => String.eqb s s'
      | VDict n, VDict n' => String.eqb n n'
      | _, _ => false
      end
  end.

(** [bool(v)] *)
Definition truthy (v : value) : bool :=
  match v with
  | VNone => false
  | VNum q => negb (Qeq_bool q 0)
  | VBool b => b
  | VStr s => Str.truthy s
  | VDict _ => true
  end.

(** One entry of [task["custom_fields"]]: [typed_value] is the entry under
    the key [type + "_value"]. *)
Record custom_field := {
  field_gid : gid;
  field_name : string;
  field_type : string;
  typed_value : value;
  display_value : value
}.

(** The task record the store returns for the requested [opt_fields]. *)
Record task_data := {
  t_gid : gid;
  t_name : string;
  t_parent : option gid;
  t_completed : bool;
  t_custom_fields : list custom_field
}.

Record stored_task := {
  st_data : task_data;
  st_subtasks : list gid   (* the direct children, in their order *)
}.

Record section_data := {
  sec_name : string;
  sec_tasks : list gid     (* the direct tasks of the section, in their order *)
}.

(** Modelled from the spec: the external task store (section 6).  A task
    is stored at the index that is its gid, a section at the index that is
    its gid. *)
Record store := {
  tasks : list stored_task;
  sections : list section_data
}.

Definition with_data (f : task_data -> task_data) (t : stored_task) : stored_task :=
  {| st_data := f (st_data t); st_subtasks := st_subtasks t |}.

Definition with_subtasks (f : list gid -> list gid) (t : stored_task) : stored_task :=
  {| st_data := st_data t; st_subtasks := f (st_subtasks t) |}.

Definition with_tasks (f : list stored_task -> list stored_task) (s : store) : store :=
  {| tasks := f (tasks s); sections := sections s |}.

Definition with_sections (f : list section_data -> list section_data) (s : store) : store :=
  {| tasks := tasks s; sections := f (sections s) |}.

Definition remove_gid (g : gid) (l : list gid) : list gid :=
  filter (fun x => x <> g) l.

Definition set_name (v : string) (d : task_data) : task_data :=
  {| t_gid := t_gid d; t_name := v; t_parent := t_parent d;
     t_completed := t_completed d; t_custom_fields := t_custom_fields d |}.

Definition set_parent (p : option gid) (d : task_data) : task_data :=
  {| t_gid := t_gid d; t_name := t_name d; t_parent := p;
     t_completed := t_completed d; t_custom_fields := t_custom_fields d |}.

Definition set_custom_fields (fs : list custom_field) (d : task_data) : task_data :=
  {| t_gid := t_gid d; t_name := t_name d; t_parent := t_parent d;
     t_completed := t_completed d; t_custom_fields := fs |}.

(** Writing a value into a field: under ["display_value"] for a
    ["multi_enum"] field and under [type + "_value"] otherwise. *)
Definition set_field_value (v : value) (f : custom_field) : custom_field :=
  if String.eqb (field_type f) "multi_enum" then
    {| field_gid := field_gid f; field_name := field_name f;
       field_type := field_type f; typed_value := typed_value f;
       display_value := v |}
  else
    {| field_gid := field_gid f; field_name := field_name f;
       field_type := field_type f; typed_value := v;
       display_value := display_value f |}.

(** The updates [update_task] is called with. *)
Inductive task_update : Type :=
| SetName (v : string)                      (* [{"name": v}] *)
| SetCustomField (field : gid) (v : value). (* [{"custom_fields": {field: v}}] *)

Definition apply_update (u : task_update) (d : task_data) : task_data :=
  match u with
  | SetName v => set_name v d
  | SetCustomField g v =>
      set_custom_fields
        (map (fun f => if Nat.eqb (field_gid f) g then set_field_value v f else f)
             (t_custom_fields d)) d
  end.

(** [tasks.get_task(gid)] *)
Definition get_task (g : gid) (s : store) : outcome task_data :=
  match tasks s !! g with
  | Some t => Ok (st_data t)
  | None => Raise ApiError
  end.

(** [tasks.update_task(gid, update)] *)
Definition update_task (g : gid) (u : task_update) (s : store) : outcome store :=
  match tasks s !! g with
  | Some _ => Ok (with_tasks (alter (with_data (apply_update u)) g) s)
  | None => Raise ApiError
  end.

(** [tasks.set_parent_for_task(gid, {"parent": p})]: the task leaves the
    child list it was in and goes to the end of the child list of [p]; the
    sections are left as they are. *)
Definition set_parent_for_task (g p : gid) (s : store) : outcome store :=
  match tasks s !! g, tasks s !! p with
  | Some _, Some _ =>
      Ok (with_tasks
            (fun ts =>
               alter (with_subtasks (fun l => l ++ [g])) p
                 (alter (with_data (set_parent (Some p))) g
                    (map (with_subtasks (remove_gid g)) ts))) s)
  | _, _ => Raise ApiError
  end.

(** [tasks.get_subtasks_for_task(gid)] *)
Definition get_subtasks_for_task (g : gid) (s : store) : outcome (list task_data) :=
  match tasks s !! g with
  | Some t =>
      Ok (omap (fun c => st_data <$> tasks s !! c) (st_subtasks t))
  | None => Raise ApiError
  end.

Definition new_task (g : gid) (name : string) (p : option gid) : stored_task :=
  {| st_data := {| t_gid := g; t_name := name; t_parent := p;
                   t_completed := false; t_custom_fields := [] |};
     st_subtasks := [] |}.

(** [tasks.create_subtask_for_task(p, {"name": name})]: a new task, not
    completed, at the end of the child list of [p]. *)
Definition create_subtask_for_task (p : gid) (name : string) (s : store)
  : outcome (task_data * store) :=
  match tasks s !! p with
  | Some _ =>
      let g := length (tasks s) in
      let t := new_task g name (Some p) in
      Ok (st_data t,
          with_tasks (fun ts => alter (with_subtasks (fun l => l ++ [g])) p ts ++ [t]) s)
  | None => Raise ApiError
  end.

(** [tasks.create_task({"name": name, "projects": project})]: a new task
    without a parent, not completed, in no section yet. *)
Definition create_task (name : string) (s : store) : task_data * store :=
  let g := length (tasks s) in
  let t := new_task g name None in
  (st_data t, with_tasks (fun ts => ts ++ [t]) s).

Definition with_sec_tasks (f : list gid -> list gid) (x : section_data) : section_data :=
  {| sec_name := sec_name x; sec_tasks := f (sec_tasks x) |}.

(** [sections.add_task_for_section(section, {"task": g})]: the task leaves
    the section it was in and goes to the end of [section]. *)
Definition add_task_for_section (sec : gid) (g : gid) (s : store) : outcome store :=
  match sections s !! sec, tasks s !! g with
  | Some _, Some _ =>
      Ok (with_sections
            (fun l => alter (with_sec_tasks (fun ts => ts ++ [g])) sec
                        (map (with_sec_tasks (remove_gid g)) l)) s)
  | _, _ => Raise ApiError
  end.

(** [tasks.get_tasks_for_section(section)] *)
Definition get_tasks_for_section (sec : gid) (s : store) : outcome (list task_data) :=
  match sections s !! sec with
  | Some x => Ok (omap (fun c => st_data <$> tasks s !! c) (sec_tasks x))
  | None => Raise ApiError
  end.

(** [sections.get_sections_for_project(project)]: gid and name of each. *)
Definition get_sections_for_project (s : store) : list (gid * string) :=
  imap (fun i x => (i, sec_name x)) (sections s).

End Store.

(** ** The world: Python objects and the store *)

Definition addr := nat.

(** An [AsanaTask] object: the dictionary [_task], and the caches
    [__parent] and [__subtasks], which hold references to other objects. *)
Record object := {
  _task : Store.task_data;
  __parent : option addr;
  __subtasks : option (list addr)
}.

(** The requests sent to the store, in the order they were sent. *)
Inductive api_call : Type :=
| GetTask (g : Store.gid)
| UpdateTask (g : Store.gid) (u : Store.task_update)
| SetParentForTask (g p : Store.gid)
| GetSubtasksForTask (g : Store.gid)
| CreateSubtaskForTask (p : Store.gid) (name : string)
| CreateTask (name : string)
| AddTaskForSection (sec g : Store.gid)
| GetTasksForSection (sec : Store.gid)
| GetSectionsForProject.

Record world := {
  heap : list object;
  remote : Store.store;
  calls : list api_call
}.

Definition with_heap (f : list object -> list object) (w : world) : world :=
  {| heap := f (heap w); remote := remote w; calls := calls w |}.

Definition with_remote (s : Store.store) (w : world) : world :=
  {| heap := heap w; remote := s; calls := calls w |}.

Definition log (c : api_call) : M world unit :=
  fun w => (Ok tt, {| heap := heap w; remote := remote w; calls := calls w ++ [c] |}).

(** Reading an object.  Every address a program holds is in the heap; the
    [Raise] branch is there for totality. *)
Definition deref (a : addr) : M world object :=
  fun w => match heap w !! a with
           | Some o => (Ok o, w)
           | None => (Raise KeyError, w)
           end.

Definition assign (a : addr) (o : object) : M world unit :=
  fun w => (Ok tt, with_heap (fun h => <[a := o]> h) w).

Definition alloc (o : object) : M world addr :=
  fun w => (Ok (length (heap w)), with_heap (fun h => h ++ [o]) w).

(** A request that reads the store. *)
Definition query {A} (c : api_call) (f : Store.store -> outcome A) : M world A :=
  log c ;; ((fun w => (f (remote w), w)) : M world A).

(** A request that changes the store; a rejected request changes nothing. *)
Definition request (c : api_call) (f : Store.store -> outcome Store.store)
  : M world unit :=
  log c ;;
  ((fun w => match f (remote w) with
             | Ok s => (Ok tt, with_remote s w)
             | Raise e => (Raise e, w)
             end) : M world unit).

(** A request that changes the store and returns a record. *)
Definition request_with {A} (c : api_call)
  (f : Store.store -> outcome (A * Store.store)) : M world A :=
  log c ;;
  ((fun w => match f (remote w) with
             | Ok (a, s) => (Ok a, with_remote s w)
             | Raise e => (Raise e, w)
             end) : M world A).

(** [for x in l: body(x)] *)
Fixpoint for_each {W A} (l : list A) (body : A -> M W unit) : M W unit :=
  match l with
  | [] => mret tt
  | x :: r => body x ;; for_each r body
  end.

(** [[f(x) for x in l]] *)
Fixpoint map_M {W A B} (f : A -> M W B) (l : list A) : M W (list B) :=
  match l with
  | [] => mret []
  | x :: r => y ← f x; ys ← map_M f r; mret (y :: ys)
  end.

(** ** AsanaTask.py *)

Module AsanaTask.

(** [AsanaTask(task, asana_client, opt_fields)] *)
Definition new (task : Store.task_data) : M world addr :=
  alloc {| _task := task; __parent := None; __subtasks := None |}.

Definition with_task (f : Store.task_data -> Store.task_data) (o : object) : object :=
  {| _task := f (_task o); __parent := __parent o; __subtasks := __subtasks o |}.

Definition gid (self : addr) : M world Store.gid :=
  o ← deref self; mret (Store.t_gid (_task o)).

Definition name (self : addr) : M world string :=
  o ← deref self; mret (Store.t_name (_task o)).

(** The setter of [name]. *)
Definition set_name (self : addr) (value : string) : M world unit :=
  o ← deref self;
  if negb (String.eqb (Store.t_name (_task o)) value) then
    assign self (with_task (Store.set_name value) o) ;;
    request (UpdateTask (Store.t_gid (_task o)) (Store.SetName value))
            (Store.update_task (Store.t_gid (_task o)) (Store.SetName value))
  else mret tt.

(** The getter of [parent]. *)
Definition parent (self : addr) : M world (option addr) :=
  o ← deref self;
  match Store.t_parent (_task o) with
  | None => mret None
  | Some pg =>
      match __parent o with
      | Some p => mret (Some p)
      | None =>
          d ← query (GetTask pg) (Store.get_task pg);
          p ← new d;
          assign self {| _task := _task o; __parent := Some p;
                         __subtasks := __subtasks o |} ;;
          mret (Some p)
      end
  end.

(** The setter of [parent]. *)
Definition set_parent (self : addr) (value : addr) : M world unit :=
  o ← deref self;
  assign self {| _task := _task o; __parent := Some value;
                 __subtasks := __subtasks o |} ;;
  g ← gid self;
  vg ← gid value;
  request (SetParentForTask g vg) (Store.set_parent_for_task g vg) ;;
  d ← query (GetTask g) (Store.get_task g);
  o ← deref self;
  assign self (with_task (fun _ => d) o).

Definition completed (self : addr) : M world bool :=
  o ← deref self; mret (Store.t_completed (_task o)).

(** [subtasks()], with [recursive] left at [False]: the list [__subtasks],
    fetched on the first call. *)
Definition subtasks (self : addr) : M world (list addr) :=
  o ← deref self;
  match __subtasks o with
  | Some l => mret l
  | None =>
      ds ← query (GetSubtasksForTask (Store.t_gid (_task o)))
                 (Store.get_subtasks_for_task (Store.t_gid (_task o)));
      l ← map_M new ds;
      assign self {| _task := _task o; __parent := __parent o;
                     __subtasks := Some l |} ;;
      mret l
  end.

(** [list(self.__leveled_subtasks(level))]; the fuel bounds the nesting of
    the generators. *)
Fixpoint __leveled_subtasks (fuel : nat) (level : Z) (self : addr)
  : M world (list (Z * addr)) :=
  match fuel with
  | O => raise RecursionError
  | S fuel' =>
      tasks ← subtasks self;
      ls ← map_M (fun task =>
                    l ← __leveled_subtasks fuel' (level + 1) task;
                    mret ((level, task) :: l)) tasks;
      mret (concat ls)
  end.

Definition reduce {A} (fuel : nat)
  (initializer : addr -> M world unit)
  (reducer : addr -> option A -> M world (option A))
  (updater : addr -> option A -> M world unit)
  (self : addr) : M world unit :=
  leveled ← __leveled_subtasks fuel 0 self;
  Fold.reduce_from initializer reducer updater leveled self.

Definition add_subtask (self : addr) (name : string) : M world addr :=
  g ← gid self;
  d ← request_with (CreateSubtaskForTask g name)
                   (Store.create_subtask_for_task g name);
  task ← new d;
  o ← deref self;
  match __subtasks o with
  | Some l =>
      assign self {| _task := _task o; __parent := __parent o;
                     __subtasks := Some (l ++ [task]) |} ;;
      mret task
  | None => raise AttributeError
  end.

Definition _field (self : addr) (field_name : string)
  : M world (option Store.custom_field) :=
  o ← deref self;
  mret (List.find (fun f => String.eqb (Store.field_name f) field_name)
                  (Store.t_custom_fields (_task o))).

(** [field[type + "_value"]], or [field["display_value"]] for a
    ["multi_enum"] field. *)
Definition raw_field_value (f : Store.custom_field) : Store.value :=
  if String.eqb (Store.field_type f) "multi_enum" then Store.display_value f
  else Store.typed_value f.

Definition field_value (self : addr) (field_name : string) : M world Store.value :=
  field ← _field self field_name;
  match field with
  | None => mret Store.VNone
  | Some f =>
      match raw_field_value f with
      | Store.VDict n => mret (Store.VStr n)
      | result => mret result
      end
  end.

Definition update_field (self : addr) (field_name : string) (value : Store.value)
  : M world unit :=
  current_value ← field_value self field_name;
  if negb (Store.value_eqb current_value value) then
    field ← _field self field_name;
    match field with
    | None => mret tt
    | Some f =>
        o ← deref self;
        (* [field[update_field] = value]: the first field of that name *)
        let fix put (fs : list Store.custom_field) : list Store.custom_field :=
          match fs with
          | [] => []
          | f' :: r =>
              if String.eqb (Store.field_name f') field_name
              then Store.set_field_value value f' :: r
              else f' :: put r
          end in
        assign self (with_task (fun d => Store.set_custom_fields
                                           (put (Store.t_custom_fields d)) d) o) ;;
        f2 ← _field self field_name;
        match f2 with
        | None => raise TypeError
        | Some f2 =>
            request (UpdateTask (Store.t_gid (_task o))
                                (Store.SetCustomField (Store.field_gid f2) value))
                    (Store.update_task (Store.t_gid (_task o))
                                       (Store.SetCustomField (Store.field_gid f2) value))
        end
    end
  else mret tt.

End AsanaTask.

(** ** TaskNameParser (AsanaTask.py) *)

Module TaskNameParser.

(** [TaskNameParser(task)]: the raw name is the name the task has when the
    parser is made. *)
Record TaskNameParser := { parser : NameParser; task : addr }.

Definition new (task : addr) : M world TaskNameParser :=
  n ← AsanaTask.name task;
  mret {| parser := NameParser.new n; task := task |}.

(** The [while parent is not None] loop of [tags]. *)
Fixpoint tags_loop (bound : nat) (parent : option addr) (paths : list string)
  : M world (list string) :=
  match parent with
  | None => mret paths
  | Some p =>
      match bound with
      | O => raise Unfinished
      | S bound' =>
          tp ← new p;
          m ← lift (mnemonic (parser tp));
          parent' ← AsanaTask.parent p;
          tags_loop bound' parent' (paths ++ [m])
      end
  end.

Definition tags (bound : nat) (self : TaskNameParser) : M world string :=
  parent ← AsanaTask.parent (task self);
  paths ← tags_loop bound parent [];
  mret (Str.join " " (rev paths)).

(** [self.remainder or self.untagged] *)
Definition remainder_or_untagged (self : TaskNameParser) : string :=
  Str.or_else (remainder (parser self)) (untagged (parser self)).

Definition tagged_name (bound : nat) (self : TaskNameParser) : M world string :=
  t ← tags bound self;
  if Str.truthy t then
    t' ← tags bound self;
    mret ("[" ++ t' ++ "] " ++ remainder_or_untagged self)%string
  else mret (remainder_or_untagged self).

End TaskNameParser.

(** ** AsanaSection.py and AsanaProject.py *)

Module AsanaSection.

Record AsanaSection := { gid : Store.gid; name : string }.

(** [tasks()], with [recursive] left at [False]: fetched on every call. *)
Definition tasks (self : AsanaSection) : M world (list addr) :=
  ds ← query (GetTasksForSection (gid self)) (Store.get_tasks_for_section (gid self));
  map_M AsanaTask.new ds.

Definition attach_task (self : AsanaSection) (task : addr) : M world addr :=
  g ← AsanaTask.gid task;
  request (AddTaskForSection (gid self) g) (Store.add_task_for_section (gid self) g) ;;
  mret task.

Definition add_task (self : AsanaSection) (name : string) : M world addr :=
  d ← request_with (CreateTask name) (fun s => Ok (Store.create_task name s));
  task ← AsanaTask.new d;
  attach_task self task.

(** The rest of [task.subtasks(recursive=True)] once the direct subtasks
    were yielded, with the loop body run at every [yield]. *)
Fixpoint subtasks_recursive (fuel : nat) (task : addr) (body : addr -> M world unit)
  : M world unit :=
  match fuel with
  | O => raise RecursionError
  | S fuel' =>
      l ← AsanaTask.subtasks task;
      for_each l body ;;
      for_each l (fun t => subtasks_recursive fuel' t body)
  end.

(** [for task in self.tasks(recursive): body(task)] *)
Definition for_tasks (fuel : nat) (self : AsanaSection) (recursive : bool)
  (body : addr -> M world unit) : M world unit :=
  l ← tasks self;
  for_each l body ;;
  if recursive then for_each l (fun t => subtasks_recursive fuel t body)
  else mret tt.

End AsanaSection.

Module AsanaProject.

Definition get_section (section_name : string)
  : M world (option AsanaSection.AsanaSection) :=
  sections ← query GetSectionsForProject
                   (fun s => Ok (Store.get_sections_for_project s));
  mret ((fun x => {| AsanaSection.gid := x.1; AsanaSection.name := x.2 |})
          <$> List.find (fun x => String.eqb x.2 section_name) sections).

End AsanaProject.

(** ** The build-hierarchy commandlet (commandlets.py) *)

Module BuildHierarchy.

Record args := {
  section_names : list string;
  recursive : bool;
  parent : option string
}.

(** [next((found for found in tasks if (not found.completed) and
    NameParser(found.name).matches(name)), None)] *)
Fixpoint next_matching (tasks : list addr) (name : string) : M world (option addr) :=
  match tasks with
  | [] => mret None
  | found :: rest =>
      c ← AsanaTask.completed found;
      if negb c then
        n ← AsanaTask.name found;
        b ← lift (matches (NameParser.new n) name);
        if (b : bool) then mret (Some found) else next_matching rest name
      else next_matching rest name
  end.


(** The [print] calls are left out.  [task.parent] is read once for each
    [if]; a read that follows another one with nothing in between finds the
    cache filled and returns the same object without any effect, so
    [task.parent.subtasks()] and [task.parent.add_subtask(name)] are called
    on the object the [if] before them has read. *)
Definition _attach_parent (task : addr) (name : string)
  (section : AsanaSection.AsanaSection) : M world unit :=
  p ← AsanaTask.parent task;
  tasks ← match p with
          | None => AsanaSection.tasks section
          | Some q => AsanaTask.subtasks q
          end;
  found ← next_matching tasks name;
  parent ← match found with
           | Some q => mret q
           | None =>
               p' ← AsanaTask.parent task;
               match p' with
               | None => AsanaSection.add_task section name
               | Some q => AsanaTask.add_subtask q name
               end
           end;
  AsanaTask.set_parent task parent.

(** [fuel] is the recursion depth that is left, [bound] the bound given to
    the loop of [tags]. *)
Fixpoint __build_hierarchy (bound fuel : nat) (task : addr)
  (section : AsanaSection.AsanaSection) : M world unit :=
  match fuel with
  | O => raise RecursionError
  | S fuel' =>
      parser ← TaskNameParser.new task;
      if Nat.eqb (length (parts (TaskNameParser.parser parser))) 1 then mret tt
      else
        _attach_parent task (first (TaskNameParser.parser parser)) section ;;
        n ← TaskNameParser.tagged_name bound parser;
        AsanaTask.set_name task n ;;
        __build_hierarchy bound fuel' task section
  end.

Definition _execute (bound fuel : nat) (a : args) : M world unit :=
  for_each (section_names a) (fun name =>
    section ← AsanaProject.get_section name;
    parent_section ← match parent a with
                     | Some p => AsanaProject.get_section p
                     | None => mret section
                     end;
    match section with
    | None => mret tt
    | Some section =>
        match parent_section with
        | None => raise AttributeError
        | Some parent_section =>
            AsanaSection.for_tasks fuel section (recursive a)
              (fun task => __build_hierarchy bound fuel task parent_section)
        end
    end).

End BuildHierarchy.

(** ** The update-estimates commandlet (commandlets.py) *)

Module UpdateEstimatesForTask.

(** The names and the number [constants.py] provides. *)
Record constants := {
  estimate_hours_name : string;
  completed_hours_name : string;
  remaining_hours_name : string;
  estimate_days_name : string;
  remaining_days_name : string;
  hours_per_day : Q
}.

(** Numbers are exact rationals, kept in lowest terms.  Python computes
    [hours / hours_per_day] and [round] on floats; the two agree whenever
    the quotient is a float, as with whole hours and eight hours a day. *)
Definition num (q : Q) : Store.value := Store.VNum (Qred q).

(** [v or 0] *)
Definition or_zero (v : Store.value) : Store.value :=
  if Store.truthy v then v else Store.VNum 0.

(** [a - b] and [a + b]: only numbers can be operands here. *)
Definition sub (a b : Store.value) : outcome Store.value :=
  match Store.number_of a, Store.number_of b with
  | Some x, Some y => Ok (num (x - y))
  | _, _ => Raise TypeError
  end.

Definition add (a : Q) (b : Store.value) : outcome Q :=
  match Store.number_of b with
  | Some y => Ok (Qred (a + y))
  | None => Raise TypeError
  end.

(** The nearest integer, the even one at a tie. *)
Definition round_half_even (q : Q) : Z :=
  let f := Qfloor q in
  match Qcompare (q - inject_Z f) (1 # 2) with
  | Lt => f
  | Gt => (f + 1)%Z
  | Eq => if Z.even f then f else (f + 1)%Z
  end.

(** [round(a / b, 1)] *)
Definition round_div (a : Store.value) (b : Q) : outcome Store.value :=
  match Store.number_of a with
  | Some x =>
      if Qeq_bool b 0 then Raise ZeroDivisionError
      else Ok (num (inject_Z (round_half_even (x / b * 10)) / 10))
  | None => Raise TypeError
  end.

Section Callbacks.
Variable c : constants.

Definition __initialize_task (task : addr) : M world unit :=
  v ← AsanaTask.field_value task (estimate_hours_name c);
  let estimate := or_zero v in
  done ← AsanaTask.completed task;
  let completed := if (done : bool) then estimate else Store.VNum 0 in
  remaining ← lift (sub estimate completed);
  AsanaTask.update_field task (remaining_hours_name c) remaining ;;
  AsanaTask.update_field task (completed_hours_name c) completed ;;
  d ← lift (round_div estimate (hours_per_day c));
  AsanaTask.update_field task (estimate_days_name c) d ;;
  d' ← lift (round_div remaining (hours_per_day c));
  AsanaTask.update_field task (remaining_days_name c) d'.

(** [current or (0, 0, 0)]: a tuple of three is never false. *)
Definition or_zeros (current : option (Q * Q * Q)) : Q * Q * Q :=
  default (0, 0, 0)%Q current.

Definition __increment_estimate (task : addr) (current : option (Q * Q * Q))
  : M world (option (Q * Q * Q)) :=
  let '(c0, c1, c2) := or_zeros current in
  estimate ← or_zero <$> AsanaTask.field_value task (estimate_hours_name c);
  completed ← or_zero <$> AsanaTask.field_value task (completed_hours_name c);
  remaining ← or_zero <$> AsanaTask.field_value task (remaining_hours_name c);
  e ← lift (add c0 estimate);
  k ← lift (add c1 completed);
  r ← lift (add c2 remaining);
  mret (Some (e, k, r)).

Definition __update_estimate (task : addr) (current : option (Q * Q * Q))
  : M world unit :=
  let '(c0, c1, c2) := or_zeros current in
  AsanaTask.update_field task (estimate_hours_name c) (num c0) ;;
  AsanaTask.update_field task (completed_hours_name c) (num c1) ;;
  AsanaTask.update_field task (remaining_hours_name c) (num c2) ;;
  d ← lift (round_div (num c0) (hours_per_day c));
  AsanaTask.update_field task (estimate_days_name c) d ;;
  d' ← lift (round_div (num c2) (hours_per_day c));
  AsanaTask.update_field task (remaining_days_name c) d'.

(** [task.reduce(self.__initialize_task, self.__increment_estimate,
    self.__update_estimate)] *)
Definition rollup (fuel : nat) (task : addr) : M world unit :=
  AsanaTask.reduce fuel __initialize_task __increment_estimate __update_estimate task.

(** [_execute]; [task] is [task_id(args.task_url)] when a URL is given. *)
Definition _execute (fuel : nat) (source_section : string)
  (task : option Store.gid) : M world unit :=
  section ← AsanaProject.get_section source_section;
  match section with
  | None => mret tt
  | Some section =>
      match task with
      | None =>
          tasks ← AsanaSection.tasks section;
          for_each tasks (rollup fuel)
      | Some task_id =>
          tasks ← AsanaSection.tasks section;
          gids ← map_M (fun t => g ← AsanaTask.gid t; mret (g, t)) tasks;
          match List.find (fun x => Nat.eqb x.1 task_id) gids with
          | None => mret tt
          | Some x => rollup fuel x.2
          end
      end
  end.

End Callbacks.
End UpdateEstimatesForTask.

(** ** The ancestors of a task *)

(** The titles of the task [g] and of its ancestors as the store has
    them, the task first and the root last. *)
Inductive store_chain (s : Store.store) : option Store.gid -> list string -> Prop :=
| store_chain_root : store_chain s None []
| store_chain_step (g : Store.gid) (t : Store.stored_task) (titles : list string) :
    Store.tasks s !! g = Some t ->
    store_chain s (Store.t_parent (Store.st_data t)) titles ->
    store_chain s (Some g) (Store.t_name (Store.st_data t) :: titles).

(** The titles of the ancestors of the object at [a] as reading
    [parent] again and again delivers them, the parent first and the root
    last: a cached parent object is taken as it is, and from the first
    object without a cached parent on the records come from the store. *)
Inductive resolves (w : world) : addr -> list string -> Prop :=
| resolves_root (a : addr) (o : object) :
    heap w !! a = Some o ->
    Store.t_parent (_task o) = None ->
    resolves w a []
| resolves_cached (a : addr) (o : object) (pg : Store.gid) (p : addr) (po : object)
    (titles : list string) :
    heap w !! a = Some o ->
    Store.t_parent (_task o) = Some pg ->
    __parent o = Some p ->
    heap w !! p = Some po ->
    resolves w p titles ->
    resolves w a (Store.t_name (_task po) :: titles)
| resolves_fetch (a : addr) (o : object) (pg : Store.gid) (titles : list string) :
    heap w !! a = Some o ->
    Store.t_parent (_task o) = Some pg ->
    __parent o = None ->
    store_chain (remote w) (Some pg) titles ->
    resolves w a titles.

(** The same, with every ancestor in the cache. *)
Inductive cached_chain (w : world) : addr -> list string -> Prop :=
| cached_root (a : addr) (o : object) :
    heap w !! a = Some o ->
    Store.t_parent (_task o) = None ->
    cached_chain w a []
| cached_step (a : addr) (o : object) (pg : Store.gid) (p : addr) (po : object)
    (titles : list string) :
    heap w !! a = Some o ->
    Store.t_parent (_task o) = Some pg ->
    __parent o = Some p ->
    heap w !! p = Some po ->
    cached_chain w p titles ->
    cached_chain w a (Store.t_name (_task po) :: titles).

(** What reading ancestors may change: objects stay where they are and
    keep their record; an object that has a cached parent or no parent at
    all is not touched; the store is not changed. *)
Definition reads_only (w w' : world) : Prop :=
  remote w' = remote w
  /\ forall (y : addr) (oy : object),
       heap w !! y = Some oy ->
       (exists oy', heap w' !! y = Some oy' /\ _task oy' = _task oy)
       /\ (__parent oy <> None \/ Store.t_parent (_task oy) = None ->
           heap w' !! y = Some oy).

(** [m] is the mnemonic of the title. *)
Definition mnemonic_of (title m : string) : Prop :=
  mnemonic (NameParser.new title) = Ok m.

(** ** Partial correctness of computations *)

(** When [m] starts in a world with [P] and returns [x], the world it
    leaves has [Q x]. *)
Definition hoare {A} (P : world -> Prop) (m : M world A) (Q : A -> world -> Prop)
  : Prop :=
  forall w x w', P w -> m w = (Ok x, w') -> Q x w'.

(** The store has a task [g] with the given title. *)
Definition stored_title (g : Store.gid) (title : string) (s : Store.store) : Prop :=
  exists t, Store.tasks s !! g = Some t
            /\ Store.t_gid (Store.st_data t) = g
            /\ Store.t_name (Store.st_data t) = title.

(** The object at [a] stands for the task [g] and has the given title,
    and so has the task in the store. *)
Definition titled (a : addr) (g : Store.gid) (title : string) (w : world) : Prop :=
  (exists o, heap w !! a = Some o
             /\ Store.t_gid (_task o) = g
             /\ Store.t_name (_task o) = title)
  /\ stored_title g title (remote w).

(** Every task of [ts] is at the same place in [ts'], with its gid and
    its title. *)
Definition same_titles (ts ts' : list Store.stored_task) : Prop :=
  forall i t, ts !! i = Some t ->
    exists t', ts' !! i = Some t'
               /\ Store.t_gid (Store.st_data t') = Store.t_gid (Store.st_data t)
               /\ Store.t_name (Store.st_data t') = Store.t_name (Store.st_data t).

(** The string has no opening bracket. *)
Definition no_bracket (s : string) : Prop :=
  Str.all_chars (fun c => negb (Ascii.eqb c "[")) s = true.

Definition all_space (ws : string) : Prop := Str.all_chars Str.is_space ws = true.

(** The string ends with the separator and white space. *)
Definition ends_with_separator (s : string) : Prop :=
  exists u ws, s = (u ++ ">" ++ ws)%string /\ all_space ws.

(** The untagged title ends with the separator. *)
Definition trailing_separator (title : string) : Prop :=
  exists u, untagged (NameParser.new title) = (u ++ ">")%string.

(** [m] keeps the title of the task at [a], and what it returns has [phi]. *)
Definition keeps {A} (a : addr) (g : Store.gid) (title : string)
  (m : M world A) (phi : A -> Prop) : Prop :=
  hoare (titled a g title) m (fun x w => titled a g title w /\ phi x).

(** An object that may be stored at [self]. *)
Definition good_object (a : addr) (g : Store.gid) (title : string)
  (self : addr) (o : object) : Prop :=
  self = a -> Store.t_gid (_task o) = g /\ Store.t_name (_task o) = title.

(** A record that was fetched for the task [x]. *)
Definition good_data (g : Store.gid) (title : string)
  (x : Store.gid) (d : Store.task_data) : Prop :=
  x = g -> Store.t_gid d = g /\ Store.t_name d = title.

(** The world after the getter has fetched the parent [t] of [o]. *)
Definition fetched (a : addr) (o : object) (pg : Store.gid) (t : Store.stored_task)
  (w : world) : world :=
  {| heap := <[a := {| _task := _task o; __parent := Some (length (heap w));
                       __subtasks := __subtasks o |}]>
               (heap w ++ [{| _task := Store.st_data t; __parent := None;
                              __subtasks := None |}]);
     remote := remote w;
     calls := calls w ++ [GetTask pg] |}.


(** ** Stores and settings used in the examples *)

Module Scenario.

Definition empty_world (s : Store.store) : world :=
  {| heap := []; remote := s; calls := [] |}.

(** A section ["Stories"] whose only task has the given title. *)
Definition stories (title : string) : Store.store :=
  {| Store.tasks := [Store.new_task 0 title None];
     Store.sections := [{| Store.sec_name := "Stories"; Store.sec_tasks := [0] |}] |}.

Definition build_stories : BuildHierarchy.args :=
  {| BuildHierarchy.section_names := ["Stories"];
     BuildHierarchy.recursive := false;
     BuildHierarchy.parent := None |}.

Definition settings : UpdateEstimatesForTask.constants :=
  {| UpdateEstimatesForTask.estimate_hours_name := "Estimate hours";
     UpdateEstimatesForTask.completed_hours_name := "Completed hours";
     UpdateEstimatesForTask.remaining_hours_name := "Remaining hours";
     UpdateEstimatesForTask.estimate_days_name := "Estimate days";
     UpdateEstimatesForTask.remaining_days_name := "Remaining days";
     UpdateEstimatesForTask.hours_per_day := 8 |}.

Definition number_field (g : Store.gid) (name : string) (v : Store.value)
  : Store.custom_field :=
  {| Store.field_gid := g; Store.field_name := name; Store.field_type := "number";
     Store.typed_value := v; Store.display_value := Store.VNone |}.

(** The five fields of a task: the stored estimate, and values of an
    earlier rollup in the other four. *)
Definition fields (estimate stale : Store.value) : list Store.custom_field :=
  [number_field 100 "Estimate hours" estimate;
   number_field 101 "Completed hours" stale;
   number_field 102 "Remaining hours" stale;
   number_field 103 "Estimate days" stale;
   number_field 104 "Remaining days" stale].

Definition estimated_task (g : Store.gid) (name : string) (p : option Store.gid)
  (completed : bool) (estimate stale : Store.value) (subtasks : list Store.gid)
  : Store.stored_task :=
  {| Store.st_data := {| Store.t_gid := g; Store.t_name := name; Store.t_parent := p;
                         Store.t_completed := completed;
                         Store.t_custom_fields := fields estimate stale |};
     Store.st_subtasks := subtasks |}.

(** [P] with the children [A] (5 hours, open) and [B] (3 hours, done), and
    [Q] with the only child [C] (20 hours, open), in the section ["Epics"]. *)
Definition epics : Store.store :=
  {| Store.tasks :=
       [estimated_task 0 "P" None false (Store.VNum 40) (Store.VNum 7) [1; 2];
        estimated_task 1 "A" (Some 0) false (Store.VNum 5) Store.VNone [];
        estimated_task 2 "B" (Some 0) true (Store.VNum 3) Store.VNone [];
        estimated_task 3 "Q" None false Store.VNone Store.VNone [4];
        estimated_task 4 "C" (Some 3) false (Store.VNum 20) Store.VNone []];
     Store.sections := [{| Store.sec_name := "Epics"; Store.sec_tasks := [0; 3] |}] |}.

(** A section ["Epics"] whose only task has no children and an estimate of
    5 hours. *)
Definition lone_epic : Store.store :=
  {| Store.tasks :=
       [estimated_task 0 "E" None false (Store.VNum 5) Store.VNone []];
     Store.sections := [{| Store.sec_name := "Epics"; Store.sec_tasks := [0] |}] |}.

(** The values of the five fields of a task in the store, in the order
    estimate hours, completed hours, remaining hours, estimate days,
    remaining days. *)
Definition stored_fields (g : Store.gid) (s : Store.store) : list Store.value :=
  match Store.tasks s !! g with
  | Some t => map Store.typed_value (Store.t_custom_fields (Store.st_data t))
  | None => []
  end.

(** The same values as the object at an address has them. *)
Definition cached_fields (a : addr) (w : world) : list Store.value :=
  match heap w !! a with
  | Some o => map Store.typed_value (Store.t_custom_fields (_task o))
  | None => []
  end.


(** The world of the build-hierarchy run over [stories title] when the
    loop over the tasks of the section begins: the only task is the object
    at address 0. *)
Definition stories_loaded (title : string) : world :=
  {| heap := [{| _task := Store.st_data (Store.new_task 0 title None);
                 __parent := None; __subtasks := None |}];
     remote := stories title;
     calls := [GetSectionsForProject; GetTasksForSection 0] |}.

Definition stories_section : AsanaSection.AsanaSection :=
  {| AsanaSection.gid := 0; AsanaSection.name := "Stories" |}.

(** A new command run on the store an earlier run has left. *)
Definition rerun (bound fuel : nat) (earlier : outcome unit * world)
  : outcome unit * world :=
  BuildHierarchy._execute bound fuel build_stories (empty_world (remote earlier.2)).

End Scenario.

(** ** Further notions about titles *)

(** The string has no white space at either end. *)
Definition stripped (s : string) : Prop := Str.strip s = s.

(** The string has no separator. *)
Definition no_separator (s : string) : Prop :=
  Str.all_chars (fun c => negb (Ascii.eqb c ">")) s = true.

(** The string has no closing bracket. *)
Definition no_closing_bracket (s : string) : Prop :=
  Str.all_chars (fun c => negb (Ascii.eqb c "]")) s = true.

(** ** AsanaProject.task_id *)

(** [url.split("/")[-2]]; [None] stands for the [IndexError] that the
    index raises on a list of fewer than two elements. *)
Definition task_id (url : string) : option string :=
  let l := Str.split "/" url in
  if (2 <=? length l)%nat then l !! (length l - 2)%nat else None.

(** The string has no slash. *)
Definition no_slash (s : string) : Prop :=
  Str.all_chars (fun c => negb (Ascii.eqb c "/")) s = true.

(** ** Views of the custom fields of an object *)

(** [next((field for field in fields if field["name"] == field_name), None)] *)
Definition find_field (field_name : string) (fs : list Store.custom_field)
  : option Store.custom_field :=
  List.find (fun f => String.eqb (Store.field_name f) field_name) fs.

(** The fields after [field[update_field] = value] on the first field of
    that name. *)
Definition put_field (field_name : string) (value : Store.value)
  : list Store.custom_field -> list Store.custom_field :=
  fix put (fs : list Store.custom_field) : list Store.custom_field :=
    match fs with
    | [] => []
    | f :: r =>
        if String.eqb (Store.field_name f) field_name
        then Store.set_field_value value f :: r
        else f :: put r
    end.

(** What [field_value] returns for an object with these fields. *)
Definition field_view (fs : list Store.custom_field) (field_name : string)
  : Store.value :=
  match find_field field_name fs with
  | None => Store.VNone
  | Some f =>
      match AsanaTask.raw_field_value f with
      | Store.VDict n => Store.VStr n
      | result => result
      end
  end.

Definition fields_of (o : object) : list Store.custom_field :=
  Store.t_custom_fields (_task o).

(** ** TaskNameParser.path and AsanaTask.attach_subtask (AsanaTask.py) *)

(** The [while parent is not None] loop of [path]. *)
Fixpoint path_loop (bound : nat) (parent : option addr) (path : string)
  : M world string :=
  match parent with
  | None => mret path
  | Some p =>
      match bound with
      | O => raise Unfinished
      | S bound' =>
          tp ← TaskNameParser.new p;
          m ← lift (mnemonic (TaskNameParser.parser tp));
          parent' ← AsanaTask.parent p;
          path_loop bound' parent' (m ++ " > " ++ path)%string
      end
  end.

Definition path (bound : nat) (self : TaskNameParser.TaskNameParser) : M world string :=
  m ← lift (mnemonic (TaskNameParser.parser self));
  parent ← AsanaTask.parent (TaskNameParser.task self);
  path_loop bound parent m.

(** [self.attach_subtask(task)] with an [AsanaTask] for [task] and with
    [after] left at [None]. *)
Definition attach_subtask (bound : nat) (self task : addr) : M world addr :=
  g ← AsanaTask.gid task;
  tp ← TaskNameParser.new task;
  p ← path bound tp;
  AsanaTask.set_name task p ;;
  sg ← AsanaTask.gid self;
  request (SetParentForTask g sg) (Store.set_parent_for_task g sg) ;;
  mret task.

(** The path that is built from the mnemonics of the ancestors, the
    parent's first, and the mnemonic of the task. *)
Definition prefixed (ms : list string) (m : string) : string :=
  fold_left (fun path a => (a ++ " > " ++ path)%string) ms m.

(** ** PlotBurndown.draw_burndown_chart: the ideal line (commandlets.py) *)

Module PlotBurndown.

(** A [datetime.date] is its proleptic Gregorian ordinal
    ([date.toordinal()]): day 1 is 0001-01-01, a Monday, and [date.max] is
    day 3652059. *)
Definition max_ordinal : Z := 3652059.

Definition valid_date (d : Z) : Prop := (1 <= d <= max_ordinal)%Z.

(** What ends [compute_burndown_line] early; [Unfinished] is no exception
    but a [while] loop that is still running when its bound is used up. *)
Inductive error : Type := ZeroDivisionError | OverflowError | Unfinished.

Inductive result (A : Type) : Type :=
| Done (a : A)
| Fail (e : error).
Arguments Done {A} a.
Arguments Fail {A} e.

(** [d.weekday()]: 0 for Monday up to 6 for Sunday. *)
Definition weekday (d : Z) : Z := ((d + 6) mod 7)%Z.

(** [d + timedelta(days=1)] *)
Definition next_day (d : Z) : result Z :=
  if (d <? max_ordinal)%Z then Done (d + 1)%Z else Fail OverflowError.

(** The loop of [compute_delta_days]. *)
Fixpoint delta_loop (bound : nat) (start end_ : Z) (delta_days : Z) : result Z :=
  if (start <? end_)%Z then
    match bound with
    | O => Fail Unfinished
    | S bound' =>
        match next_day start with
        | Fail e => Fail e
        | Done start' =>
            delta_loop bound' start' end_
              (if (weekday start' <? 5)%Z then (delta_days + 1)%Z else delta_days)
        end
    end
  else Done delta_days.

Definition compute_delta_days (bound : nat) (start end_ : Z) : result Z :=
  delta_loop bound start end_ 0.

(** [story_points - (i * story_points / days)], with whole numbers for
    [i], [story_points] and [days].  The quotient and the difference are
    floats in the source and exact rationals here. *)
Definition ideal (story_points i days : Z) : result Q :=
  if (days =? 0)%Z then Fail ZeroDivisionError
  else Done (inject_Z story_points - inject_Z (i * story_points) / inject_Z days)%Q.

(** The loop of [compute_burndown_line]. *)
Fixpoint line_loop (bound : nat) (start_date end_date story_points days i : Z)
  (date_line : list Z) (burndown_line : list Q) : result (list Z * list Q) :=
  if (start_date <=? end_date)%Z then
    match bound with
    | O => Fail Unfinished
    | S bound' =>
        match next_day start_date with
        | Fail e => Fail e
        | Done start_date' =>
            match ideal story_points i days with
            | Fail e => Fail e
            | Done y =>
                line_loop bound' start_date' end_date story_points days
                  (if (weekday start_date' <? 5)%Z then (i + 1)%Z else i)
                  (date_line ++ [start_date]) (burndown_line ++ [y])
            end
        end
    end
  else Done (date_line, burndown_line).

Definition compute_burndown_line (bound : nat) (start_date end_date story_points : Z)
  : result (list Z * list Q) :=
  match compute_delta_days bound start_date end_date with
  | Fail e => Fail e
  | Done days => line_loop bound start_date end_date story_points days 0 [] []
  end.

(** The days from Monday to Friday after [start], up to [end_] and with it. *)
Definition workdays (start end_ : Z) : Z :=
  Z.of_nat (length (filter (fun d => (weekday d < 5)%Z)
                           (seqZ (start + 1) (end_ - start)))).

(** The days from [start] to [end_]. *)
Definition days_from (start end_ : Z) : list Z := seqZ start (end_ - start + 1).

(** The value the ideal line has on day [d]. *)
Definition ideal_on (start end_ story_points d : Z) : Q :=
  (inject_Z story_points
   - inject_Z (workdays start d * story_points) / inject_Z (workdays start end_))%Q.

End PlotBurndown.
(** The cases of [test/NameParserTests.py]. *)
Example test_name :
  name (new "Name (abbreviation)") = Ok "Name"
  /\ name (new "Name") = Ok "Name"
  /\ name (new "Name > Subordinate") = Ok "Name"
  /\ name (new "Name (abbreviation) > Subordinate") = Ok "Name"
  /\ name (new "Name > Subordinate (abbreviation)") = Ok "Name".
Proof. repeat split. Qed.

Example test_abbreviation :
  abbreviation (new "Name (abbreviation)") = Ok (Some "abbreviation")
  /\ abbreviation (new "Name") = Ok None
  /\ abbreviation (new "Name > Subordinate") = Ok None
  /\ abbreviation (new "Name (abbreviation) > Subordinate") = Ok (Some "abbreviation")
  /\ abbreviation (new "Name > Subordinate (abbreviation)") = Ok None.
Proof. repeat split. Qed.

Example test_mnemonic :
  mnemonic (new "Name (abbreviation)") = Ok "abbreviation"
  /\ mnemonic (new "Name") = Ok "Name"
  /\ mnemonic (new "Name > Subordinate") = Ok "Name"
  /\ mnemonic (new "Name (abbreviation) > Subordinate") = Ok "abbreviation"
  /\ mnemonic (new "Name > Subordinate (abbreviation)") = Ok "Name".
Proof. repeat split. Qed.

Example test_untagged :
  untagged (new "Name") = "Name"
  /\ untagged (new "[Tags] Name (abbreviation)") = "Name (abbreviation)"
  /\ untagged (new "[Tags] Name (abbreviation) > Subordinate")
     = "Name (abbreviation) > Subordinate"
  /\ untagged (new "[Tags]  Name (abbreviation) > Subordinate (abbreviation)")
     = "Name (abbreviation) > Subordinate (abbreviation)".
Proof. repeat split. Qed.

Example test_matches :
  matches (new "Name") "Name" = Ok true
  /\ matches (new "Name (abbreviation)") "Name (abbreviation)" = Ok true
  /\ matches (new "Name (abbreviation)") "Name" = Ok true
  /\ matches (new "Name (abbreviation)") "abbreviation" = Ok true
  /\ matches (new "Name > Subordinate") "Name" = Ok false
  /\ matches (new "Name (abbreviation) > Subordinate") "Name (abbreviation)" = Ok false
  /\ matches (new "Name (abbreviation) > Subordinate") "Name" = Ok false
  /\ matches (new "Name (abbreviation) > Subordinate") "abbreviation" = Ok false.
Proof. repeat split. Qed.

(** ** Properties of the name parser *)

Lemma name_regex_match_None (s : string) :
  name_regex_match s = None <-> s = "" \/ begins_with_paren s.
Proof.
  unfold name_regex_match, begins_with_paren. destruct s as [|c r]; simpl.
  - split; auto.
  - destruct (Ascii.eqb_spec c "(") as [->|Hc]; simpl.
    + split; eauto.
    + destruct (Str.span _ r) as [a b].
      split.
      * destruct b as [|c' b']; [discriminate|].
        destruct (Str.span _ b') as [[|? ?] ?]; discriminate.
      * intros [H|[r' H]]; [discriminate|]. injection H as -> _. congruence.
Qed.

Lemma name_regex_match_Some (s : string) (m : name_match) :
  name_regex_match s = Some m -> has_other_than_paren s.
Proof.
  intros H. destruct s as [|c r].
  - discriminate.
  - exists 0, c. split; [reflexivity|]. intros ->.
    assert (name_regex_match (String "(" r) = None) as E
      by (apply name_regex_match_None; right; eexists; reflexivity).
    congruence.
Qed.

Lemma group_returns {A} (s : string) (g : name_match -> A) :
  returns (group (name_regex_match s) g) -> has_other_than_paren s.
Proof.
  intros [v H]. destruct (name_regex_match s) eqn:E; [|discriminate].
  eapply name_regex_match_Some; eauto.
Qed.

Lemma obind_returns {A B} (x : outcome A) (f : A -> outcome B) :
  returns (obind x f) -> returns x.
Proof. destruct x; intros [v H]; [eexists; eauto|discriminate]. Qed.

Lemma name_returns (self : NameParser) :
  returns (name self) -> has_other_than_paren (first self).
Proof. intros H. apply obind_returns in H. eapply group_returns; eauto. Qed.

Lemma abbreviation_returns (self : NameParser) :
  returns (abbreviation self) -> has_other_than_paren (first self).
Proof. intros H. apply obind_returns in H. eapply group_returns; eauto. Qed.

Lemma mnemonic_returns (self : NameParser) :
  returns (mnemonic self) -> has_other_than_paren (first self).
Proof. intros H. apply obind_returns in H. apply abbreviation_returns; auto. Qed.

Lemma matches_returns (self : NameParser) (candidate : string) :
  returns (matches self candidate) -> has_other_than_paren candidate.
Proof. intros H. apply obind_returns in H. eapply group_returns; eauto. Qed.

Lemma name_raises (self : NameParser) :
  first self = "" \/ begins_with_paren (first self) ->
  name self = Raise AttributeError.
Proof.
  intros H. apply name_regex_match_None in H. unfold name. now rewrite H.
Qed.

Lemma abbreviation_raises (self : NameParser) :
  first self = "" \/ begins_with_paren (first self) ->
  abbreviation self = Raise AttributeError.
Proof.
  intros H. apply name_regex_match_None in H. unfold abbreviation. now rewrite H.
Qed.

Lemma mnemonic_raises (self : NameParser) :
  first self = "" \/ begins_with_paren (first self) ->
  mnemonic self = Raise AttributeError.
Proof.
  intros H. unfold mnemonic. now rewrite abbreviation_raises.
Qed.

Lemma matches_raises (self : NameParser) (candidate : string) :
  candidate = "" \/ begins_with_paren candidate ->
  matches self candidate = Raise AttributeError.
Proof.
  intros H. apply name_regex_match_None in H. unfold matches. now rewrite H.
Qed.

(** C10. [name], [abbreviation] and [mnemonic] return a value only when the
    untagged first segment of the receiver has a character other than an
    opening parenthesis, and [matches] only when the candidate string has
    one; when that first segment (for [matches], the candidate) is empty or
    begins with an opening parenthesis, the name regex does not match and
    the operation raises. *)
Theorem parser_partiality (self : NameParser) (candidate : string) :
  (returns (name self) -> has_other_than_paren (first self))
  /\ (returns (abbreviation self) -> has_other_than_paren (first self))
  /\ (returns (mnemonic self) -> has_other_than_paren (first self))
  /\ (returns (matches self candidate) -> has_other_than_paren candidate)
  /\ (first self = "" \/ begins_with_paren (first self) ->
      name_regex_match (first self) = None
      /\ name self = Raise AttributeError
      /\ abbreviation self = Raise AttributeError
      /\ mnemonic self = Raise AttributeError)
  /\ (candidate = "" \/ begins_with_paren candidate ->
      name_regex_match candidate = None
      /\ matches self candidate = Raise AttributeError).
Proof.
  repeat split.
  - apply name_returns.
  - apply abbreviation_returns.
  - apply mnemonic_returns.
  - apply matches_returns.
  - now apply name_regex_match_None.
  - now apply name_raises.
  - now apply abbreviation_raises.
  - now apply mnemonic_raises.
  - now apply name_regex_match_None.
  - now apply matches_raises.
Qed.

(** The titles [""], ["(AB)"], ["[Tag]"] and ["> Child"] of the claim. *)
Lemma parser_partiality_witness :
  (name (new "(AB)") = Raise AttributeError
   /\ abbreviation (new "(AB)") = Raise AttributeError
   /\ mnemonic (new "(AB)") = Raise AttributeError
   /\ matches (new "Name") "(AB)" = Raise AttributeError)
  /\ (name (new "") = Raise AttributeError
      /\ mnemonic (new "[Tag]") = Raise AttributeError
      /\ abbreviation (new "> Child") = Raise AttributeError
      /\ matches (new "Name") "" = Raise AttributeError)
  /\ has_other_than_paren (first (new "Name (AB)")).
Proof.
  split; [|split].
  - pose proof (parser_partiality (new "(AB)") "(AB)") as (_ & _ & _ & _ & H1 & H2).
    destruct H1 as (_ & ? & ? & ?); [right; eexists; reflexivity|].
    destruct H2 as (_ & ?); [right; eexists; reflexivity|].
    auto.
  - pose proof (parser_partiality (new "") "") as (_ & _ & _ & _ & H1 & H2).
    pose proof (parser_partiality (new "[Tag]") "") as (_ & _ & _ & _ & H3 & _).
    pose proof (parser_partiality (new "> Child") "") as (_ & _ & _ & _ & H4 & _).
    destruct H1 as (_ & ? & ? & ?); [left; reflexivity|].
    destruct H2 as (_ & ?); [left; reflexivity|].
    destruct H3 as (_ & ? & ? & ?); [left; reflexivity|].
    destruct H4 as (_ & ? & ? & ?); [left; reflexivity|].
    auto.
  - pose proof (parser_partiality (new "Name (AB)") "x") as (H & _).
    apply H. eexists; reflexivity.
Defined.

(** *** What [matches] compares *)

(** The candidate of [matches] is read as it stands: the name regex is run
    on the whole string, without removing tags and without splitting it
    into segments, and the abbreviation it finds is not stripped. *)
Lemma matches_unfold (self : NameParser) (candidate : string) (m : name_match) :
  name_regex_match candidate = Some m ->
  matches self candidate =
    let name_name := Str.strip (group_name m) in
    let name_mnemonic :=
      match group_abbr m with
      | Some a => Str.or_else a name_name
      | None => name_name
      end in
    if Nat.eqb (length (parts self)) 1 then
      obind (mnemonic self) (fun mn =>
        if String.eqb name_mnemonic mn then Ok true
        else obind (name self) (fun n' => Ok (String.eqb name_name n')))
    else Ok false.
Proof. intros H. unfold matches. rewrite H. reflexivity. Qed.

Lemma span_nonempty_abbr (s : string) (m : name_match) (a : string) :
  name_regex_match s = Some m -> group_abbr m = Some a -> Str.truthy a = true.
Proof.
  unfold name_regex_match.
  destruct (Str.span _ s) as [n r]. destruct n as [|cn n]; [discriminate|].
  destruct r as [|c r'].
  - intros H; injection H as <-. discriminate.
  - destruct (Str.span _ r') as [[|ca ra] ?]; intros H; injection H as <-; simpl.
    + discriminate.
    + intros H; injection H as <-. reflexivity.
Qed.

Lemma mnemonic_of_name_returns (self : NameParser) :
  returns (name self) -> returns (mnemonic self).
Proof.
  intros [n Hn]. unfold mnemonic, abbreviation, name in *.
  destruct (name_regex_match (first self)) as [m|]; [|discriminate].
  simpl in *. destruct (group_abbr m) as [a|]; simpl.
  - destruct (Str.truthy (Str.strip a)); eexists; reflexivity.
  - eexists; reflexivity.
Qed.

(** A multi-segment receiver never matches. *)
Lemma matches_multi_segment (self : NameParser) (candidate : string) :
  length (parts self) <> 1 -> matches self candidate <> Ok true.
Proof.
  intros Hlen. destruct (name_regex_match candidate) as [m|] eqn:E.
  - rewrite (matches_unfold _ _ _ E). simpl.
    destruct (Nat.eqb_spec (length (parts self)) 1); [contradiction|discriminate].
  - unfold matches. rewrite E. discriminate.
Qed.

(** C3, as stated, fails: the receiver ["A"] has one segment and the plain
    name of the candidate ["A > B"] is the receiver's plain name, yet
    [matches] answers [False], since it reads the candidate as one
    segment. *)
Lemma matches_claim_counterexample :
  ~ (matches (new "A") "A > B" = Ok true
     <-> (length (parts (new "A")) = 1
          /\ (mnemonic (new "A > B") = mnemonic (new "A")
              \/ name (new "A > B") = name (new "A")))).
Proof.
  intros [_ H].
  assert (matches (new "A") "A > B" = Ok true) as E
    by (apply H; split; [reflexivity|right; reflexivity]).
  vm_compute in E. discriminate.
Qed.

(** The abbreviation of the candidate is compared as written, with its
    surrounding blanks, while the receiver's is stripped. *)
Example matches_unstripped_abbreviation :
  matches (new "X (AB)") "Y ( AB )" = Ok false
  /\ mnemonic (new "Y ( AB )") = mnemonic (new "X (AB)").
Proof. split; reflexivity. Qed.

(** C3 (amended). For a candidate that is one stripped, untagged segment
    (as every first segment is) whose regex matches and whose abbreviation
    has no surrounding blanks, and a receiver whose own first segment
    parses when it is its only one: [matches] returns, and returns [True]
    exactly when the receiver has one segment and the candidate has the
    receiver's mnemonic or the receiver's plain name.  A receiver with two
    or more segments never matches, and ["Name (AB)"] matches both ["Name"]
    and ["AB"]. *)
Theorem matches_iff (self : NameParser) (candidate : string) :
  (first (new candidate) = candidate ->
   (forall m a, name_regex_match candidate = Some m ->
                group_abbr m = Some a -> Str.strip a = a) ->
   returns (name (new candidate)) ->
   (length (parts self) = 1 -> returns (name self)) ->
   exists b, matches self candidate = Ok b
     /\ (b = true <->
         length (parts self) = 1
         /\ (mnemonic (new candidate) = mnemonic self
             \/ name (new candidate) = name self)))
  /\ (length (parts self) <> 1 -> matches self candidate <> Ok true)
  /\ matches (new "Name (AB)") "Name" = Ok true
  /\ matches (new "Name (AB)") "AB" = Ok true.
Proof.
  split; [|split; [apply matches_multi_segment|split; reflexivity]].
  intros Hfirst Habbr [nc Hnc] Hself.
  unfold name in Hnc. rewrite Hfirst in Hnc.
  destruct (name_regex_match candidate) as [m|] eqn:E; [|discriminate].
  simpl in Hnc. injection Hnc as <-.
  assert (name (new candidate) = Ok (Str.strip (group_name m))) as Hname
    by (unfold name; rewrite Hfirst, E; reflexivity).
  assert (mnemonic (new candidate) =
          Ok match group_abbr m with
             | Some a => Str.or_else a (Str.strip (group_name m))
             | None => Str.strip (group_name m)
             end) as Hmn.
  { unfold mnemonic, abbreviation. rewrite Hfirst, E. simpl.
    destruct (group_abbr m) as [a|] eqn:Ea; simpl; [|exact Hname].
    rewrite (Habbr m a eq_refl Ea). unfold Str.or_else.
    now rewrite (span_nonempty_abbr _ _ _ E Ea). }
  rewrite (matches_unfold _ _ _ E). cbv zeta.
  rewrite Hname, Hmn.
  destruct (Nat.eqb_spec (length (parts self)) 1) as [Hlen|Hlen].
  - destruct (Hself Hlen) as [n' Hn'].
    destruct (mnemonic_of_name_returns self (ex_intro _ n' Hn')) as [mn Hm].
    rewrite Hm, Hn'. simpl.
    destruct (String.eqb_spec
                match group_abbr m with
                | Some a => Str.or_else a (Str.strip (group_name m))
                | None => Str.strip (group_name m)
                end mn) as [Heq|Hne].
    + exists true. split; [reflexivity|]. split; [|reflexivity].
      intros _. split; [assumption|]. left. now rewrite Heq.
    + exists (String.eqb (Str.strip (group_name m)) n'). split; [reflexivity|].
      destruct (String.eqb_spec (Str.strip (group_name m)) n') as [Heq|Hne'].
      * split; [|reflexivity]. intros _. split; [assumption|]. right. now rewrite Heq.
      * split; [discriminate|]. intros [_ [H|H]]; injection H; contradiction.
  - exists false. split; [reflexivity|]. split; [discriminate|tauto].
Qed.

Lemma matches_iff_witness :
  exists b, matches (new "Name (AB)") "AB" = Ok b
    /\ (b = true <->
        length (parts (new "Name (AB)")) = 1
        /\ (mnemonic (new "AB") = mnemonic (new "Name (AB)")
            \/ name (new "AB") = name (new "Name (AB)"))).
Proof.
  apply (proj1 (matches_iff (new "Name (AB)") "AB")).
  - reflexivity.
  - vm_compute. intros m a [= <-]. discriminate.
  - eexists; reflexivity.
  - intros _. eexists; reflexivity.
Defined.


(** ** Facts about stripping, splitting and joining *)

#[local] Arguments String.append !s1 s2 : simpl nomatch.

Lemma lstrip_head (s : string) (c : ascii) (r : string) :
  Str.lstrip s = String c r -> Str.is_space c = false.
Proof.
  induction s as [|c0 s IH]; simpl; [discriminate|].
  destruct (Str.is_space c0) eqn:E; [exact IH|].
  intros H. injection H as <- _. exact E.
Qed.

Lemma rstrip_head (c : ascii) (r : string) :
  Str.is_space c = false -> exists r', Str.rstrip (String c r) = String c r'.
Proof.
  intros Hc. simpl. destruct (Str.rstrip r); [rewrite Hc|]; eauto.
Qed.

Lemma strip_head (s : string) (c : ascii) (r : string) :
  Str.strip s = String c r -> Str.is_space c = false.
Proof.
  unfold Str.strip. destruct (Str.lstrip s) as [|c0 r0] eqn:E; [discriminate|].
  pose proof (lstrip_head _ _ _ E) as Hc.
  destruct (rstrip_head c0 r0 Hc) as [r' ->].
  intros H. injection H as <- _. exact Hc.
Qed.

Lemma strip_truthy (c : ascii) (r : string) :
  Str.is_space c = false -> Str.truthy (Str.strip (String c r)) = true.
Proof.
  intros Hc. unfold Str.strip. simpl Str.lstrip. rewrite Hc.
  destruct (rstrip_head c r Hc) as [r' ->]. reflexivity.
Qed.

Lemma split_nonempty (sep : ascii) (s : string) : Str.split sep s <> [].
Proof.
  induction s as [|c s IH]; simpl; [discriminate|].
  destruct (Ascii.eqb c sep); [discriminate|].
  destruct (Str.split sep s); discriminate.
Qed.

(** The first segment is a stripped string. *)
Lemma first_is_stripped (self : NameParser) :
  exists h, first self = Str.strip h.
Proof.
  unfold first, parts.
  destruct (Str.split ">" (untagged self)) as [|h t] eqn:E.
  - now apply split_nonempty in E.
  - exists h. reflexivity.
Qed.

Lemma span_head (p : ascii -> bool) (c : ascii) (r : string) :
  p c = true -> exists a b, Str.span p (String c r) = (String c a, b).
Proof.
  intros Hp. simpl. rewrite Hp. destruct (Str.span p r) as [a b]. eauto.
Qed.

(** The name group begins with the first character of the string. *)
Lemma group_name_head (s : string) (m : name_match) :
  name_regex_match s = Some m ->
  exists c r n, s = String c r /\ group_name m = String c n.
Proof.
  unfold name_regex_match. destruct s as [|c r]; [discriminate|].
  destruct (negb (Ascii.eqb c "(")) eqn:Hc.
  - destruct (span_head (fun c => negb (Ascii.eqb c "(")) c r Hc) as (a & b & ->).
    intros H. exists c, r, a. split; [reflexivity|].
    destruct b as [|cb b'].
    + now injection H as <-.
    + destruct (Str.span _ b') as [[|ca ra] ?]; now injection H as <-.
  - simpl. rewrite Hc. discriminate.
Qed.

(** A mnemonic is never the empty string. *)
Lemma mnemonic_truthy (self : NameParser) (m : string) :
  mnemonic self = Ok m -> Str.truthy m = true.
Proof.
  unfold mnemonic, abbreviation, name.
  destruct (name_regex_match (first self)) as [mt|] eqn:E; [|discriminate].
  simpl.
  assert (Str.truthy (Str.strip (group_name mt)) = true) as Hname.
  { destruct (group_name_head _ _ E) as (c & r & n & Hs & ->).
    destruct (first_is_stripped self) as [h Hh]. rewrite Hh in Hs.
    apply strip_truthy. eapply strip_head; eauto. }
  destruct (group_abbr mt) as [a|]; simpl.
  - destruct (Str.truthy (Str.strip a)) eqn:Ha.
    + now intros [= <-].
    + now intros [= <-].
  - now intros [= <-].
Qed.

Lemma append_truthy (a b : string) :
  Str.truthy a = true -> Str.truthy (a ++ b) = true.
Proof. destruct a; [discriminate|reflexivity]. Qed.

Lemma join_truthy (sep : string) (l : list string) :
  l <> [] -> Forall (fun x => Str.truthy x = true) l ->
  Str.truthy (Str.join sep l) = true.
Proof.
  destruct l as [|x [|y r]]; [congruence| |]; intros _ H; inversion H; subst.
  - assumption.
  - change (Str.join sep (x :: y :: r)) with (x ++ sep ++ Str.join sep (y :: r))%string.
    now apply append_truthy.
Qed.

(** *** Strings without an opening bracket *)

Lemma all_chars_app (p : ascii -> bool) (a b : string) :
  Str.all_chars p (a ++ b) = Str.all_chars p a && Str.all_chars p b.
Proof.
  induction a as [|c a IH]; simpl; [reflexivity|].
  now rewrite IH, andb_assoc.
Qed.

Lemma all_chars_lstrip (p : ascii -> bool) (s : string) :
  Str.all_chars p s = true -> Str.all_chars p (Str.lstrip s) = true.
Proof.
  induction s as [|c s IH]; simpl; [reflexivity|].
  intros H. apply andb_true_iff in H as [Hc Hs].
  destruct (Str.is_space c); [auto|]. simpl. now rewrite Hc, Hs.
Qed.

Lemma all_chars_rstrip (p : ascii -> bool) (s : string) :
  Str.all_chars p s = true -> Str.all_chars p (Str.rstrip s) = true.
Proof.
  induction s as [|c s IH]; simpl; [reflexivity|].
  intros H. apply andb_true_iff in H as [Hc Hs].
  specialize (IH Hs). destruct (Str.rstrip s) as [|c' r'].
  - destruct (Str.is_space c); simpl; [reflexivity|now rewrite Hc].
  - simpl in *. now rewrite Hc, IH.
Qed.

Lemma all_chars_strip (p : ascii -> bool) (s : string) :
  Str.all_chars p s = true -> Str.all_chars p (Str.strip s) = true.
Proof. intros H. now apply all_chars_rstrip, all_chars_lstrip. Qed.

Lemma all_chars_split (p : ascii -> bool) (sep : ascii) (s : string) :
  Str.all_chars p s = true ->
  Forall (fun x => Str.all_chars p x = true) (Str.split sep s).
Proof.
  induction s as [|c s IH]; simpl; [repeat constructor|].
  intros H. apply andb_true_iff in H as [Hc Hs]. specialize (IH Hs).
  destruct (Ascii.eqb c sep); [now constructor|].
  destruct (Str.split sep s) as [|h t].
  - repeat constructor. simpl. now rewrite Hc.
  - inversion IH; subst. constructor; [|assumption]. simpl. now rewrite Hc.
Qed.

Lemma all_chars_join (p : ascii -> bool) (sep : string) (l : list string) :
  Str.all_chars p sep = true ->
  Forall (fun x => Str.all_chars p x = true) l ->
  Str.all_chars p (Str.join sep l) = true.
Proof.
  intros Hsep. induction l as [|x [|y r] IH]; intros H.
  - reflexivity.
  - now inversion H.
  - inversion H; subst.
    change (Str.join sep (x :: y :: r)) with (x ++ sep ++ Str.join sep (y :: r))%string.
    rewrite !all_chars_app. rewrite Hsep. rewrite IH by assumption.
    now rewrite andb_true_r.
Qed.

Lemma clean_from_no_bracket_out (st : clean_state) (s : string) :
  no_bracket (clean_from st s).
Proof.
  unfold no_bracket. revert st.
  induction s as [|c s IH]; intros st; [reflexivity|].
  destruct st; simpl.
  - destruct (Ascii.eqb c "[") eqn:E; [apply IH|]. simpl. now rewrite E, IH.
  - destruct (Ascii.eqb c "]"); apply IH.
  - destruct (Ascii.eqb c "]"); [apply IH|].
    destruct (Ascii.eqb c "[") eqn:E; [apply IH|]. simpl. now rewrite E, IH.
Qed.

Lemma clean_from_no_bracket_in (s : string) :
  no_bracket s -> clean_from Copy s = s.
Proof.
  unfold no_bracket. induction s as [|c s IH]; simpl; [reflexivity|].
  intros H. apply andb_true_iff in H as [Hc Hs].
  apply negb_true_iff in Hc. rewrite Hc. now rewrite IH.
Qed.

Lemma untagged_no_bracket (self : NameParser) : no_bracket (untagged self).
Proof. apply all_chars_strip, clean_from_no_bracket_out. Qed.

Lemma parts_no_bracket (self : NameParser) :
  Forall no_bracket (parts self).
Proof.
  unfold parts. apply Forall_map.
  eapply Forall_impl; [apply all_chars_split, untagged_no_bracket|].
  intros x Hx. now apply all_chars_strip.
Qed.

Lemma remainder_no_bracket (self : NameParser) : no_bracket (remainder self).
Proof.
  unfold remainder. apply all_chars_join; [reflexivity|].
  pose proof (parts_no_bracket self) as H.
  destruct (parts self); [constructor|]. now inversion H.
Qed.

(** *** Titles that end with the separator *)

Lemma append_assoc (a b c : string) : ((a ++ b) ++ c = a ++ (b ++ c))%string.
Proof. induction a as [|x a IH]; simpl; [reflexivity|f_equal; exact IH]. Qed.

Lemma lstrip_keeps_separator (x ws : string) :
  exists x', Str.lstrip (x ++ ">" ++ ws) = (x' ++ ">" ++ ws)%string.
Proof.
  induction x as [|c x IH]; simpl.
  - now exists "".
  - destruct (Str.is_space c); [exact IH|]. now exists (String c x).
Qed.

Lemma rstrip_all_space (ws : string) : all_space ws -> Str.rstrip ws = "".
Proof.
  unfold all_space. induction ws as [|c ws IH]; simpl; [reflexivity|].
  intros H. apply andb_true_iff in H as [Hc Hs]. now rewrite IH, Hc.
Qed.

Lemma rstrip_separator (a ws : string) :
  all_space ws -> Str.rstrip (a ++ ">" ++ ws) = (a ++ ">")%string.
Proof.
  intros Hws. induction a as [|c a IH]; simpl in *.
  - now rewrite rstrip_all_space.
  - rewrite IH. now destruct a.
Qed.

Lemma strip_ends_with_separator (s : string) :
  ends_with_separator s -> exists u, Str.strip s = (u ++ ">")%string.
Proof.
  intros (u & ws & -> & Hws). unfold Str.strip.
  destruct (lstrip_keeps_separator u ws) as [x' ->].
  exists x'. now apply rstrip_separator.
Qed.

Lemma split_snoc_separator (sep : ascii) (u : string) :
  Str.split sep (u ++ String sep "") = Str.split sep u ++ [""].
Proof.
  induction u as [|c u IH]; simpl.
  - now rewrite Ascii.eqb_refl.
  - destruct (Ascii.eqb c sep); [now rewrite IH|].
    rewrite IH. destruct (Str.split sep u) as [|h t] eqn:E; [|reflexivity].
    now apply split_nonempty in E.
Qed.

Lemma trailing_parts (title : string) :
  trailing_separator title ->
  exists p0 ps, parts (NameParser.new title) = p0 :: ps ++ [""].
Proof.
  intros [u Hu]. unfold parts. rewrite Hu, split_snoc_separator, map_app.
  destruct (Str.split ">" u) as [|h t] eqn:E; [now apply split_nonempty in E|].
  now exists (Str.strip h), (map Str.strip t).
Qed.

Lemma trailing_not_single (title : string) :
  trailing_separator title ->
  Nat.eqb (length (parts (NameParser.new title))) 1 = false.
Proof.
  intros H. destruct (trailing_parts title H) as (p0 & ps & ->).
  simpl. rewrite length_app. simpl. apply Nat.eqb_neq. lia.
Qed.

Lemma join_snoc (sep : string) (l : list string) (x : string) :
  l <> [] -> Str.join sep (l ++ [x]) = (Str.join sep l ++ sep ++ x)%string.
Proof.
  induction l as [|y [|z r] IH]; intros Hne; [congruence|reflexivity|].
  change (Str.join sep ((y :: z :: r) ++ [x]))
    with (y ++ sep ++ Str.join sep ((z :: r) ++ [x]))%string.
  rewrite IH by discriminate.
  change (Str.join sep (y :: z :: r)) with (y ++ sep ++ Str.join sep (z :: r))%string.
  now rewrite !append_assoc.
Qed.

(** What is put behind the tags when the title ends with the separator. *)
Lemma remainder_or_untagged_trailing (title : string) :
  trailing_separator title ->
  let rou := Str.or_else (remainder (NameParser.new title))
                         (untagged (NameParser.new title)) in
  ends_with_separator rou /\ no_bracket rou.
Proof.
  intros H rou. split.
  - subst rou. destruct (trailing_parts title H) as (p0 & ps & Hp).
    unfold remainder. rewrite Hp. simpl tl.
    destruct ps as [|p1 ps].
    + simpl. destruct H as [u ->]. exists u, "". split; [|reflexivity].
      reflexivity.
    + rewrite join_snoc by discriminate. unfold Str.or_else.
      assert (Str.truthy (Str.join " > " (p1 :: ps) ++ " > " ++ "") = true) as ->.
      { destruct (Str.join " > " (p1 :: ps)); reflexivity. }
      exists (Str.join " > " (p1 :: ps) ++ " ")%string, " ".
      split; [|reflexivity]. now rewrite !append_assoc.
  - subst rou. unfold Str.or_else.
    destruct (Str.truthy _); [apply remainder_no_bracket|apply untagged_no_bracket].
Qed.

Lemma clean_tagged (r : string) :
  no_bracket r ->
  forall (t : string) (st : clean_state),
    exists z, clean_from st (t ++ "] " ++ r) = (z ++ " " ++ r)%string.
Proof.
  intros Hr. induction t as [|c t IH]; intros st.
  - destruct st; simpl; rewrite (clean_from_no_bracket_in r Hr);
      [now exists "]"|now exists ""|now exists ""].
  - destruct st; simpl in *.
    + destruct (Ascii.eqb c "["); [apply IH|].
      destruct (IH Copy) as [z ->]. now exists (String c z).
    + destruct (Ascii.eqb c "]"); apply IH.
    + destruct (Ascii.eqb c "]"); [apply IH|].
      destruct (Ascii.eqb c "["); [apply IH|].
      destruct (IH Copy) as [z ->]. now exists (String c z).
Qed.

Lemma trailing_tagged (t r : string) :
  ends_with_separator r -> no_bracket r ->
  trailing_separator ("[" ++ t ++ "] " ++ r).
Proof.
  intros (u & ws & Er & Hws) Hr. unfold trailing_separator, untagged, clean_sub.
  destruct (clean_tagged r Hr t InTag) as [z Hz].
  change (clean_from Copy (raw (NameParser.new ("[" ++ t ++ "] " ++ r))))
    with (clean_from InTag (t ++ "] " ++ r)).
  rewrite Hz. subst r.
  apply strip_ends_with_separator.
  exists (z ++ " " ++ u)%string, ws. split; [|assumption].
  now rewrite !append_assoc.
Qed.

Lemma trailing_plain (r : string) :
  ends_with_separator r -> no_bracket r -> trailing_separator r.
Proof.
  intros He Hr. unfold trailing_separator, untagged, clean_sub. simpl raw.
  rewrite (clean_from_no_bracket_in r Hr).
  now apply strip_ends_with_separator.
Qed.

(** ** The level-bucket fold is a mirrored post-order fold *)

Section MonadLaws.
Context {W : Type}.

Lemma bind_ret_l {A B} (a : A) (f : A -> M W B) (w : W) :
  (mret a ≫= f) w = f a w.
Proof. reflexivity. Qed.

Lemma bind_assoc {A B C} (m : M W A) (f : A -> M W B) (g : B -> M W C) (w : W) :
  ((m ≫= f) ≫= g) w = (m ≫= (fun a => f a ≫= g)) w.
Proof.
  unfold mbind, M_bind. destruct (m w) as [[a|e] w']; [|reflexivity].
  reflexivity.
Qed.

Lemma bind_ext {A B} (m : M W A) (f g : A -> M W B) (w : W) :
  (forall a w', f a w' = g a w') -> (m ≫= f) w = (m ≫= g) w.
Proof.
  intros H. unfold mbind, M_bind. destruct (m w) as [[a|e] w']; auto.
Qed.

Lemma bind_cong_l {A B} (m m' : M W A) (f : A -> M W B) (w : W) :
  m w = m' w -> (m ≫= f) w = (m' ≫= f) w.
Proof. intros H. unfold mbind, M_bind. now rewrite H. Qed.

End MonadLaws.

Section FoldProofs.
Context {W T A : Type}.
Variable initializer : T -> M W unit.
Variable reducer : T -> option A -> M W (option A).
Variable updater : T -> option A -> M W unit.

Local Abbreviation tree := (@Fold.tree T).
Local Abbreviation reduce_loop := (Fold.reduce_loop initializer reducer updater).
Local Abbreviation reduce_body := (Fold.reduce_body initializer reducer updater).
Local Abbreviation mirror_fold := (Fold.mirror_fold initializer reducer updater).
Local Abbreviation mirror_children := (Fold.mirror_children initializer reducer updater).
Local Abbreviation set_level := (@Fold.set_level A).
Local Abbreviation leveled_forest := (@Fold.leveled_forest T).
Local Abbreviation loop_on_tree := (Fold.loop_on_tree initializer reducer updater).

Lemma tree_induction (P : tree -> Prop) :
  (forall x cs, Forall P cs -> P (Fold.Node x cs)) -> forall t, P t.
Proof.
  intros H. fix IH 1. intros [x cs]. apply H.
  induction cs as [|c cs IHcs]; constructor; [apply IH|apply IHcs].
Qed.

Lemma set_level_lookup (k : Z) (v : option A) (levels : gmap Z A) :
  set_level k v levels !! k = v.
Proof.
  destruct v; simpl; [apply lookup_insert_eq|apply lookup_delete_eq].
Qed.

Lemma set_level_lookup_ne (k k' : Z) (v : option A) (levels : gmap Z A) :
  k <> k' -> set_level k v levels !! k' = levels !! k'.
Proof.
  intros H. destruct v; simpl; [now apply lookup_insert_ne|now apply lookup_delete_ne].
Qed.

Lemma set_level_id (k : Z) (levels : gmap Z A) :
  set_level k (levels !! k) levels = levels.
Proof.
  destruct (levels !! k) eqn:E; simpl; [now apply insert_id|now apply delete_id].
Qed.

Lemma set_level_twice (k : Z) (v v' : option A) (levels : gmap Z A) :
  set_level k v' (set_level k v levels) = set_level k v' levels.
Proof.
  apply map_eq. intros i. destruct (decide (k = i)) as [->|Hne].
  - now rewrite !set_level_lookup.
  - now rewrite !set_level_lookup_ne.
Qed.

Lemma set_level_reset (k : Z) (v : option A) (levels : gmap Z A) :
  levels !! k = None -> set_level k None (set_level k v levels) = levels.
Proof.
  intros H. rewrite set_level_twice. simpl. now apply delete_id.
Qed.

Lemma reduce_loop_app (l1 l2 : list (Z * T)) (st : gmap Z A * Z) (w : W) :
  reduce_loop (l1 ++ l2) st w = (reduce_loop l1 st ≫= reduce_loop l2) w.
Proof.
  revert st w. induction l1 as [|x l1 IH]; intros st w; simpl.
  - reflexivity.
  - rewrite bind_assoc. apply bind_ext. intros st' w'. apply IH.
Qed.

Lemma mirror_fold_unfold (x : T) (cs : list tree) (acc : option A) :
  mirror_fold (Fold.Node x cs) acc =
  (match cs with
   | [] => initializer x
   | _ :: _ => a ← mirror_children cs None; initializer x ;; updater x a
   end ;; reducer x acc).
Proof. destruct cs; reflexivity. Qed.


Lemma loop_on_forest (cs : list tree) :
  Forall loop_on_tree cs ->
  forall (lvl : Z) (lv : gmap Z A) (prev : Z) (rest : list (Z * T)) (w : W),
    (prev <= lvl)%Z ->
    (forall k, (lvl < k)%Z -> lv !! k = None) ->
    reduce_loop (rev (leveled_forest lvl cs) ++ rest) (lv, prev) w
    = (a ← mirror_children cs (lv !! lvl);
       reduce_loop rest
         (set_level lvl a lv, match cs with [] => prev | _ :: _ => lvl end)) w.
Proof.
  induction 1 as [|c cs Hc Hcs IH]; intros lvl lv prev rest w Hprev Hlv.
  - simpl. rewrite bind_ret_l. now rewrite set_level_id.
  - unfold leveled_forest. simpl flat_map. fold (leveled_forest lvl cs).
    change ((lvl, Fold.task_of c) :: Fold.__leveled_subtasks (lvl + 1) c
            ++ leveled_forest lvl cs)
      with (((lvl, Fold.task_of c) :: Fold.__leveled_subtasks (lvl + 1) c)
            ++ leveled_forest lvl cs).
    rewrite rev_app_distr, <- app_assoc.
    rewrite IH by assumption.
    simpl mirror_children. rewrite bind_assoc.
    apply bind_ext. intros a w'.
    rewrite Hc.
    + rewrite set_level_lookup. apply bind_ext. intros a' w''.
      now rewrite set_level_twice.
    + destruct cs; lia.
    + intros k Hk. rewrite set_level_lookup_ne by lia. now apply Hlv.
Qed.

Lemma loop_on_every_tree (t : tree) : loop_on_tree t.
Proof.
  induction t as [x cs IH] using tree_induction.
  intros lvl lv prev rest w Hprev Hlv.
  change (Fold.__leveled_subtasks (lvl + 1) (Fold.Node x cs))
    with (leveled_forest (lvl + 1) cs).
  simpl rev. rewrite <- app_assoc. simpl app.
  rewrite (loop_on_forest cs IH) by (try lia; intros k Hk; apply Hlv; lia).
  rewrite mirror_fold_unfold.
  assert (lv !! (lvl + 1)%Z = None) as Hnext by (apply Hlv; lia).
  rewrite Hnext.
  destruct cs as [|c cs'].
  - simpl mirror_children. rewrite bind_ret_l.
    simpl. unfold Fold.reduce_body. simpl.
    rewrite bool_decide_eq_false_2 by lia.
    rewrite !bind_assoc. apply bind_ext. intros [] w1.
    rewrite delete_id by assumption.
    rewrite bind_assoc, bind_ret_l, bind_assoc.
    apply bind_ext. intros r w2. now rewrite bind_ret_l.
  - rewrite !bind_assoc. apply bind_ext. intros a w1.
    simpl reduce_loop. unfold Fold.reduce_body. simpl.
    rewrite bool_decide_eq_true_2 by lia.
    rewrite !bind_assoc. apply bind_ext. intros [] w2.
    rewrite set_level_lookup.
    rewrite !bind_assoc. apply bind_ext. intros [] w3.
    rewrite bind_ret_l.
    change (delete (lvl + 1)%Z (set_level (lvl + 1) a lv))
      with (set_level (lvl + 1) None (set_level (lvl + 1) a lv)).
    rewrite set_level_reset by assumption.
    rewrite !bind_assoc. apply bind_ext. intros r w4. now rewrite bind_ret_l.
Qed.

End FoldProofs.

Section FoldTheorem.
Context {W T A : Type}.
Variable initializer : T -> M W unit.
Variable reducer : T -> option A -> M W (option A).
Variable updater : T -> option A -> M W unit.

(** The loop over the reversed list of leveled subtasks, followed by the
    two calls for the root, is the mirrored post-order fold. *)
Lemma reduce_mirror (self : @Fold.tree T) (w : W) :
  Fold.reduce initializer reducer updater self w
  = Fold.mirror_postorder initializer reducer updater self w.
Proof.
  destruct self as [x cs].
  unfold Fold.reduce, Fold.reduce_from, Fold.mirror_postorder.
  change (Fold.__leveled_subtasks 0 (Fold.Node x cs)) with (Fold.leveled_forest 0 cs).
  rewrite <- (app_nil_r (rev (Fold.leveled_forest 0 cs))).
  erewrite bind_cong_l; cycle 1.
  { apply (loop_on_forest initializer reducer updater cs).
    - clear. induction cs as [|c cs IH]; constructor; [|exact IH].
      apply loop_on_every_tree.
    - lia.
    - intros k _. apply lookup_empty. }
  rewrite lookup_empty, bind_assoc. simpl Fold.subtasks_of.
  apply bind_ext. intros a w1. simpl Fold.reduce_loop.
  rewrite bind_ret_l. cbn [fst Fold.task_of].
  apply bind_ext. intros [] w2. now rewrite set_level_lookup.
Qed.

(** C4 (amended). On every subtask tree and in every world, with any
    callbacks, [reduce] makes the calls of the mirrored post-order fold and
    leaves the same world: subtrees are processed from the last child to
    the first, a node is initialized after all its descendants, it is
    finalized only if it has children (the root always), and it is folded
    into its parent's accumulator after that; the root is initialized and
    finalized last. *)
Theorem reduce_is_mirror_postorder (self : @Fold.tree T) (w : W) :
  Fold.reduce initializer reducer updater self w
  = Fold.mirror_postorder initializer reducer updater self w.
Proof. apply reduce_mirror. Qed.

End FoldTheorem.

(** C4, as stated, fails on a parent [P] with the two childless children [A]
    and [B]: the loop initializes and folds [B] before [A] and never
    finalizes either, where the post-order fold of the specification
    handles [A] first and finalizes both. *)
Lemma reduce_not_spec_postorder :
  let P := Fold.Node "P" [Fold.Node "A" []; Fold.Node "B" []] in
  FoldTrace.reduce P []
  = (Ok tt, [FoldTrace.Initializer "B"; FoldTrace.Reducer "B" None;
             FoldTrace.Initializer "A"; FoldTrace.Reducer "A" (Some ["B"]);
             FoldTrace.Initializer "P"; FoldTrace.Updater "P" (Some ["B"; "A"])])
  /\ FoldTrace.spec_postorder P []
  = (Ok tt, [FoldTrace.Initializer "A"; FoldTrace.Updater "A" None;
             FoldTrace.Reducer "A" None;
             FoldTrace.Initializer "B"; FoldTrace.Updater "B" None;
             FoldTrace.Reducer "B" (Some ["A"]);
             FoldTrace.Initializer "P"; FoldTrace.Updater "P" (Some ["A"; "B"])])
  /\ FoldTrace.reduce P [] <> FoldTrace.spec_postorder P [].
Proof.
  split; [reflexivity|split; [reflexivity|]].
  intros H. vm_compute in H. discriminate.
Qed.

(** ** Write-through of names and custom fields *)

Lemma deref_Some (self : addr) (o : object) (w : world) :
  heap w !! self = Some o -> deref self w = (Ok o, w).
Proof. intros H. unfold deref. now rewrite H. Qed.

Lemma bind_Ok {W A B} (m : M W A) (f : A -> M W B) (w w' : W) (a : A) :
  m w = (Ok a, w') -> (m ≫= f) w = f a w'.
Proof. intros H. unfold mbind, M_bind. now rewrite H. Qed.

Lemma set_name_same (self : addr) (o : object) (w : world) (value : string) :
  heap w !! self = Some o ->
  Store.t_name (_task o) = value ->
  AsanaTask.set_name self value w = (Ok tt, w).
Proof.
  intros Ho Hn. unfold AsanaTask.set_name.
  rewrite (bind_Ok _ _ _ _ _ (deref_Some _ _ _ Ho)).
  rewrite Hn, String.eqb_refl. reflexivity.
Qed.

Lemma set_name_other (self : addr) (o : object) (w : world) (value : string) :
  heap w !! self = Some o ->
  Store.t_name (_task o) <> value ->
  exists r s,
    AsanaTask.set_name self value w
    = (r, {| heap := <[self := AsanaTask.with_task (Store.set_name value) o]> (heap w);
             remote := s;
             calls := calls w ++ [UpdateTask (Store.t_gid (_task o))
                                             (Store.SetName value)] |})
    /\ match Store.update_task (Store.t_gid (_task o)) (Store.SetName value) (remote w) with
       | Ok s' => r = Ok tt /\ s = s'
       | Raise e => r = Raise e /\ s = remote w
       end.
Proof.
  intros Ho Hn. unfold AsanaTask.set_name.
  rewrite (bind_Ok _ _ _ _ _ (deref_Some _ _ _ Ho)).
  apply String.eqb_neq in Hn. rewrite Hn. simpl negb. cbv iota.
  unfold request, assign, log, mbind, M_bind, with_heap, with_remote. simpl.
  destruct (Store.update_task _ _ (remote w)) as [s'|e]; eexists _, _; split;
    try reflexivity; split; reflexivity.
Qed.

Lemma field_absent (self : addr) (o : object) (w : world) (field_name : string) :
  heap w !! self = Some o ->
  List.find (fun f => String.eqb (Store.field_name f) field_name)
            (Store.t_custom_fields (_task o)) = None ->
  AsanaTask._field self field_name w = (Ok None, w).
Proof.
  intros Ho Hf. unfold AsanaTask._field.
  rewrite (bind_Ok _ _ _ _ _ (deref_Some _ _ _ Ho)). now rewrite Hf.
Qed.

Lemma field_value_absent (self : addr) (o : object) (w : world) (field_name : string) :
  heap w !! self = Some o ->
  List.find (fun f => String.eqb (Store.field_name f) field_name)
            (Store.t_custom_fields (_task o)) = None ->
  AsanaTask.field_value self field_name w = (Ok Store.VNone, w).
Proof.
  intros Ho Hf. unfold AsanaTask.field_value.
  now rewrite (bind_Ok _ _ _ _ _ (field_absent _ _ _ _ Ho Hf)).
Qed.

Lemma update_field_absent (self : addr) (o : object) (w : world)
  (field_name : string) (value : Store.value) :
  heap w !! self = Some o ->
  List.find (fun f => String.eqb (Store.field_name f) field_name)
            (Store.t_custom_fields (_task o)) = None ->
  AsanaTask.update_field self field_name value w = (Ok tt, w).
Proof.
  intros Ho Hf. unfold AsanaTask.update_field.
  rewrite (bind_Ok _ _ _ _ _ (field_value_absent _ _ _ _ Ho Hf)).
  destruct (negb (Store.value_eqb Store.VNone value)); [|reflexivity].
  now rewrite (bind_Ok _ _ _ _ _ (field_absent _ _ _ _ Ho Hf)).
Qed.

(** C9. For a task object [self]: setting its name to the cached title
    sends nothing and changes nothing; setting it to another title changes
    the cached title and sends exactly one update of the name; reading a
    custom field the task does not have returns [None], and writing one is
    skipped; neither sends anything or changes anything. *)
Theorem conditional_write_through (self : addr) (o : object) (w : world)
  (title field_name : string) (value : Store.value) :
  heap w !! self = Some o ->
  (Store.t_name (_task o) = title ->
   AsanaTask.set_name self title w = (Ok tt, w))
  /\ (Store.t_name (_task o) <> title ->
      exists r s,
        AsanaTask.set_name self title w
        = (r, {| heap := <[self := AsanaTask.with_task (Store.set_name title) o]> (heap w);
                 remote := s;
                 calls := calls w ++ [UpdateTask (Store.t_gid (_task o))
                                                 (Store.SetName title)] |})
        /\ match Store.update_task (Store.t_gid (_task o)) (Store.SetName title)
                   (remote w) with
           | Ok s' => r = Ok tt /\ s = s'
           | Raise e => r = Raise e /\ s = remote w
           end)
  /\ (List.find (fun f => String.eqb (Store.field_name f) field_name)
                (Store.t_custom_fields (_task o)) = None ->
      AsanaTask.field_value self field_name w = (Ok Store.VNone, w)
      /\ AsanaTask.update_field self field_name value w = (Ok tt, w)).
Proof.
  intros Ho. split; [|split].
  - now apply set_name_same.
  - now apply set_name_other.
  - intros Hf. split.
    + now apply field_value_absent with o.
    + now apply update_field_absent with o.
Qed.

Lemma conditional_write_through_witness :
  let o := {| _task := Store.st_data (Store.new_task 0 "Old" None);
              __parent := None; __subtasks := None |} in
  let w := {| heap := [o]; remote := Scenario.stories "Old"; calls := [] |} in
  AsanaTask.set_name 0 "Old" w = (Ok tt, w)
  /\ (exists r s,
        AsanaTask.set_name 0 "New" w
        = (r, {| heap := [AsanaTask.with_task (Store.set_name "New") o];
                 remote := s;
                 calls := [UpdateTask 0 (Store.SetName "New")] |})
        /\ r = Ok tt /\ s = Scenario.stories "New")
  /\ AsanaTask.field_value 0 "Estimate hours" w = (Ok Store.VNone, w)
  /\ AsanaTask.update_field 0 "Estimate hours" (Store.VNum 1) w = (Ok tt, w).
Proof.
  intros o w.
  destruct (conditional_write_through 0 o w "Old" "Estimate hours" (Store.VNum 1) eq_refl)
    as (H1 & _ & H3).
  destruct (conditional_write_through 0 o w "New" "Estimate hours" (Store.VNum 1) eq_refl)
    as (_ & H2 & _).
  split; [apply H1; reflexivity|].
  split.
  - destruct H2 as (r & s & E & Hr); [discriminate|].
    exists r, s. split; [exact E|]. exact Hr.
  - apply H3. reflexivity.
Defined.

(** ** The subtask tree that [reduce] walks *)

Lemma bind_Ok_inv {W A B} (m : M W A) (f : A -> M W B) (w w' : W) (y : B) :
  (m ≫= f) w = (Ok y, w') ->
  exists x w1, m w = (Ok x, w1) /\ f x w1 = (Ok y, w').
Proof.
  unfold mbind, M_bind. destruct (m w) as [[x|e] w1]; [eauto|discriminate].
Qed.

Lemma map_M_Ok {W A B} (f : A -> M W B) (l : list A) :
  forall (w w' : W) (ys : list B),
    map_M f l w = (Ok ys, w') ->
    Forall2 (fun x y => exists w1 w2, f x w1 = (Ok y, w2)) l ys.
Proof.
  induction l as [|x l IH]; intros w w' ys Hrun; simpl in Hrun.
  - injection Hrun as <- _. constructor.
  - apply bind_Ok_inv in Hrun as (y & w1 & Hy & Hrun).
    apply bind_Ok_inv in Hrun as (ys' & w2 & Hys & Hrun).
    injection Hrun as <- _. constructor; [eauto|]. eapply IH; eauto.
Qed.

(** The list [reduce] builds is the list of the leveled subtasks of a
    tree: the tree of the objects found below [self]. *)
Lemma leveled_subtasks_tree (fuel : nat) :
  forall (level : Z) (self : addr) (w w' : world) (l : list (Z * addr)),
    AsanaTask.__leveled_subtasks fuel level self w = (Ok l, w') ->
    exists cs, l = Fold.__leveled_subtasks level (Fold.Node self cs).
Proof.
  induction fuel as [|fuel IH]; intros level self w w' l Hrun; [discriminate|].
  simpl in Hrun.
  apply bind_Ok_inv in Hrun as (tasks & w1 & _ & Hrun).
  apply bind_Ok_inv in Hrun as (ls & w2 & Hls & Hrun).
  injection Hrun as <- _. apply map_M_Ok in Hls. clear w w' w1 w2.
  induction Hls as [|task y tasks ls (w1 & w2 & Hy) _ (cs & Hcs)].
  - now exists [].
  - apply bind_Ok_inv in Hy as (l' & w3 & Hl' & Hy). injection Hy as <- _.
    destruct (IH _ _ _ _ _ Hl') as [cs' ->].
    exists (Fold.Node task cs' :: cs). simpl in *. now rewrite Hcs.
Qed.

(** On the heap, [reduce] finds the subtask tree and then makes the calls
    of the mirrored post-order fold on it. *)
Lemma reduce_on_heap {A} (fuel : nat)
  (initializer : addr -> M world unit)
  (reducer : addr -> option A -> M world (option A))
  (updater : addr -> option A -> M world unit)
  (self : addr) (w w' : world) (l : list (Z * addr)) :
  AsanaTask.__leveled_subtasks fuel 0 self w = (Ok l, w') ->
  exists cs,
    l = Fold.__leveled_subtasks 0 (Fold.Node self cs)
    /\ AsanaTask.reduce fuel initializer reducer updater self w
       = Fold.mirror_postorder initializer reducer updater (Fold.Node self cs) w'.
Proof.
  intros Hl. destruct (leveled_subtasks_tree _ _ _ _ _ _ Hl) as [cs ->].
  exists cs. split; [reflexivity|]. unfold AsanaTask.reduce.
  rewrite (bind_Ok _ _ _ _ _ Hl).
  apply (reduce_mirror initializer reducer updater (Fold.Node self cs)).
Qed.

(** ** The search for the parent *)

Lemma completed_run (found : addr) (w : world) :
  AsanaTask.completed found w
  = match heap w !! found with
    | Some o => (Ok (Store.t_completed (_task o)), w)
    | None => (Raise KeyError, w)
    end.
Proof.
  unfold AsanaTask.completed, deref, mbind, M_bind.
  destruct (heap w !! found); reflexivity.
Qed.

Lemma name_run (found : addr) (w : world) :
  AsanaTask.name found w
  = match heap w !! found with
    | Some o => (Ok (Store.t_name (_task o)), w)
    | None => (Raise KeyError, w)
    end.
Proof.
  unfold AsanaTask.name, deref, mbind, M_bind.
  destruct (heap w !! found); reflexivity.
Qed.



(** ** The tagged name *)

Lemma parent_none (a : addr) (o : object) (w : world) :
  heap w !! a = Some o ->
  Store.t_parent (_task o) = None ->
  AsanaTask.parent a w = (Ok None, w).
Proof.
  intros Ho Hp. unfold AsanaTask.parent.
  rewrite (bind_Ok _ _ _ _ _ (deref_Some _ _ _ Ho)). now rewrite Hp.
Qed.

Lemma parent_cached (a : addr) (o : object) (pg : Store.gid) (p : addr) (w : world) :
  heap w !! a = Some o ->
  Store.t_parent (_task o) = Some pg ->
  __parent o = Some p ->
  AsanaTask.parent a w = (Ok (Some p), w).
Proof.
  intros Ho Hp Hc. unfold AsanaTask.parent.
  rewrite (bind_Ok _ _ _ _ _ (deref_Some _ _ _ Ho)). now rewrite Hp, Hc.
Qed.

Lemma parent_fetch (a : addr) (o : object) (pg : Store.gid) (t : Store.stored_task)
  (w : world) :
  heap w !! a = Some o ->
  Store.t_parent (_task o) = Some pg ->
  __parent o = None ->
  Store.tasks (remote w) !! pg = Some t ->
  AsanaTask.parent a w = (Ok (Some (length (heap w))), fetched a o pg t w).
Proof.
  intros Ho Hp Hc Ht. unfold AsanaTask.parent.
  rewrite (bind_Ok _ _ _ _ _ (deref_Some _ _ _ Ho)). rewrite Hp, Hc.
  unfold query, log, AsanaTask.new, alloc, assign, Store.get_task,
    mbind, M_bind, mret, M_ret, with_heap. simpl.
  rewrite Ht. reflexivity.
Qed.

Lemma fetched_lookup_new (a : addr) (o : object) (pg : Store.gid)
  (t : Store.stored_task) (w : world) :
  heap w !! a = Some o ->
  heap (fetched a o pg t w) !! length (heap w)
  = Some {| _task := Store.st_data t; __parent := None; __subtasks := None |}.
Proof.
  intros Ho. simpl. apply lookup_lt_Some in Ho.
  rewrite list_lookup_insert_ne by lia.
  rewrite lookup_app_r by lia. now rewrite Nat.sub_diag.
Qed.

Lemma fetched_lookup_self (a : addr) (o : object) (pg : Store.gid)
  (t : Store.stored_task) (w : world) :
  heap w !! a = Some o ->
  heap (fetched a o pg t w) !! a
  = Some {| _task := _task o; __parent := Some (length (heap w));
            __subtasks := __subtasks o |}.
Proof.
  intros Ho. simpl. apply lookup_lt_Some in Ho.
  apply list_lookup_insert_eq. rewrite length_app. simpl. lia.
Qed.

Lemma fetched_lookup_other (a y : addr) (o oy : object) (pg : Store.gid)
  (t : Store.stored_task) (w : world) :
  heap w !! y = Some oy -> y <> a ->
  heap (fetched a o pg t w) !! y = Some oy.
Proof.
  intros Hy Hne. simpl. rewrite list_lookup_insert_ne by auto.
  rewrite lookup_app_l by (eapply lookup_lt_Some; eauto). assumption.
Qed.

(** A read of [parent] that follows a read that returned finds the cache
    filled (or no parent at all): it returns the same object and changes
    nothing. *)
Lemma parent_again (a : addr) (w w' : world) (r : option addr) :
  AsanaTask.parent a w = (Ok r, w') ->
  AsanaTask.parent a w' = (Ok r, w').
Proof.
  intros Hrun. pose proof Hrun as Hrun0. unfold AsanaTask.parent in Hrun.
  apply bind_Ok_inv in Hrun as (o & w1 & Ho & Hrun).
  unfold deref in Ho. destruct (heap w !! a) as [o'|] eqn:E; [|discriminate].
  injection Ho as -> <-.
  destruct (Store.t_parent (_task o)) as [pg|] eqn:Hp.
  - destruct (__parent o) as [p|] eqn:Hc.
    + injection Hrun as <- <-. exact Hrun0.
    + destruct (Store.tasks (remote w) !! pg) as [t|] eqn:Ht.
      * rewrite (parent_fetch _ _ _ _ _ E Hp Hc Ht) in Hrun0.
        injection Hrun0 as <- <-.
        eapply parent_cached; [apply fetched_lookup_self; eauto|eauto|reflexivity].
      * apply bind_Ok_inv in Hrun as (d & w2 & Hd & _).
        unfold query, log, Store.get_task, mbind, M_bind in Hd. simpl in Hd.
        rewrite Ht in Hd. discriminate.
  - injection Hrun as <- <-. exact Hrun0.
Qed.

Lemma reads_only_refl (w : world) : reads_only w w.
Proof. split; [reflexivity|]. intros y oy Hy. split; eauto. Qed.

Lemma reads_only_fetched (a : addr) (o : object) (pg : Store.gid)
  (t : Store.stored_task) (w w' : world) :
  heap w !! a = Some o ->
  Store.t_parent (_task o) = Some pg ->
  __parent o = None ->
  reads_only (fetched a o pg t w) w' ->
  reads_only w w'.
Proof.
  intros Ho Hp Hc [Hr Hf]. split; [exact Hr|].
  intros y oy Hy. destruct (decide (y = a)) as [->|Hne].
  - assert (oy = o) as -> by congruence.
    destruct (Hf a _ (fetched_lookup_self a o pg t w Ho)) as [(o' & Ho' & Ht') _].
    split; [eauto|]. intros [H|H]; congruence.
  - apply Hf. now apply fetched_lookup_other.
Qed.

Lemma new_run (p : addr) (po : object) (w : world) :
  heap w !! p = Some po ->
  TaskNameParser.new p w
  = (Ok {| TaskNameParser.parser := NameParser.new (Store.t_name (_task po));
           TaskNameParser.task := p |}, w).
Proof.
  intros Hp. unfold TaskNameParser.new.
  rewrite (bind_Ok _ _ w w (Store.t_name (_task po))); [reflexivity|].
  rewrite name_run. now rewrite Hp.
Qed.

Lemma tags_loop_step (b : nat) (p : addr) (po : object) (m : string)
  (paths : list string) (w : world) :
  heap w !! p = Some po ->
  mnemonic_of (Store.t_name (_task po)) m ->
  TaskNameParser.tags_loop (S b) (Some p) paths w
  = (AsanaTask.parent p ≫= fun p' => TaskNameParser.tags_loop b p' (paths ++ [m])) w.
Proof.
  intros Hp Hm. simpl TaskNameParser.tags_loop.
  rewrite (bind_Ok _ _ _ _ _ (new_run _ _ _ Hp)). simpl.
  unfold mnemonic_of in Hm. rewrite Hm. reflexivity.
Qed.

Lemma resolves_of_store_chain (w : world) (n : addr) (o : object)
  (titles : list string) :
  heap w !! n = Some o ->
  __parent o = None ->
  store_chain (remote w) (Store.t_parent (_task o)) titles ->
  resolves w n titles.
Proof.
  intros Hn Hc Hs. destruct (Store.t_parent (_task o)) as [pg|] eqn:Hp.
  - eapply resolves_fetch; eauto.
  - inversion Hs; subst. eapply resolves_root; eauto.
Qed.

(** Walking up from [a]: the mnemonics come out parent first, every
    ancestor ends up in the cache, and only reads were made. *)
Lemma ancestors_loop (titles : list string) :
  forall (w : world) (a : addr) (bound : nat) (paths ms : list string),
    resolves w a titles ->
    Forall2 mnemonic_of titles ms ->
    length titles <= bound ->
    exists w',
      (AsanaTask.parent a ≫= fun p => TaskNameParser.tags_loop bound p paths) w
      = (Ok (paths ++ ms), w')
      /\ cached_chain w' a titles
      /\ reads_only w w'.
Proof.
  induction titles as [|title titles IH]; intros w a bound paths ms Hres Hms Hb.
  - inversion Hms; subst.
    inversion Hres as [? o Ho Hp| |? o pg ? Ho Hp Hc Hs]; subst.
    + exists w. rewrite (bind_Ok _ _ _ _ _ (parent_none _ _ _ Ho Hp)).
      destruct bound; simpl; rewrite app_nil_r;
        (split; [reflexivity|split; [eapply cached_root; eauto|apply reads_only_refl]]).
    + inversion Hs.
  - inversion Hms as [|? m ? ms' Hm Hms']; subst.
    destruct bound as [|b]; [simpl in Hb; lia|]. simpl in Hb.
    inversion Hres as [|? o pg p po ? Ho Hp Hc Hpo Hr|? o pg ? Ho Hp Hc Hs]; subst.
    + (* the parent is in the cache *)
      rewrite (bind_Ok _ _ _ _ _ (parent_cached _ _ _ _ _ Ho Hp Hc)).
      rewrite (tags_loop_step _ _ _ _ _ _ Hpo Hm).
      destruct (IH w p b (paths ++ [m]) ms' Hr Hms' ltac:(lia))
        as (w' & Hrun & Hchain & Hread).
      exists w'. rewrite Hrun, <- app_assoc. split; [reflexivity|].
      split; [|exact Hread].
      destruct Hread as [_ Hf].
      destruct (Hf p po Hpo) as [(po' & Hpo' & Htask) _].
      destruct (Hf a o Ho) as [_ Ha]. rewrite <- Htask.
      eapply cached_step; eauto. apply Ha. left. congruence.
    + (* the parent is fetched from the store *)
      inversion Hs as [|? t ? Ht Hs']; subst.
      rewrite (bind_Ok _ _ _ _ _ (parent_fetch _ _ _ _ _ Ho Hp Hc Ht)).
      pose proof (fetched_lookup_new a o pg t w Ho) as Hn.
      rewrite (tags_loop_step _ _ _ _ _ _ Hn Hm).
      destruct (IH (fetched a o pg t w) (length (heap w)) b (paths ++ [m]) ms')
        as (w' & Hrun & Hchain & Hread); [|assumption|lia|].
      { eapply resolves_of_store_chain; eauto. }
      exists w'. rewrite Hrun, <- app_assoc. split; [reflexivity|].
      split; [|eapply reads_only_fetched; eauto].
      destruct Hread as [_ Hf].
      destruct (Hf _ _ Hn) as [(pn' & Hpn' & Htask) _].
      destruct (Hf _ _ (fetched_lookup_self a o pg t w Ho)) as [_ Ha].
      change (Store.t_name (Store.st_data t))
        with (Store.t_name (_task {| _task := Store.st_data t; __parent := None;
                                     __subtasks := None |})).
      rewrite <- Htask.
      eapply cached_step; [apply Ha; left; simpl; congruence|..]; eauto.
Qed.

(** With every ancestor in the cache the walk changes nothing. *)
Lemma cached_loop (titles : list string) :
  forall (w : world) (a : addr) (bound : nat) (paths ms : list string),
    cached_chain w a titles ->
    Forall2 mnemonic_of titles ms ->
    length titles <= bound ->
    (AsanaTask.parent a ≫= fun p => TaskNameParser.tags_loop bound p paths) w
    = (Ok (paths ++ ms), w).
Proof.
  induction titles as [|title titles IH]; intros w a bound paths ms Hres Hms Hb.
  - inversion Hms; subst. inversion Hres as [? o Ho Hp|]; subst.
    rewrite (bind_Ok _ _ _ _ _ (parent_none _ _ _ Ho Hp)).
    destruct bound; simpl; now rewrite app_nil_r.
  - inversion Hms as [|? m ? ms' Hm Hms']; subst.
    destruct bound as [|b]; [simpl in Hb; lia|]. simpl in Hb.
    inversion Hres as [|? o pg p po ? Ho Hp Hc Hpo Hr]; subst.
    rewrite (bind_Ok _ _ _ _ _ (parent_cached _ _ _ _ _ Ho Hp Hc)).
    rewrite (tags_loop_step _ _ _ _ _ _ Hpo Hm).
    rewrite (IH w p b (paths ++ [m]) ms' Hr Hms' ltac:(lia)).
    now rewrite <- app_assoc.
Qed.

Lemma tags_unfold (bound : nat) (self : TaskNameParser.TaskNameParser) (w : world) :
  TaskNameParser.tags bound self w
  = ((AsanaTask.parent (TaskNameParser.task self)
        ≫= fun p => TaskNameParser.tags_loop bound p [])
       ≫= fun paths => mret (Str.join " " (rev paths))) w.
Proof. unfold TaskNameParser.tags. now rewrite bind_assoc. Qed.

Lemma tags_run (bound : nat) (self : TaskNameParser.TaskNameParser) (w : world)
  (titles ms : list string) :
  resolves w (TaskNameParser.task self) titles ->
  Forall2 mnemonic_of titles ms ->
  length titles <= bound ->
  exists w',
    TaskNameParser.tags bound self w = (Ok (Str.join " " (rev ms)), w')
    /\ cached_chain w' (TaskNameParser.task self) titles
    /\ reads_only w w'.
Proof.
  intros Hres Hms Hb.
  destruct (ancestors_loop titles w _ bound [] ms Hres Hms Hb) as (w' & Hrun & Hc & Hr).
  exists w'. rewrite tags_unfold.
  rewrite (bind_Ok _ _ _ _ _ Hrun). auto.
Qed.

Lemma tags_cached (bound : nat) (self : TaskNameParser.TaskNameParser) (w : world)
  (titles ms : list string) :
  cached_chain w (TaskNameParser.task self) titles ->
  Forall2 mnemonic_of titles ms ->
  length titles <= bound ->
  TaskNameParser.tags bound self w = (Ok (Str.join " " (rev ms)), w).
Proof.
  intros Hres Hms Hb. rewrite tags_unfold.
  now rewrite (bind_Ok _ _ _ _ _ (cached_loop titles w _ bound [] ms Hres Hms Hb)).
Qed.

Lemma tags_truthy (titles ms : list string) :
  titles <> [] -> Forall2 mnemonic_of titles ms ->
  Str.truthy (Str.join " " (rev ms)) = true.
Proof.
  intros Hne Hms. apply join_truthy.
  - destruct Hms as [|t m ts ms' _ _]; [congruence|].
    simpl. intros H. apply (f_equal length) in H.
    rewrite length_app in H. simpl in H. lia.
  - apply Forall_rev. clear Hne.
    induction Hms as [|t m ts ms' Hm _ IH]; constructor; [|exact IH].
    eapply mnemonic_truthy; exact Hm.
Qed.

Lemma resolves_lookup (w : world) (a : addr) (titles : list string) :
  resolves w a titles -> exists o, heap w !! a = Some o.
Proof. destruct 1; eauto. Qed.

(** X25. [tagged_name] of a task that has ancestors, with the titles
    given, the parent first, and a parser made from the title of the task:
    it is the mnemonics of the ancestors, the root's first, joined by
    blanks and put in brackets, then a blank, then [remainder or untagged]
    of the parser, that is the remainder of the title after its first
    segment or, for a title whose remainder is empty, the whole untagged
    title; computing it only reads, and [task.name = parser.tagged_name]
    leaves this string as the title of the object. *)
Theorem tagged_remainder (bound : nat) (self : TaskNameParser.TaskNameParser)
  (w : world) (titles ms : list string) :
  resolves w (TaskNameParser.task self) titles ->
  titles <> [] ->
  Forall2 mnemonic_of titles ms ->
  length titles <= bound ->
  let p := TaskNameParser.parser self in
  let title := ("[" ++ Str.join " " (rev ms) ++ "] "
                ++ (if Str.truthy (remainder p) then remainder p else untagged p))%string in
  (exists w',
     TaskNameParser.tagged_name bound self w = (Ok title, w')
     /\ reads_only w w')
  /\ (exists r w'' o,
        (n ← TaskNameParser.tagged_name bound self;
         AsanaTask.set_name (TaskNameParser.task self) n) w = (r, w'')
        /\ heap w'' !! TaskNameParser.task self = Some o
        /\ Store.t_name (_task o) = title).
Proof.
  intros Hres Hne Hms Hb p title.
  destruct (tags_run bound self w titles ms Hres Hms Hb) as (w' & Hrun & Hc & Hr).
  assert (TaskNameParser.tagged_name bound self w = (Ok title, w')) as Htn.
  { unfold TaskNameParser.tagged_name.
    rewrite (bind_Ok _ _ _ _ _ Hrun).
    rewrite (tags_truthy titles ms Hne Hms).
    rewrite (bind_Ok _ _ _ _ _ (tags_cached bound self w' titles ms Hc Hms Hb)).
    reflexivity. }
  split; [eauto|].
  destruct (resolves_lookup _ _ _ Hres) as [o Ho].
  destruct Hr as [_ Hf]. destruct (Hf _ _ Ho) as [(o' & Ho' & _) _].
  rewrite (bind_Ok _ _ _ _ _ Htn).
  destruct (String.eqb_spec (Store.t_name (_task o')) title) as [Heq|Hneq].
  - rewrite (set_name_same _ _ _ _ Ho' Heq).
    exists (Ok tt), w', o'. auto.
  - destruct (set_name_other _ _ _ _ Ho' Hneq) as (r & s & -> & _).
    eexists _, _, _. split; [reflexivity|]. simpl. split.
    + apply list_lookup_insert_eq. eapply lookup_lt_Some; eauto.
    + reflexivity.
Qed.

Lemma tagged_remainder_witness :
  let t := {| _task := {| Store.t_gid := 0; Store.t_name := "Area (AR) > Feature";
                          Store.t_parent := Some 1; Store.t_completed := false;
                          Store.t_custom_fields := [] |};
              __parent := Some 1; __subtasks := None |} in
  let p := {| _task := Store.st_data (Store.new_task 1 "Area (AR)" None);
              __parent := None; __subtasks := None |} in
  let w := {| heap := [t; p];
              remote := {| Store.tasks := []; Store.sections := [] |};
              calls := [] |} in
  let self := {| TaskNameParser.parser := NameParser.new "Area (AR) > Feature";
                 TaskNameParser.task := 0 |} in
  exists w',
    TaskNameParser.tagged_name 1 self w = (Ok "[AR] Feature", w')
    /\ reads_only w w'.
Proof.
  intros t p w self.
  refine (proj1 (tagged_remainder 1 self w ["Area (AR)"] ["AR"] _ _ _ _)).
  - eapply (resolves_cached w 0 t 1 1 p []); try reflexivity.
    eapply resolves_root; reflexivity.
  - discriminate.
  - repeat constructor.
  - simpl. lia.
Defined.


(** ** A task keeps its title while a parent is attached *)

Section HoareRules.
Context {A B : Type}.

Lemma hoare_bind (P : world -> Prop) (m : M world A) (Q : A -> world -> Prop)
  (f : A -> M world B) (R : B -> world -> Prop) :
  hoare P m Q -> (forall x, hoare (Q x) (f x) R) -> hoare P (m ≫= f) R.
Proof.
  intros Hm Hf w y w' HP Hrun. unfold mbind, M_bind in Hrun.
  destruct (m w) as [[x|e] w1] eqn:E; [|discriminate].
  eapply Hf; [|exact Hrun]. eapply Hm; eauto.
Qed.

Lemma hoare_ret (P : world -> Prop) (x : A) (Q : A -> world -> Prop) :
  (forall w, P w -> Q x w) -> hoare P (mret x) Q.
Proof. intros H w y w' HP [= <- <-]. auto. Qed.

Lemma hoare_raise (P : world -> Prop) (e : exn) (Q : A -> world -> Prop) :
  hoare P (raise e) Q.
Proof. intros w y w' _ [=]. Qed.

Lemma hoare_lift (P : world -> Prop) (x : outcome A) (Q : A -> world -> Prop) :
  (forall v w, x = Ok v -> P w -> Q v w) -> hoare P (lift x) Q.
Proof. intros H w y w' HP [= -> <-]. auto. Qed.

Lemma hoare_post (P : world -> Prop) (m : M world A) (Q Q' : A -> world -> Prop) :
  hoare P m Q -> (forall x w, Q x w -> Q' x w) -> hoare P m Q'.
Proof. intros Hm HQ w y w' HP Hrun. eapply HQ, Hm; eauto. Qed.

Lemma hoare_pre (P P' : world -> Prop) (m : M world A) (Q : A -> world -> Prop) :
  hoare P m Q -> (forall w, P' w -> P w) -> hoare P' m Q.
Proof. intros Hm HP w y w' HP' Hrun. eapply Hm; eauto. Qed.

End HoareRules.

(** *** Store requests and titles *)

Lemma same_titles_refl (ts : list Store.stored_task) : same_titles ts ts.
Proof. intros i t H. eauto. Qed.

Lemma same_titles_trans (ts ts' ts'' : list Store.stored_task) :
  same_titles ts ts' -> same_titles ts' ts'' -> same_titles ts ts''.
Proof.
  intros H1 H2 i t Ht. destruct (H1 i t Ht) as (t' & Ht' & Hg & Hn).
  destruct (H2 i t' Ht') as (t'' & Ht'' & Hg' & Hn').
  exists t''. split; [assumption|]. split; congruence.
Qed.

Lemma lookup_map {X Y} (f : X -> Y) (l : list X) (i : nat) :
  map f l !! i = f <$> l !! i.
Proof.
  revert i. induction l as [|x l IH]; intros [|i]; simpl; auto.
Qed.

Lemma same_titles_map (f : Store.stored_task -> Store.stored_task)
  (ts : list Store.stored_task) :
  (forall t, Store.t_gid (Store.st_data (f t)) = Store.t_gid (Store.st_data t)
             /\ Store.t_name (Store.st_data (f t)) = Store.t_name (Store.st_data t)) ->
  same_titles ts (map f ts).
Proof.
  intros Hf i t Ht. exists (f t). rewrite lookup_map, Ht. split; [reflexivity|apply Hf].
Qed.

Lemma same_titles_alter (f : Store.stored_task -> Store.stored_task) (k : nat)
  (ts : list Store.stored_task) :
  (forall t, Store.t_gid (Store.st_data (f t)) = Store.t_gid (Store.st_data t)
             /\ Store.t_name (Store.st_data (f t)) = Store.t_name (Store.st_data t)) ->
  same_titles ts (alter f k ts).
Proof.
  intros Hf i t Ht. destruct (decide (k = i)) as [->|Hne].
  - exists (f t). rewrite list_lookup_alter_eq, Ht. split; [reflexivity|apply Hf].
  - exists t. rewrite list_lookup_alter_ne by assumption. auto.
Qed.

Lemma same_titles_app (ts l : list Store.stored_task) : same_titles ts (ts ++ l).
Proof.
  intros i t Ht. exists t. split; [|auto].
  rewrite lookup_app_l; [assumption|]. eapply lookup_lt_Some; eauto.
Qed.

Lemma stored_title_same (g : Store.gid) (title : string) (s s' : Store.store) :
  same_titles (Store.tasks s) (Store.tasks s') ->
  stored_title g title s -> stored_title g title s'.
Proof.
  intros Hs (t & Ht & Hg & Hn). destruct (Hs g t Ht) as (t' & Ht' & Hg' & Hn').
  exists t'. split; [assumption|]. split; congruence.
Qed.

Lemma set_parent_for_task_titles (x p : Store.gid) (s s' : Store.store) :
  Store.set_parent_for_task x p s = Ok s' ->
  same_titles (Store.tasks s) (Store.tasks s').
Proof.
  unfold Store.set_parent_for_task.
  destruct (Store.tasks s !! x); [|discriminate].
  destruct (Store.tasks s !! p); [|discriminate].
  intros [= <-]. simpl.
  eapply same_titles_trans; [|apply same_titles_alter; intros t; split; reflexivity].
  eapply same_titles_trans; [|apply same_titles_alter; intros t; split; reflexivity].
  apply same_titles_map. intros t; split; reflexivity.
Qed.

Lemma create_subtask_for_task_titles (p : Store.gid) (name : string)
  (s s' : Store.store) (d : Store.task_data) :
  Store.create_subtask_for_task p name s = Ok (d, s') ->
  same_titles (Store.tasks s) (Store.tasks s').
Proof.
  unfold Store.create_subtask_for_task.
  destruct (Store.tasks s !! p); [|discriminate].
  intros [= _ <-]. simpl.
  eapply same_titles_trans; [|apply same_titles_app].
  apply same_titles_alter. intros t; split; reflexivity.
Qed.

Lemma create_task_titles (name : string) (s : Store.store) :
  same_titles (Store.tasks s) (Store.tasks (Store.create_task name s).2).
Proof. simpl. apply same_titles_app. Qed.

Lemma add_task_for_section_titles (sec x : Store.gid) (s s' : Store.store) :
  Store.add_task_for_section sec x s = Ok s' ->
  Store.tasks s' = Store.tasks s.
Proof.
  unfold Store.add_task_for_section.
  destruct (Store.sections s !! sec); [|discriminate].
  destruct (Store.tasks s !! x); [|discriminate].
  now intros [= <-].
Qed.

Section Keeps.
Variable a : addr.
Variable g : Store.gid.
Variable title : string.

Local Abbreviation keeps := (@keeps _ a g title).
Local Abbreviation top := (fun _ => True).

Lemma keeps_bind {A B} (m : M world A) (phi : A -> Prop) (f : A -> M world B)
  (psi : B -> Prop) :
  keeps m phi -> (forall x, phi x -> keeps (f x) psi) -> keeps (m ≫= f) psi.
Proof.
  intros Hm Hf. eapply hoare_bind; [exact Hm|].
  intros x w y w' [HI Hphi]. now apply Hf.
Qed.

Lemma keeps_ret {A} (x : A) (phi : A -> Prop) : phi x -> keeps (mret x) phi.
Proof. intros H. apply hoare_ret. auto. Qed.

Lemma keeps_raise {A} (e : exn) (phi : A -> Prop) : keeps (raise e) phi.
Proof. apply hoare_raise. Qed.

Lemma keeps_lift {A} (x : outcome A) (phi : A -> Prop) :
  (forall v, x = Ok v -> phi v) -> keeps (lift x) phi.
Proof. intros H. apply hoare_lift. auto. Qed.

Lemma keeps_post {A} (m : M world A) (phi psi : A -> Prop) :
  keeps m phi -> (forall x, phi x -> psi x) -> keeps m psi.
Proof. intros Hm H. eapply hoare_post; [exact Hm|]. intros x w [? ?]. auto. Qed.

Lemma keeps_log (c : api_call) : keeps (log c) top.
Proof. intros w x w' HI [= <- <-]. split; [exact HI|exact I]. Qed.

Lemma keeps_deref (self : addr) : keeps (deref self) (good_object a g title self).
Proof.
  intros w o w' HI Hrun. unfold deref in Hrun.
  destruct (heap w !! self) as [o'|] eqn:E; [|discriminate].
  injection Hrun as <- <-. split; [exact HI|].
  intros ->. destruct HI as [(o0 & Ho0 & Hg & Hn) _]. now replace o' with o0 by congruence.
Qed.

Lemma keeps_assign (self : addr) (o : object) :
  good_object a g title self o -> keeps (assign self o) top.
Proof.
  intros Hgood w x w' [(o0 & Ho0 & Hg & Hn) Hs] [= <- <-].
  split; [|exact I]. split; [|exact Hs]. simpl.
  destruct (decide (self = a)) as [->|Hne].
  - exists o. split; [|now apply Hgood].
    apply list_lookup_insert_eq. eapply lookup_lt_Some; eauto.
  - exists o0. rewrite list_lookup_insert_ne by assumption. auto.
Qed.

Lemma keeps_alloc (o : object) : keeps (alloc o) top.
Proof.
  intros w x w' [(o0 & Ho0 & Hg & Hn) Hs] [= <- <-].
  split; [|exact I]. split; [|exact Hs]. simpl.
  exists o0. split; [|auto]. rewrite lookup_app_l; [assumption|].
  eapply lookup_lt_Some; eauto.
Qed.

Lemma keeps_query {A} (c : api_call) (f : Store.store -> outcome A) (phi : A -> Prop) :
  (forall s v, stored_title g title s -> f s = Ok v -> phi v) ->
  keeps (query c f) phi.
Proof.
  intros Hf. unfold query. eapply keeps_bind; [apply keeps_log|].
  intros [] _ w x w' HI [= Hv <-]. split; [exact HI|].
  eapply Hf; [|exact Hv]. apply HI.
Qed.

Lemma keeps_get_task (x : Store.gid) :
  keeps (query (GetTask x) (Store.get_task x)) (good_data g title x).
Proof.
  apply keeps_query. intros s d (t & Ht & Hg & Hn) Hd -> .
  unfold Store.get_task in Hd. rewrite Ht in Hd. injection Hd as <-. auto.
Qed.

Lemma keeps_request (c : api_call) (f : Store.store -> outcome Store.store) :
  (forall s s', f s = Ok s' -> same_titles (Store.tasks s) (Store.tasks s')) ->
  keeps (request c f) top.
Proof.
  intros Hf. unfold request. eapply keeps_bind; [apply keeps_log|].
  intros [] _ w x w' [Ho Hs] Hrun.
  destruct (f (remote w)) as [s'|e] eqn:E; [|discriminate].
  injection Hrun as <- <-. split; [|exact I]. split; [exact Ho|].
  simpl. eapply stored_title_same; [|exact Hs]. now apply Hf.
Qed.

Lemma keeps_request_with {A} (c : api_call)
  (f : Store.store -> outcome (A * Store.store)) :
  (forall s v s', f s = Ok (v, s') -> same_titles (Store.tasks s) (Store.tasks s')) ->
  keeps (request_with c f) top.
Proof.
  intros Hf. unfold request_with. eapply keeps_bind; [apply keeps_log|].
  intros [] _ w x w' [Ho Hs] Hrun.
  destruct (f (remote w)) as [[v s']|e] eqn:E; [|discriminate].
  injection Hrun as <- <-. split; [|exact I]. split; [exact Ho|].
  simpl. eapply stored_title_same; [|exact Hs]. eapply Hf; eauto.
Qed.

Lemma keeps_map_M {A B} (f : A -> M world B) (l : list A) :
  (forall x, keeps (f x) top) -> keeps (map_M f l) top.
Proof.
  intros Hf. induction l as [|x l IH]; simpl.
  - now apply keeps_ret.
  - eapply keeps_bind; [apply Hf|]. intros y _.
    eapply keeps_bind; [apply IH|]. intros ys _. now apply keeps_ret.
Qed.

End Keeps.

Section KeepsMethods.
Variable a : addr.
Variable g : Store.gid.
Variable title : string.

Local Abbreviation keeps := (@keeps _ a g title).
Local Abbreviation top := (fun _ => True).

Local Ltac step lemma :=
  eapply keeps_bind; [first [apply lemma | eapply keeps_post; [apply lemma|auto]]|].

Lemma keeps_new (d : Store.task_data) : keeps (AsanaTask.new d) top.
Proof. apply keeps_alloc. Qed.

Lemma keeps_gid (self : addr) :
  keeps (AsanaTask.gid self) (fun x => self = a -> x = g).
Proof.
  unfold AsanaTask.gid. step keeps_deref. intros o Ho.
  apply keeps_ret. intros E. now apply Ho.
Qed.

Lemma keeps_name (self : addr) :
  keeps (AsanaTask.name self) (fun n => self = a -> n = title).
Proof.
  unfold AsanaTask.name. step keeps_deref. intros o Ho.
  apply keeps_ret. intros E. now apply Ho.
Qed.

Lemma keeps_completed (self : addr) : keeps (AsanaTask.completed self) top.
Proof.
  unfold AsanaTask.completed. step keeps_deref. intros o Ho. now apply keeps_ret.
Qed.

Lemma keeps_parent (self : addr) : keeps (AsanaTask.parent self) top.
Proof.
  unfold AsanaTask.parent. step keeps_deref. intros o Ho.
  destruct (Store.t_parent (_task o)) as [pg|]; [|now apply keeps_ret].
  destruct (__parent o) as [p|]; [now apply keeps_ret|].
  step keeps_get_task. intros d _.
  step keeps_new. intros p _.
  step keeps_assign; [exact Ho|]. intros [] _. now apply keeps_ret.
Qed.

Lemma keeps_subtasks (self : addr) : keeps (AsanaTask.subtasks self) top.
Proof.
  unfold AsanaTask.subtasks. step keeps_deref. intros o Ho.
  destruct (__subtasks o) as [l|]; [now apply keeps_ret|].
  eapply keeps_bind; [apply (keeps_query a g title _ _ top); auto|]. intros ds _.
  eapply keeps_bind; [apply keeps_map_M, keeps_new|]. intros l _.
  step keeps_assign; [exact Ho|]. intros [] _. now apply keeps_ret.
Qed.

Lemma keeps_add_subtask (self : addr) (name : string) :
  keeps (AsanaTask.add_subtask self name) top.
Proof.
  unfold AsanaTask.add_subtask. step keeps_gid. intros x _.
  eapply keeps_bind.
  { apply keeps_request_with. intros s v s'. apply create_subtask_for_task_titles. }
  intros d _. step keeps_new. intros task _.
  step keeps_deref. intros o Ho.
  destruct (__subtasks o) as [l|]; [|apply keeps_raise].
  step keeps_assign; [exact Ho|]. intros [] _. now apply keeps_ret.
Qed.

Lemma keeps_set_parent (self value : addr) :
  keeps (AsanaTask.set_parent self value) top.
Proof.
  unfold AsanaTask.set_parent. step keeps_deref. intros o Ho.
  step keeps_assign; [exact Ho|]. intros [] _.
  eapply keeps_bind; [apply keeps_gid|]. intros x Hx.
  step keeps_gid. intros vg _.
  eapply keeps_bind.
  { apply keeps_request. intros s s'. apply set_parent_for_task_titles. }
  intros [] _.
  eapply keeps_bind; [apply keeps_get_task|]. intros d Hd.
  step keeps_deref. intros o' Ho'.
  apply keeps_assign. intros E. simpl. apply Hd. now apply Hx.
Qed.

Lemma keeps_section_tasks (section : AsanaSection.AsanaSection) :
  keeps (AsanaSection.tasks section) top.
Proof.
  unfold AsanaSection.tasks.
  eapply keeps_bind; [apply (keeps_query a g title _ _ top); auto|]. intros ds _.
  apply keeps_map_M, keeps_new.
Qed.

Lemma keeps_attach_task (section : AsanaSection.AsanaSection) (task : addr) :
  keeps (AsanaSection.attach_task section task) top.
Proof.
  unfold AsanaSection.attach_task. step keeps_gid. intros x _.
  eapply keeps_bind.
  { apply keeps_request. intros s s' H.
    rewrite (add_task_for_section_titles _ _ _ _ H). apply same_titles_refl. }
  intros [] _. now apply keeps_ret.
Qed.

Lemma keeps_add_task (section : AsanaSection.AsanaSection) (name : string) :
  keeps (AsanaSection.add_task section name) top.
Proof.
  unfold AsanaSection.add_task.
  eapply keeps_bind.
  { apply keeps_request_with. intros s v s' [= _ <-]. apply create_task_titles. }
  intros d _. step keeps_new. intros task _. apply keeps_attach_task.
Qed.

Lemma keeps_next_matching (tasks : list addr) (name : string) :
  keeps (BuildHierarchy.next_matching tasks name) top.
Proof.
  induction tasks as [|found rest IH]; simpl; [now apply keeps_ret|].
  step keeps_completed. intros c _.
  destruct c; simpl; [exact IH|].
  step keeps_name. intros n _.
  eapply keeps_bind; [apply (keeps_lift a g title _ top); auto|]. intros b _.
  destruct b; [now apply keeps_ret|exact IH].
Qed.

Lemma keeps_attach_parent (task : addr) (name : string)
  (section : AsanaSection.AsanaSection) :
  keeps (BuildHierarchy._attach_parent task name section) top.
Proof.
  unfold BuildHierarchy._attach_parent. step keeps_parent. intros p _.
  eapply keeps_bind.
  { instantiate (1 := top). destruct p; [apply keeps_subtasks|apply keeps_section_tasks]. }
  intros tasks _. step keeps_next_matching. intros found _.
  eapply keeps_bind.
  { instantiate (1 := top). destruct found as [q|]; [now apply keeps_ret|].
    step keeps_parent. intros p' _.
    destruct p'; [apply keeps_add_subtask|apply keeps_add_task]. }
  intros parent _. apply keeps_set_parent.
Qed.

Lemma keeps_parser_new (task : addr) :
  keeps (TaskNameParser.new task)
        (fun p => TaskNameParser.task p = task
                  /\ (task = a -> raw (TaskNameParser.parser p) = title)).
Proof.
  unfold TaskNameParser.new. eapply keeps_bind; [apply keeps_name|].
  intros n Hn. apply keeps_ret. simpl. auto.
Qed.

Lemma keeps_tags_loop (bound : nat) :
  forall (parent : option addr) (paths : list string),
    keeps (TaskNameParser.tags_loop bound parent paths) top.
Proof.
  induction bound as [|b IH]; intros [p|] paths; simpl;
    try (now apply keeps_ret); try apply keeps_raise.
  step keeps_parser_new. intros tp _.
  eapply keeps_bind; [apply (keeps_lift a g title _ top); auto|]. intros m _.
  step keeps_parent. intros p' _. apply IH.
Qed.

Lemma keeps_tags (bound : nat) (self : TaskNameParser.TaskNameParser) :
  keeps (TaskNameParser.tags bound self) top.
Proof.
  unfold TaskNameParser.tags. step keeps_parent. intros p _.
  step keeps_tags_loop. intros paths _. now apply keeps_ret.
Qed.

(** The tagged name is what is put behind the tags, with or without a
    bracketed prefix before it. *)
Lemma keeps_tagged_name (bound : nat) (self : TaskNameParser.TaskNameParser) :
  keeps (TaskNameParser.tagged_name bound self)
        (fun n => n = TaskNameParser.remainder_or_untagged self
                  \/ exists t, n = ("[" ++ t ++ "] "
                                    ++ TaskNameParser.remainder_or_untagged self)%string).
Proof.
  unfold TaskNameParser.tagged_name. step keeps_tags. intros t _.
  destruct (Str.truthy t).
  - step keeps_tags. intros t' _. apply keeps_ret. eauto.
  - apply keeps_ret. auto.
Qed.

End KeepsMethods.

(** Setting the name replaces the title on both sides. *)
Lemma set_name_titled (a : addr) (g : Store.gid) (title n : string) :
  hoare (titled a g title) (AsanaTask.set_name a n) (fun _ => titled a g n).
Proof.
  intros w x w' [(o & Ho & Hg & Hn) Hs] Hrun.
  destruct (String.eqb_spec (Store.t_name (_task o)) n) as [Heq|Hne].
  - rewrite (set_name_same _ _ _ _ Ho Heq) in Hrun.
    injection Hrun as Hx Hw. subst w'.
    assert (title = n) as <- by congruence. split; eauto.
  - destruct (set_name_other _ _ _ _ Ho Hne) as (r & s & E & Hr).
    rewrite E in Hrun. injection Hrun as Hx Hw. subst r w'.
    rewrite Hg in Hr. unfold Store.update_task in Hr.
    destruct Hs as (t & Ht & Htg & Htn). rewrite Ht in Hr.
    destruct Hr as [_ ->]. split; simpl.
    + eexists. split; [apply list_lookup_insert_eq; eapply lookup_lt_Some; eauto|].
      simpl. auto.
    + exists (Store.with_data (Store.apply_update (Store.SetName n)) t).
      split; [|simpl; auto].
      unfold Store.with_tasks. simpl Store.tasks.
      rewrite list_lookup_alter_eq.
      unfold Store.gid in *. now rewrite Ht.
Qed.

(** ** The hierarchy builder *)

(** A task with a single-segment title is left alone: nothing is sent and
    nothing changes. *)
Lemma build_hierarchy_single_segment (bound fuel : nat) (task : addr) (o : object)
  (section : AsanaSection.AsanaSection) (w : world) :
  heap w !! task = Some o ->
  length (parts (NameParser.new (Store.t_name (_task o)))) = 1 ->
  BuildHierarchy.__build_hierarchy bound (S fuel) task section w = (Ok tt, w).
Proof.
  intros Ho Hlen. simpl.
  rewrite (bind_Ok _ _ _ _ _ (new_run _ _ _ Ho)). simpl.
  now rewrite Hlen.
Qed.

(** A title that ends with the separator ends with it again after every
    rewrite, so the recursion never reaches its base case. *)
Lemma build_hierarchy_trailing (bound : nat) (section : AsanaSection.AsanaSection)
  (a : addr) (g : Store.gid) (fuel : nat) :
  forall title,
    trailing_separator title ->
    hoare (titled a g title)
          (BuildHierarchy.__build_hierarchy bound fuel a section)
          (fun _ _ => False).
Proof.
  induction fuel as [|fuel IH]; intros title Htitle; simpl.
  - apply hoare_raise.
  - eapply hoare_bind; [apply keeps_parser_new|].
    intros [[r] t]. simpl. intros w x w' [HI [Ht Hr]] Hrun.
    subst t. rewrite (Hr eq_refl) in Hrun.
    rewrite (trailing_not_single title Htitle) in Hrun.
    revert w x w' HI Hrun. change (hoare (titled a g title)
      (BuildHierarchy._attach_parent a (first (NameParser.new title)) section ;;
       n ← TaskNameParser.tagged_name bound
             {| TaskNameParser.parser := NameParser.new title;
                TaskNameParser.task := a |};
       AsanaTask.set_name a n ;;
       BuildHierarchy.__build_hierarchy bound fuel a section) (fun _ _ => False)).
    eapply hoare_bind; [apply keeps_attach_parent|].
    intros []. eapply hoare_pre; [|intros w [H _]; exact H].
    eapply hoare_bind; [apply keeps_tagged_name|].
    intros n. simpl. intros w x w' [HI Hn] Hrun.
    assert (trailing_separator n) as Hn'.
    { destruct (remainder_or_untagged_trailing title Htitle) as [He Hb].
      destruct Hn as [->|[t ->]];
        [now apply trailing_plain|now apply trailing_tagged]. }
    revert w x w' HI Hrun.
    change (hoare (titled a g title)
              (AsanaTask.set_name a n ;;
               BuildHierarchy.__build_hierarchy bound fuel a section)
              (fun _ _ => False)).
    eapply hoare_bind; [apply set_name_titled|].
    intros []. now apply IH.
Qed.

Lemma execute_stories (bound fuel : nat) (title : string) :
  BuildHierarchy._execute bound fuel Scenario.build_stories
    (Scenario.empty_world (Scenario.stories title))
  = (((BuildHierarchy.__build_hierarchy bound fuel 0 Scenario.stories_section
         ≫= fun _ => mret tt) ≫= fun _ => mret tt) ≫= fun _ => mret tt)
      (Scenario.stories_loaded title).
Proof. reflexivity. Qed.

(** C1 fails on a title that ends with the separator.  For the section
    whose only task is titled ["A >"], whatever the recursion depth
    allowed, the run never returns normally: every pass makes one more
    parent ["A"], moves the task below it and gives it a title that has
    two segments again.  With room for three passes the first run makes
    three parents and ends in a [RecursionError]; a second run makes three
    more, so that two runs do not leave what one run leaves. *)
Theorem trailing_separator_never_settles (bound fuel : nat) :
  (BuildHierarchy._execute bound fuel Scenario.build_stories
     (Scenario.empty_world (Scenario.stories "A >"))).1 <> Ok tt
  /\ (let once := BuildHierarchy._execute 9 3 Scenario.build_stories
                    (Scenario.empty_world (Scenario.stories "A >")) in
      let twice := Scenario.rerun 9 3 once in
      once.1 = Raise RecursionError
      /\ twice.1 = Raise RecursionError
      /\ obind (Store.get_task 0 (remote once.2)) (fun d => Ok (Store.t_name d))
         = Ok "[A A A] A >"
      /\ length (parts (NameParser.new "[A A A] A >")) = 2
      /\ length (Store.tasks (remote once.2)) = 4
      /\ length (Store.tasks (remote twice.2)) = 7
      /\ obind (Store.get_task 0 (remote twice.2)) (fun d => Ok (Store.t_name d))
         = Ok "[A A A A A A] A >").
Proof.
  split.
  - rewrite execute_stories. intros Hrun.
    unfold mbind, M_bind in Hrun.
    destruct (BuildHierarchy.__build_hierarchy bound fuel 0 Scenario.stories_section
                (Scenario.stories_loaded "A >")) as [[[]|e] w1] eqn:E1;
      [|discriminate].
    eapply (build_hierarchy_trailing bound Scenario.stories_section 0 0 fuel "A >");
      [| |exact E1].
    + now exists "A ".
    + split.
      * eexists. split; [reflexivity|]. split; reflexivity.
      * eexists. split; [reflexivity|]. split; reflexivity.
  - vm_compute. repeat split.
Qed.

(** C8 fails when the remainder is empty.  For the only task of a
    section, titled ["Area (AR) >"] and without a parent: the title has the
    parts ["Area (AR)"] and [""], so the first pass of [__build_hierarchy]
    goes on to step 7 with an empty remainder.  After the reparenting of
    that pass [tagged_name] is ["[AR] Area (AR) >"], the tags followed by
    the whole untagged title, and the setter stores it; the claim asks for
    the plain name ["Area"] after the tags.  The title the claim asks for
    has a single segment, the one the code writes has two again: whatever
    the recursion depth, the pass goes on from the renamed task, and the
    run never returns normally. *)
Theorem empty_remainder_takes_untagged (bound fuel : nat) :
  let title := "Area (AR) >" in
  let p := NameParser.new title in
  let self := {| TaskNameParser.parser := p; TaskNameParser.task := 0 |} in
  let w0 := Scenario.stories_loaded title in
  let attached := BuildHierarchy._attach_parent 0 (first p) Scenario.stories_section w0 in
  let tagged := TaskNameParser.tagged_name (S bound) self attached.2 in
  let renamed := AsanaTask.set_name 0 "[AR] Area (AR) >" tagged.2 in
  parts p = ["Area (AR)"; ""]
  /\ remainder p = ""
  /\ name p = Ok "Area"
  /\ untagged p = "Area (AR) >"
  /\ attached.1 = Ok tt
  /\ tagged.1 = Ok "[AR] Area (AR) >"
  /\ renamed.1 = Ok tt
  /\ obind (Store.get_task 0 (remote renamed.2)) (fun d => Ok (Store.t_name d))
     = Ok "[AR] Area (AR) >"
  /\ "[AR] Area (AR) >" <> "[AR] Area"
  /\ length (parts (NameParser.new "[AR] Area (AR) >")) = 2
  /\ length (parts (NameParser.new "[AR] Area")) = 1
  /\ BuildHierarchy.__build_hierarchy (S bound) (S fuel) 0 Scenario.stories_section w0
     = BuildHierarchy.__build_hierarchy (S bound) fuel 0 Scenario.stories_section
         renamed.2
  /\ (BuildHierarchy._execute (S bound) fuel Scenario.build_stories
        (Scenario.empty_world (Scenario.stories title))).1 <> Ok tt.
Proof.
  intros title p self w0 attached tagged renamed.
  assert (tagged = (Ok "[AR] Area (AR) >", attached.2)) as Htagged
    by (subst tagged; destruct bound as [|bound]; vm_compute; reflexivity).
  assert (attached = (Ok tt, attached.2)) as Hattached by (vm_compute; reflexivity).
  assert (renamed = (Ok tt, renamed.2)) as Hrenamed
    by (subst renamed; rewrite Htagged; vm_compute; reflexivity).
  split; [reflexivity|]. split; [reflexivity|]. split; [reflexivity|].
  split; [reflexivity|]. split; [now rewrite Hattached|].
  split; [now rewrite Htagged|]. split; [now rewrite Hrenamed|].
  split; [subst renamed; rewrite Htagged; vm_compute; reflexivity|].
  split; [discriminate|]. split; [reflexivity|]. split; [reflexivity|].
  split.
  - change (BuildHierarchy.__build_hierarchy (S bound) (S fuel) 0
              Scenario.stories_section w0)
      with ((parser ← TaskNameParser.new 0;
             if Nat.eqb (length (parts (TaskNameParser.parser parser))) 1 then mret tt
             else
               BuildHierarchy._attach_parent 0 (first (TaskNameParser.parser parser))
                 Scenario.stories_section ;;
               n ← TaskNameParser.tagged_name (S bound) parser;
               AsanaTask.set_name 0 n ;;
               BuildHierarchy.__build_hierarchy (S bound) fuel 0
                 Scenario.stories_section) w0).
    rewrite (bind_Ok _ _ w0 w0 self) by reflexivity.
    change (Nat.eqb (length (parts (TaskNameParser.parser self))) 1) with false.
    cbv iota. change (first (TaskNameParser.parser self)) with (first p).
    rewrite (bind_Ok _ _ _ _ _ Hattached).
    rewrite (bind_Ok _ _ _ _ _ Htagged).
    assert (AsanaTask.set_name 0 "[AR] Area (AR) >" attached.2 = (Ok tt, renamed.2))
      as Hset by (subst renamed; rewrite Htagged; vm_compute; reflexivity).
    cbv beta. rewrite (bind_Ok _ _ _ _ _ Hset). reflexivity.
  - rewrite execute_stories. intros Hrun.
    unfold mbind, M_bind in Hrun.
    destruct (BuildHierarchy.__build_hierarchy (S bound) fuel 0 Scenario.stories_section
                (Scenario.stories_loaded title)) as [[[]|e] w1] eqn:E1;
      [|discriminate].
    eapply (build_hierarchy_trailing (S bound) Scenario.stories_section 0 0 fuel title);
      [| |exact E1].
    + now exists "Area (AR) ".
    + split.
      * eexists. split; [reflexivity|]. split; reflexivity.
      * eexists. split; [reflexivity|]. split; reflexivity.
Qed.

(** ** The commandlets on the example stores *)

Import Scenario.

(** C2. A section whose only task is titled
    ["Area (AR) > Feature > Do the thing"] and has no parent: after the
    build-hierarchy run, which calls [__build_hierarchy] on that task, a
    task titled ["Area (AR)"] is directly in the section and has no
    parent, a task titled ["Feature"] is its only child, and the original
    task is titled ["[AR Feature] Do the thing"] and is the child of
    ["Feature"]. *)
Theorem end_to_end_scenario (bound fuel : nat) :
  2 <= bound -> 3 <= fuel ->
  let run := BuildHierarchy._execute bound fuel build_stories
               (empty_world (stories "Area (AR) > Feature > Do the thing")) in
  let s := remote run.2 in
  run.1 = Ok tt
  /\ (exists area feature,
        Store.get_tasks_for_section 0 s = Ok area
        /\ In {| Store.t_gid := 1; Store.t_name := "Area (AR)";
                 Store.t_parent := None; Store.t_completed := false;
                 Store.t_custom_fields := [] |} area
        /\ Store.get_subtasks_for_task 1 s = Ok [feature]
        /\ Store.t_gid feature = 2
        /\ Store.t_name feature = "Feature"
        /\ Store.get_subtasks_for_task 2 s
           = Ok [{| Store.t_gid := 0; Store.t_name := "[AR Feature] Do the thing";
                    Store.t_parent := Some 2; Store.t_completed := false;
                    Store.t_custom_fields := [] |}]).
Proof.
  intros Hb Hf.
  destruct fuel as [|[|[|fuel]]]; [lia..|].
  destruct bound as [|[|[|bound]]]; [lia..| |];
    (vm_compute; split; [reflexivity|];
     eexists _, _; repeat split; right; left; reflexivity).
Qed.

Lemma end_to_end_scenario_witness :
  (BuildHierarchy._execute 2 3 build_stories
     (empty_world (stories "Area (AR) > Feature > Do the thing"))).1 = Ok tt.
Proof.
  apply (end_to_end_scenario 2 3); lia.
Defined.

(** C6. [P] with the children [A] (5 hours, open) and [B] (3 hours,
    done): the rollup stores (8, 3, 5) on [P], (5, 0, 5) on [A] and
    (3, 3, 0) on [B] as estimate, completed and remaining hours; and with
    eight hours a day the 20 hours of [Q] and of its child [C] make 2.5
    estimate days. *)
Theorem rollup_numbers :
  let run := UpdateEstimatesForTask._execute settings 10 "Epics" None
               (empty_world epics) in
  let s := remote run.2 in
  run.1 = Ok tt
  /\ take 3 (stored_fields 0 s) = [Store.VNum 8; Store.VNum 3; Store.VNum 5]
  /\ take 3 (stored_fields 1 s) = [Store.VNum 5; Store.VNum 0; Store.VNum 5]
  /\ take 3 (stored_fields 2 s) = [Store.VNum 3; Store.VNum 3; Store.VNum 0]
  /\ stored_fields 3 s !! 0 = Some (Store.VNum 20)
  /\ stored_fields 3 s !! 3 = Some (Store.VNum (5 # 2))
  /\ stored_fields 4 s !! 3 = Some (Store.VNum (5 # 2))
  /\ UpdateEstimatesForTask.round_div (Store.VNum 20) 8 = Ok (Store.VNum (5 # 2)).
Proof. vm_compute. repeat split. Qed.

(** C5 fails on a root without children: the initializer alone leaves the
    estimate of 5 hours and stores 0 completed and 5 remaining hours, but
    the rollup then finalizes the root with the zero triple and stores 0 in
    all five fields, the estimate included. *)
Theorem rollup_zeroes_childless_root :
  let loaded := (section ← AsanaProject.get_section "Epics";
                 match section with
                 | Some section => AsanaSection.tasks section
                 | None => mret []
                 end) (empty_world lone_epic) in
  let initialized := UpdateEstimatesForTask.__initialize_task settings 0 loaded.2 in
  let run := UpdateEstimatesForTask._execute settings 10 "Epics" None
               (empty_world lone_epic) in
  loaded.1 = Ok [0]
  /\ Store.get_subtasks_for_task 0 lone_epic = Ok []
  /\ initialized.1 = Ok tt
  /\ stored_fields 0 (remote initialized.2)
     = [Store.VNum 5; Store.VNum 0; Store.VNum 5; Store.VNum (3 # 5); Store.VNum (3 # 5)]
  /\ run.1 = Ok tt
  /\ stored_fields 0 (remote run.2)
     = [Store.VNum 0; Store.VNum 0; Store.VNum 0; Store.VNum 0; Store.VNum 0]
  /\ cached_fields 0 run.2
     = [Store.VNum 0; Store.VNum 0; Store.VNum 0; Store.VNum 0; Store.VNum 0].
Proof. vm_compute. repeat split. Qed.

(** ** More about the name parser *)

#[local] Arguments String.append !s1 s2 : simpl nomatch.

Lemma lstrip_fixed (c : ascii) (r : string) :
  Str.is_space c = false -> Str.lstrip (String c r) = String c r.
Proof. intros H. simpl. now rewrite H. Qed.

Lemma rstrip_idempotent (s : string) : Str.rstrip (Str.rstrip s) = Str.rstrip s.
Proof.
  induction s as [|c s IH]; [reflexivity|].
  cbn [Str.rstrip]. destruct (Str.rstrip s) as [|c' r'] eqn:E.
  - destruct (Str.is_space c) eqn:Hc; [reflexivity|].
    cbn [Str.rstrip]. now rewrite Hc.
  - remember (String c' r') as r1 eqn:Er. cbn [Str.rstrip]. rewrite IH.
    subst r1. reflexivity.
Qed.

Lemma strip_idempotent (s : string) : Str.strip (Str.strip s) = Str.strip s.
Proof.
  destruct (Str.strip s) as [|c r] eqn:E; [reflexivity|].
  pose proof (strip_head _ _ _ E) as Hc.
  unfold Str.strip at 1. rewrite (lstrip_fixed c r Hc).
  rewrite <- E. unfold Str.strip. apply rstrip_idempotent.
Qed.

Lemma split_no_separator (sep : ascii) (s : string) :
  Forall (fun x => Str.all_chars (fun c => negb (Ascii.eqb c sep)) x = true)
         (Str.split sep s).
Proof.
  induction s as [|c s IH]; simpl; [repeat constructor|].
  destruct (Ascii.eqb c sep) eqn:E; [now constructor|].
  destruct (Str.split sep s) as [|h t].
  - repeat constructor. simpl. now rewrite E.
  - inversion IH; subst. constructor; [|assumption]. simpl. now rewrite E.
Qed.

Lemma split_whole (sep : ascii) (s : string) :
  Str.all_chars (fun c => negb (Ascii.eqb c sep)) s = true ->
  Str.split sep s = [s].
Proof.
  induction s as [|c s IH]; simpl; [reflexivity|].
  intros H. apply andb_true_iff in H as [Hc Hs].
  apply negb_true_iff in Hc. rewrite Hc. now rewrite IH.
Qed.

Lemma parts_nonempty (self : NameParser) : parts self <> [].
Proof.
  unfold parts. destruct (Str.split ">" (untagged self)) eqn:E; [|discriminate].
  now apply split_nonempty in E.
Qed.

Lemma parts_shape (self : NameParser) :
  Forall (fun p => stripped p /\ no_separator p /\ no_bracket p) (parts self).
Proof.
  unfold parts. apply Forall_map.
  pose proof (split_no_separator ">" (untagged self)) as Hsep.
  pose proof (all_chars_split _ ">" _ (untagged_no_bracket self)) as Hbr.
  induction Hsep as [|x l Hx Hl IH]; [constructor|].
  inversion Hbr; subst. constructor; [|auto].
  split; [apply strip_idempotent|].
  split; now apply all_chars_strip.
Qed.

Lemma first_in_parts (self : NameParser) :
  exists rest, parts self = first self :: rest.
Proof.
  unfold first. destruct (parts self) as [|p rest] eqn:E; [|eauto].
  now apply parts_nonempty in E.
Qed.

Lemma first_shape (self : NameParser) :
  stripped (first self) /\ no_separator (first self) /\ no_bracket (first self).
Proof.
  destruct (first_in_parts self) as [rest E].
  pose proof (parts_shape self) as H. rewrite E in H. now inversion H.
Qed.

(** A title that is one clean segment is its own untagged form and its
    own only part. *)
Lemma segment_parts (f : string) :
  stripped f -> no_separator f -> no_bracket f ->
  untagged (NameParser.new f) = f /\ parts (NameParser.new f) = [f].
Proof.
  intros Hs Hsep Hb.
  assert (untagged (NameParser.new f) = f) as Hu.
  { unfold untagged, clean_sub. simpl raw.
    now rewrite (clean_from_no_bracket_in f Hb). }
  split; [exact Hu|]. unfold parts. rewrite Hu.
  rewrite (split_whole ">" f Hsep). simpl. now rewrite Hs.
Qed.

Lemma accessors_of_untagged (p q : NameParser) :
  untagged p = untagged q ->
  parts p = parts q /\ first p = first q /\ remainder p = remainder q
  /\ name p = name q /\ abbreviation p = abbreviation q
  /\ mnemonic p = mnemonic q
  /\ (forall c, matches p c = matches q c).
Proof.
  intros H.
  assert (parts p = parts q) as Hp by (unfold parts; now rewrite H).
  assert (first p = first q) as Hf by (unfold first; now rewrite Hp).
  assert (name p = name q) as Hn by (unfold name; now rewrite Hf).
  assert (abbreviation p = abbreviation q) as Ha
    by (unfold abbreviation; now rewrite Hf).
  assert (mnemonic p = mnemonic q) as Hm by (unfold mnemonic; now rewrite Ha, Hn).
  repeat split; try assumption.
  - unfold remainder. now rewrite Hp.
  - intros c. unfold matches. now rewrite Hp, Hm, Hn.
Qed.

(** X1. The parts of a title are never an empty list, the first segment
    is the first of them, and each part is stripped of white space and
    contains neither the separator nor an opening bracket. *)
Theorem parts_are_clean_segments (self : NameParser) :
  (exists rest, parts self = first self :: rest)
  /\ 1 <= length (parts self)
  /\ Forall (fun p => stripped p /\ no_separator p /\ no_bracket p) (parts self).
Proof.
  destruct (first_in_parts self) as [rest E].
  split; [eauto|]. split; [rewrite E; simpl; lia|]. apply parts_shape.
Qed.

(** X2. Removing the tags is idempotent: the untagged title has no
    opening bracket and no white space around it, untagging it again gives
    it back, and it has the parts, the mnemonic and the matches of the
    title it came from. *)
Theorem untagged_is_idempotent (self : NameParser) :
  let u := NameParser.new (untagged self) in
  no_bracket (untagged self)
  /\ stripped (untagged self)
  /\ untagged u = untagged self
  /\ parts u = parts self
  /\ mnemonic u = mnemonic self
  /\ (forall c, matches u c = matches self c).
Proof.
  intros u.
  assert (untagged u = untagged self) as H.
  { unfold u, untagged at 1, clean_sub. simpl raw.
    rewrite (clean_from_no_bracket_in _ (untagged_no_bracket self)).
    apply strip_idempotent. }
  split; [apply untagged_no_bracket|].
  split; [apply strip_idempotent|].
  split; [exact H|].
  destruct (accessors_of_untagged u self H) as (Hp & _ & _ & _ & _ & Hm & Hc).
  auto.
Qed.

(** X3. A mnemonic is never the empty string. *)
Theorem mnemonic_never_empty (self : NameParser) (m : string) :
  mnemonic self = Ok m -> m <> "".
Proof.
  intros H ->. apply mnemonic_truthy in H. discriminate.
Qed.

Lemma mnemonic_never_empty_witness : "AB" <> "".
Proof.
  apply (mnemonic_never_empty (NameParser.new "[T] Name ( AB ) > Child") "AB").
  reflexivity.
Defined.

Lemma clean_tag (tag t : string) :
  no_closing_bracket tag ->
  clean_from InTag (tag ++ "]" ++ t) = clean_from Closing t.
Proof.
  unfold no_closing_bracket. induction tag as [|c tag IH]; simpl.
  - reflexivity.
  - intros H. apply andb_true_iff in H as [Hc Ht].
    apply negb_true_iff in Hc. rewrite Hc. now apply IH.
Qed.

Lemma clean_closing (t : string) :
  (forall r, t <> String "]" r) -> clean_from Closing t = clean_from Copy t.
Proof.
  intros H. destruct t as [|c t]; [reflexivity|]. simpl.
  destruct (Ascii.eqb_spec c "]") as [->|Hc]; [now specialize (H t)|reflexivity].
Qed.

(** X4. A leading tag is cosmetic: a bracketed annotation (without a
    closing bracket inside) in front of a title that does not itself begin
    with a closing bracket changes neither the untagged title nor its
    parts, name, abbreviation, mnemonic and matches. *)
Theorem leading_tag_is_cosmetic (tag t : string) :
  no_closing_bracket tag ->
  (forall r, t <> String "]" r) ->
  let tagged := NameParser.new ("[" ++ tag ++ "]" ++ t) in
  let plain := NameParser.new t in
  untagged tagged = untagged plain
  /\ parts tagged = parts plain
  /\ first tagged = first plain
  /\ remainder tagged = remainder plain
  /\ name tagged = name plain
  /\ abbreviation tagged = abbreviation plain
  /\ mnemonic tagged = mnemonic plain
  /\ (forall c, matches tagged c = matches plain c).
Proof.
  intros Htag Ht tagged plain.
  assert (untagged tagged = untagged plain) as H.
  { unfold tagged, plain, untagged, clean_sub. simpl raw.
    change (clean_from Copy (String "[" (tag ++ String "]" t)))
      with (clean_from InTag (tag ++ "]" ++ t)).
    now rewrite (clean_tag tag t Htag), (clean_closing t Ht). }
  split; [exact H|]. now apply accessors_of_untagged.
Qed.

Lemma leading_tag_is_cosmetic_witness :
  untagged (NameParser.new "[AR Feature] Do the thing")
  = untagged (NameParser.new " Do the thing").
Proof.
  refine (proj1 (leading_tag_is_cosmetic "AR Feature" " Do the thing" _ _)).
  - reflexivity.
  - discriminate.
Defined.

(** X5. The task that is created for a segment is found by that segment:
    when the first segment [f] of a title parses, a task titled [f] has
    [f] as its only part and matches [f]. *)
Theorem created_parent_matches_segment (self : NameParser) :
  returns (name self) ->
  let f := first self in
  parts (NameParser.new f) = [f]
  /\ first (NameParser.new f) = f
  /\ matches (NameParser.new f) f = Ok true.
Proof.
  intros [n Hn] f.
  destruct (first_shape self) as (Hs & Hsep & Hb).
  destruct (segment_parts f Hs Hsep Hb) as [Hu Hp].
  assert (first (NameParser.new f) = f) as Hf by (unfold first; now rewrite Hp).
  split; [exact Hp|]. split; [exact Hf|].
  unfold name in Hn. fold f in Hn.
  destruct (name_regex_match f) as [m|] eqn:E; [|discriminate].
  rewrite (matches_unfold _ _ _ E). cbv zeta. rewrite Hp. simpl Nat.eqb. cbv iota.
  assert (name (NameParser.new f) = Ok (Str.strip (group_name m))) as Hname
    by (unfold name; rewrite Hf, E; reflexivity).
  destruct (mnemonic_of_name_returns (NameParser.new f)) as [mn Hm];
    [eexists; exact Hname|].
  rewrite Hm, Hname. simpl.
  destruct (String.eqb _ mn); [reflexivity|]. now rewrite String.eqb_refl.
Qed.

Lemma created_parent_matches_segment_witness :
  matches (NameParser.new "Area ( AR )") "Area ( AR )" = Ok true.
Proof.
  refine (proj2 (proj2 (created_parent_matches_segment
                          (NameParser.new "[x] Area ( AR ) > Feature") _))).
  eexists. reflexivity.
Defined.

(** ** The task id of a URL *)

#[local] Arguments String.append !s1 s2 : simpl nomatch.

Lemma split_app_separator (sep : ascii) (a b : string) :
  Str.split sep (a ++ String sep b) = Str.split sep a ++ Str.split sep b.
Proof.
  induction a as [|c a IH]; simpl.
  - now rewrite Ascii.eqb_refl.
  - destruct (Ascii.eqb c sep); [now rewrite IH|].
    rewrite IH. destruct (Str.split sep a) as [|h t] eqn:E; [|reflexivity].
    now apply split_nonempty in E.
Qed.

Lemma split_length_one (sep : ascii) (s : string) :
  length (Str.split sep s) = 1 ->
  Str.all_chars (fun c => negb (Ascii.eqb c sep)) s = true.
Proof.
  induction s as [|c s IH]; simpl; [reflexivity|].
  destruct (Ascii.eqb c sep) eqn:E.
  - simpl. intros H. injection H as H.
    destruct (Str.split sep s) eqn:E'; [now apply split_nonempty in E'|discriminate].
  - destruct (Str.split sep s) as [|h t] eqn:E'; [now apply split_nonempty in E'|].
    simpl in *. intros H. now rewrite IH.
Qed.

(** X6. The task id of a URL is its last but one component: for a URL
    [base/id/last] in which [id] and [last] have no slash, it is [id]. *)
Theorem task_id_is_last_but_one (base id last : string) :
  no_slash id -> no_slash last ->
  task_id (base ++ "/" ++ id ++ "/" ++ last) = Some id.
Proof.
  intros Hid Hlast. unfold task_id.
  change (base ++ "/" ++ id ++ "/" ++ last)%string
    with (base ++ String "/" (id ++ String "/" last))%string.
  rewrite !split_app_separator.
  rewrite (split_whole "/" id Hid), (split_whole "/" last Hlast).
  rewrite !length_app. simpl length.
  replace (length (Str.split "/" base) + (1 + 1) - 2)
    with (length (Str.split "/" base)) by lia.
  destruct (Nat.leb_spec 2 (length (Str.split "/" base) + (1 + 1))); [|lia].
  rewrite lookup_app_r by lia. now rewrite Nat.sub_diag.
Qed.

Lemma task_id_is_last_but_one_witness :
  task_id "https://app.asana.com/0/1200/1234567/f" = Some "1234567".
Proof.
  apply (task_id_is_last_but_one "https://app.asana.com/0/1200" "1234567" "f");
    reflexivity.
Defined.

(** X7. The index fails exactly on a URL without a slash: with at least
    one slash the task id exists (it may be empty, as for ["/x"]). *)
Theorem task_id_fails_without_slash (url : string) :
  task_id url = None <-> no_slash url.
Proof.
  unfold task_id, no_slash. split.
  - destruct (Nat.leb_spec 2 (length (Str.split "/" url))) as [Hl|Hl].
    + intros H. apply lookup_ge_None in H. lia.
    + intros _. apply split_length_one.
      destruct (Str.split "/" url) as [|h [|h' t]] eqn:E;
        [now apply split_nonempty in E|reflexivity|simpl in Hl; lia].
  - intros H. now rewrite (split_whole "/" url H).
Qed.

(** ** Reading and writing custom fields *)

Lemma field_run (self : addr) (o : object) (w : world) (field_name : string) :
  heap w !! self = Some o ->
  AsanaTask._field self field_name w
  = (Ok (find_field field_name (fields_of o)), w).
Proof.
  intros Ho. unfold AsanaTask._field.
  now rewrite (bind_Ok _ _ _ _ _ (deref_Some _ _ _ Ho)).
Qed.

Lemma field_value_run (self : addr) (o : object) (w : world) (field_name : string) :
  heap w !! self = Some o ->
  AsanaTask.field_value self field_name w
  = (Ok (field_view (fields_of o) field_name), w).
Proof.
  intros Ho. unfold AsanaTask.field_value, field_view.
  rewrite (bind_Ok _ _ _ _ _ (field_run _ _ _ _ Ho)).
  destruct (find_field field_name (fields_of o)) as [f|]; [|reflexivity].
  destruct (AsanaTask.raw_field_value f); reflexivity.
Qed.

Lemma set_field_value_name (v : Store.value) (f : Store.custom_field) :
  Store.field_name (Store.set_field_value v f) = Store.field_name f
  /\ Store.field_gid (Store.set_field_value v f) = Store.field_gid f
  /\ AsanaTask.raw_field_value (Store.set_field_value v f) = v.
Proof.
  unfold Store.set_field_value, AsanaTask.raw_field_value.
  destruct (String.eqb (Store.field_type f) "multi_enum") eqn:E; simpl;
    rewrite E; auto.
Qed.

Lemma find_put_same (field_name : string) (v : Store.value)
  (fs : list Store.custom_field) (f : Store.custom_field) :
  find_field field_name fs = Some f ->
  find_field field_name (put_field field_name v fs)
  = Some (Store.set_field_value v f).
Proof.
  unfold find_field. induction fs as [|f0 fs IH]; simpl; [discriminate|].
  destruct (String.eqb (Store.field_name f0) field_name) eqn:E.
  - intros [= ->]. simpl.
    destruct (set_field_value_name v f) as (-> & _ & _). now rewrite E.
  - intros H. simpl. rewrite E. now apply IH.
Qed.

Lemma find_put_other (field_name other : string) (v : Store.value)
  (fs : list Store.custom_field) :
  other <> field_name ->
  find_field other (put_field field_name v fs) = find_field other fs.
Proof.
  intros Hne. unfold find_field. induction fs as [|f0 fs IH]; simpl; [reflexivity|].
  destruct (String.eqb_spec (Store.field_name f0) field_name) as [E|E].
  - simpl. destruct (set_field_value_name v f0) as (-> & _ & _).
    destruct (String.eqb_spec (Store.field_name f0) other) as [E'|E'];
      [congruence|reflexivity].
  - simpl. now rewrite IH.
Qed.

Lemma value_eqb_refl (v : Store.value) : Store.value_eqb v v = true.
Proof.
  destruct v as [|q|b| |]; simpl; try apply String.eqb_refl; try reflexivity.
  - apply Qeq_bool_iff. reflexivity.
  - destruct b; reflexivity.
Qed.

(** The world after [update_field] has written [v] into the field [f]
    of the object [o]. *)
Lemma update_field_run (self : addr) (o : object) (w : world)
  (field_name : string) (v : Store.value) :
  heap w !! self = Some o ->
  AsanaTask.update_field self field_name v w
  = if Store.value_eqb (field_view (fields_of o) field_name) v then (Ok tt, w)
    else match find_field field_name (fields_of o) with
         | None => (Ok tt, w)
         | Some f =>
             let call := UpdateTask (Store.t_gid (_task o))
                                    (Store.SetCustomField (Store.field_gid f) v) in
             let h := <[self := AsanaTask.with_task
                                  (Store.set_custom_fields
                                     (put_field field_name v (fields_of o))) o]>
                        (heap w) in
             match Store.update_task (Store.t_gid (_task o))
                     (Store.SetCustomField (Store.field_gid f) v) (remote w) with
             | Ok s => (Ok tt, {| heap := h; remote := s; calls := calls w ++ [call] |})
             | Raise e =>
                 (Raise e, {| heap := h; remote := remote w; calls := calls w ++ [call] |})
             end
         end.
Proof.
  intros Ho. unfold AsanaTask.update_field.
  rewrite (bind_Ok _ _ _ _ _ (field_value_run _ _ _ _ Ho)).
  destruct (Store.value_eqb _ v); [reflexivity|]. cbn [negb].
  rewrite (bind_Ok _ _ _ _ _ (field_run _ _ _ _ Ho)).
  destruct (find_field field_name (fields_of o)) as [f|] eqn:Ef; [|reflexivity].
  rewrite (bind_Ok _ _ _ _ _ (deref_Some _ _ _ Ho)).
  unfold assign at 1, mbind at 1, M_bind at 1.
  set (h := with_heap _ w).
  assert (heap h !! self
          = Some (AsanaTask.with_task
                    (Store.set_custom_fields (put_field field_name v (fields_of o))) o))
    as Hh.
  { unfold h. simpl. apply list_lookup_insert_eq. eapply lookup_lt_Some; eauto. }
  rewrite (bind_Ok _ _ _ _ _ (field_run _ _ _ _ Hh)).
  unfold fields_of at 1. simpl.
  fold (fields_of o). rewrite (find_put_same _ _ _ _ Ef).
  destruct (set_field_value_name v f) as (_ & -> & _).
  unfold request, log, mbind, M_bind, with_remote. simpl.
  destruct (Store.update_task _ _ (remote w)); reflexivity.
Qed.

Lemma view_put_same (field_name : string) (v : Store.value)
  (fs : list Store.custom_field) (f : Store.custom_field) :
  find_field field_name fs = Some f ->
  (forall n, v <> Store.VDict n) ->
  field_view (put_field field_name v fs) field_name = v.
Proof.
  intros Hf Hv. unfold field_view. rewrite (find_put_same _ _ _ _ Hf).
  destruct (set_field_value_name v f) as (_ & _ & ->).
  destruct v; try reflexivity. now specialize (Hv name0).
Qed.

Lemma view_put_other (field_name other : string) (v : Store.value)
  (fs : list Store.custom_field) :
  other <> field_name ->
  field_view (put_field field_name v fs) other = field_view fs other.
Proof. intros H. unfold field_view. now rewrite find_put_other. Qed.

(** The object at [self] after [update_field]: either nothing has
    changed, or its fields are those of [put_field] and one request was
    sent. *)
Lemma update_field_object (self : addr) (o : object) (w : world)
  (field_name : string) (v : Store.value) :
  heap w !! self = Some o ->
  let w' := (AsanaTask.update_field self field_name v w).2 in
  (w' = w
   /\ (find_field field_name (fields_of o) = None
       \/ Store.value_eqb (field_view (fields_of o) field_name) v = true))
  \/ (exists f,
        find_field field_name (fields_of o) = Some f
        /\ Store.value_eqb (field_view (fields_of o) field_name) v = false
        /\ heap w' = <[self := AsanaTask.with_task
                                 (Store.set_custom_fields
                                    (put_field field_name v (fields_of o))) o]> (heap w)
        /\ calls w' = calls w ++ [UpdateTask (Store.t_gid (_task o))
                                    (Store.SetCustomField (Store.field_gid f) v)]).
Proof.
  intros Ho w'. subst w'. rewrite (update_field_run _ _ _ _ _ Ho).
  destruct (Store.value_eqb _ v) eqn:E; [left; auto|].
  destruct (find_field field_name (fields_of o)) as [f|] eqn:Ef; [|left; auto].
  right. exists f. cbv zeta.
  destruct (Store.update_task _ _ (remote w)); simpl; auto.
Qed.

(** X8. Writing a custom field and reading it back: after
    [update_field(name, value)] on a task that has the field, with a value
    that is not a dictionary, [field_value(name)] returns a value equal to
    [value], whether or not the store accepted the request; and a second
    [update_field(name, value)] sends nothing and changes nothing. *)
Theorem update_field_round_trip (self : addr) (o : object) (w : world)
  (field_name : string) (v : Store.value) :
  heap w !! self = Some o ->
  (forall n, v <> Store.VDict n) ->
  let w' := (AsanaTask.update_field self field_name v w).2 in
  (find_field field_name (fields_of o) <> None ->
   exists v', AsanaTask.field_value self field_name w' = (Ok v', w')
              /\ Store.value_eqb v' v = true)
  /\ AsanaTask.update_field self field_name v w' = (Ok tt, w').
Proof.
  intros Ho Hv w'.
  destruct (update_field_object self o w field_name v Ho)
    as [[Hw Hcase]|(f & Hf & Hne & Hh & _)]; fold w' in Hw || fold w' in Hh.
  - rewrite Hw. split.
    + intros Hex. rewrite (field_value_run _ _ _ _ Ho). eexists. split; [reflexivity|].
      destruct Hcase; [contradiction|assumption].
    + rewrite (update_field_run _ _ _ _ _ Ho).
      destruct Hcase as [Hn|He]; [|now rewrite He].
      rewrite Hn. now destruct (Store.value_eqb _ v).
  - assert (heap w' !! self
            = Some (AsanaTask.with_task
                      (Store.set_custom_fields (put_field field_name v (fields_of o))) o))
      as Ho'.
    { rewrite Hh. apply list_lookup_insert_eq. eapply lookup_lt_Some; eauto. }
    assert (field_view (fields_of (AsanaTask.with_task
              (Store.set_custom_fields (put_field field_name v (fields_of o))) o))
              field_name = v) as Hview
      by (apply (view_put_same _ _ _ _ Hf Hv)).
    split.
    + intros _. rewrite (field_value_run _ _ _ _ Ho'). exists v.
      split; [now rewrite Hview|apply value_eqb_refl].
    + rewrite (update_field_run _ _ _ _ _ Ho'). rewrite Hview.
      now rewrite value_eqb_refl.
Qed.

Lemma update_field_round_trip_witness :
  let o := {| _task := Store.st_data (Scenario.estimated_task 0 "E" None false
                                        (Store.VNum 5) Store.VNone []);
              __parent := None; __subtasks := None |} in
  let w := {| heap := [o]; remote := Scenario.lone_epic; calls := [] |} in
  let w' := (AsanaTask.update_field 0 "Remaining hours" (Store.VNum 5) w).2 in
  (exists v', AsanaTask.field_value 0 "Remaining hours" w' = (Ok v', w')
              /\ Store.value_eqb v' (Store.VNum 5) = true)
  /\ AsanaTask.update_field 0 "Remaining hours" (Store.VNum 5) w' = (Ok tt, w').
Proof.
  intros o w w'.
  destruct (update_field_round_trip 0 o w "Remaining hours" (Store.VNum 5) eq_refl)
    as [H1 H2]; [discriminate|].
  split; [apply H1; discriminate|exact H2].
Defined.

(** X9. [update_field] touches one field of one object: every other
    field of the task reads as before, its title, parent record and
    completion flag are unchanged, every other object is unchanged, and at
    most one request is sent, an update of that task. *)
Theorem update_field_touches_one_field (self : addr) (o : object) (w : world)
  (field_name : string) (v : Store.value) :
  heap w !! self = Some o ->
  let w' := (AsanaTask.update_field self field_name v w).2 in
  (forall other, other <> field_name ->
     AsanaTask.field_value self other w'
     = (Ok (field_view (fields_of o) other), w'))
  /\ (exists o', heap w' !! self = Some o'
                 /\ Store.t_name (_task o') = Store.t_name (_task o)
                 /\ Store.t_gid (_task o') = Store.t_gid (_task o)
                 /\ Store.t_parent (_task o') = Store.t_parent (_task o)
                 /\ Store.t_completed (_task o') = Store.t_completed (_task o)
                 /\ __parent o' = __parent o
                 /\ __subtasks o' = __subtasks o)
  /\ (forall a, a <> self -> heap w' !! a = heap w !! a)
  /\ (calls w' = calls w
      \/ exists g u, calls w' = calls w ++ [UpdateTask (Store.t_gid (_task o)) (Store.SetCustomField g u)]).
Proof.
  intros Ho w'.
  destruct (update_field_object self o w field_name v Ho)
    as [[Hw Hcase]|(f & Hf & Hne & Hh & Hc)]; fold w' in Hw || fold w' in Hh, Hc.
  - rewrite Hw. split; [intros other _; apply (field_value_run _ _ _ _ Ho)|].
    split; [exists o; auto 10|]. split; auto.
  - assert (heap w' !! self
            = Some (AsanaTask.with_task
                      (Store.set_custom_fields (put_field field_name v (fields_of o))) o))
      as Ho'.
    { rewrite Hh. apply list_lookup_insert_eq. eapply lookup_lt_Some; eauto. }
    split.
    { intros other Hother. rewrite (field_value_run _ _ _ _ Ho').
      f_equal. f_equal. apply (view_put_other _ _ _ _ Hother). }
    split; [eexists; split; [exact Ho'|simpl; auto 10]|].
    split; [intros a Ha; rewrite Hh; now apply list_lookup_insert_ne|].
    right. eauto.
Qed.

Lemma update_field_touches_one_field_witness :
  let o := {| _task := Store.st_data (Scenario.estimated_task 0 "E" None false
                                        (Store.VNum 5) Store.VNone []);
              __parent := None; __subtasks := None |} in
  let w := {| heap := [o]; remote := Scenario.lone_epic; calls := [] |} in
  let w' := (AsanaTask.update_field 0 "Remaining hours" (Store.VNum 5) w).2 in
  AsanaTask.field_value 0 "Estimate hours" w' = (Ok (Store.VNum 5), w').
Proof.
  intros o w w'.
  destruct (update_field_touches_one_field 0 o w "Remaining hours" (Store.VNum 5) eq_refl)
    as [H _].
  apply (H "Estimate hours"). discriminate.
Defined.

(** ** Caches and requests of a task object *)

(** X10. The parent is fetched at most once: after a read of [parent]
    that returned, another read returns the same object without sending a
    request and without changing anything. *)
Theorem parent_read_is_cached (self : addr) (w w' : world) (r : option addr) :
  AsanaTask.parent self w = (Ok r, w') ->
  AsanaTask.parent self w' = (Ok r, w').
Proof. apply parent_again. Qed.

Lemma parent_read_is_cached_witness :
  let o := {| _task := {| Store.t_gid := 0; Store.t_name := "T";
                          Store.t_parent := Some 1; Store.t_completed := false;
                          Store.t_custom_fields := [] |};
              __parent := None; __subtasks := None |} in
  let s := {| Store.tasks := [Store.new_task 0 "T" (Some 1); Store.new_task 1 "P" None];
              Store.sections := [] |} in
  let w := {| heap := [o]; remote := s; calls := [] |} in
  let w' := (AsanaTask.parent 0 w).2 in
  AsanaTask.parent 0 w' = (Ok (Some 1), w') /\ calls w' = [GetTask 1].
Proof.
  intros o s w w'. split; [|reflexivity].
  apply (parent_read_is_cached 0 w w' (Some 1)). reflexivity.
Defined.

Lemma map_M_new (ds : list Store.task_data) :
  forall w,
    map_M AsanaTask.new ds w
    = (Ok (seq (length (heap w)) (length ds)),
       {| heap := heap w ++ map (fun d => {| _task := d; __parent := None;
                                             __subtasks := None |}) ds;
          remote := remote w; calls := calls w |}).
Proof.
  induction ds as [|d ds IH]; intros w; simpl.
  - rewrite app_nil_r. now destruct w.
  - unfold mbind at 1, M_bind at 1. unfold AsanaTask.new at 1, alloc at 1.
    unfold mbind at 1, M_bind at 1. rewrite IH. simpl.
    rewrite length_app. simpl. rewrite <- app_assoc. simpl.
    replace (length (heap w) + 1) with (S (length (heap w))) by lia.
    reflexivity.
Qed.

(** X11. The subtasks are fetched at most once: after a call of
    [subtasks()] that returned, another call returns the same list of
    objects without sending a request and without changing anything. *)
Theorem subtasks_are_cached (self : addr) (w w' : world) (l : list addr) :
  AsanaTask.subtasks self w = (Ok l, w') ->
  AsanaTask.subtasks self w' = (Ok l, w').
Proof.
  intros Hrun. pose proof Hrun as Hrun0. unfold AsanaTask.subtasks in Hrun.
  apply bind_Ok_inv in Hrun as (o & w1 & Ho & Hrun).
  unfold deref in Ho. destruct (heap w !! self) as [o'|] eqn:E; [|discriminate].
  injection Ho as -> <-.
  destruct (__subtasks o) as [l0|] eqn:Hc.
  - injection Hrun as <- <-. exact Hrun0.
  - apply bind_Ok_inv in Hrun as (ds & w2 & Hds & Hrun).
    apply bind_Ok_inv in Hrun as (l1 & w3 & Hl1 & Hrun).
    rewrite map_M_new in Hl1. injection Hl1 as <- <-.
    apply bind_Ok_inv in Hrun as ([] & w4 & Hw4 & Hrun).
    injection Hrun as <- <-. unfold assign in Hw4. injection Hw4 as <-.
    assert (heap w2 !! self = Some o) as Ho2.
    { unfold query, log, mbind, M_bind in Hds. simpl in Hds.
      destruct (Store.get_subtasks_for_task _ _); [|discriminate].
      injection Hds as _ <-. exact E. }
    unfold AsanaTask.subtasks.
    erewrite bind_Ok; cycle 1.
    { apply deref_Some. simpl. apply list_lookup_insert_eq.
      rewrite length_app. apply lookup_lt_Some in Ho2. lia. }
    reflexivity.
Qed.

Lemma subtasks_are_cached_witness :
  let o := {| _task := Store.st_data (Store.new_task 0 "P" None);
              __parent := None; __subtasks := None |} in
  let s := {| Store.tasks :=
                [{| Store.st_data := Store.st_data (Store.new_task 0 "P" None);
                    Store.st_subtasks := [1] |};
                 Store.new_task 1 "C" (Some 0)];
              Store.sections := [] |} in
  let w := {| heap := [o]; remote := s; calls := [] |} in
  let w' := (AsanaTask.subtasks 0 w).2 in
  AsanaTask.subtasks 0 w' = (Ok [1], w') /\ calls w' = [GetSubtasksForTask 0].
Proof.
  intros o s w w'. split; [|reflexivity].
  apply (subtasks_are_cached 0 w w' [1]). reflexivity.
Defined.

(** X12. [add_subtask] on a task whose subtasks were never read: the
    subtask is created in the store, and then the append to the missing
    list raises [AttributeError]; the caller gets no object for the task
    that now exists. *)
Theorem add_subtask_before_subtasks (self : addr) (o : object) (w : world)
  (name : string) (t : Store.stored_task) :
  heap w !! self = Some o ->
  __subtasks o = None ->
  Store.tasks (remote w) !! Store.t_gid (_task o) = Some t ->
  let run := AsanaTask.add_subtask self name w in
  run.1 = Raise AttributeError
  /\ calls run.2 = calls w ++ [CreateSubtaskForTask (Store.t_gid (_task o)) name]
  /\ length (Store.tasks (remote run.2)) = S (length (Store.tasks (remote w)))
  /\ Store.get_task (length (Store.tasks (remote w))) (remote run.2)
     = Ok {| Store.t_gid := length (Store.tasks (remote w)); Store.t_name := name;
             Store.t_parent := Some (Store.t_gid (_task o));
             Store.t_completed := false; Store.t_custom_fields := [] |}.
Proof.
  intros Ho Hc Ht run. subst run. unfold AsanaTask.add_subtask, AsanaTask.gid.
  rewrite bind_assoc. rewrite (bind_Ok _ _ _ _ _ (deref_Some _ _ _ Ho)).
  rewrite bind_ret_l.
  unfold request_with, log, Store.create_subtask_for_task, AsanaTask.new, alloc,
    deref, mbind, M_bind, with_remote, with_heap. simpl.
  unfold Store.gid in *. rewrite Ht. simpl.
  rewrite (lookup_app_l_Some _ _ _ _ Ho). rewrite Hc. simpl.
  split; [reflexivity|]. split; [reflexivity|].
  split.
  - rewrite length_app, length_alter. simpl. lia.
  - unfold Store.get_task. simpl.
    rewrite lookup_app_r by (rewrite length_alter; lia).
    rewrite length_alter, Nat.sub_diag. reflexivity.
Qed.

Lemma add_subtask_before_subtasks_witness :
  let o := {| _task := Store.st_data (Store.new_task 0 "P" None);
              __parent := None; __subtasks := None |} in
  let w := {| heap := [o]; remote := Scenario.stories "P"; calls := [] |} in
  (AsanaTask.add_subtask 0 "C" w).1 = Raise AttributeError
  /\ length (Store.tasks (remote (AsanaTask.add_subtask 0 "C" w).2)) = 2.
Proof.
  intros o w.
  destruct (add_subtask_before_subtasks 0 o w "C" (Store.new_task 0 "P" None)
              eq_refl eq_refl eq_refl) as (H1 & _ & H2 & _).
  split; [exact H1|exact H2].
Defined.

(** X13. The cache is written before the request: when the store rejects
    a rename, the object has the new title and the store the old one, and
    renaming again through the same object sends nothing. *)
Theorem rejected_rename_is_lost (self : addr) (o : object) (w : world)
  (title : string) (e : exn) :
  heap w !! self = Some o ->
  Store.t_name (_task o) <> title ->
  Store.update_task (Store.t_gid (_task o)) (Store.SetName title) (remote w) = Raise e ->
  let run := AsanaTask.set_name self title w in
  run.1 = Raise e
  /\ remote run.2 = remote w
  /\ AsanaTask.name self run.2 = (Ok title, run.2)
  /\ AsanaTask.set_name self title run.2 = (Ok tt, run.2).
Proof.
  intros Ho Hne He run.
  destruct (set_name_other self o w title Ho Hne) as (r & s & Hrun & Hr).
  rewrite He in Hr. destruct Hr as [-> ->].
  subst run. rewrite Hrun. simpl.
  set (w' := {| heap := _; remote := _; calls := _ |}).
  assert (heap w' !! self = Some (AsanaTask.with_task (Store.set_name title) o)) as Ho'.
  { simpl. apply list_lookup_insert_eq. eapply lookup_lt_Some; eauto. }
  split; [reflexivity|]. split; [reflexivity|]. split.
  - rewrite name_run, Ho'. reflexivity.
  - now apply (set_name_same self _ w' title Ho').
Qed.

Lemma rejected_rename_is_lost_witness :
  let o := {| _task := Store.st_data (Store.new_task 7 "Old" None);
              __parent := None; __subtasks := None |} in
  let w := {| heap := [o]; remote := Scenario.stories "Old"; calls := [] |} in
  let run := AsanaTask.set_name 0 "New" w in
  run.1 = Raise ApiError
  /\ remote run.2 = remote w
  /\ AsanaTask.name 0 run.2 = (Ok "New", run.2)
  /\ AsanaTask.set_name 0 "New" run.2 = (Ok tt, run.2).
Proof.
  intros o w.
  apply (rejected_rename_is_lost 0 o w "New" ApiError); [reflexivity|discriminate|reflexivity].
Defined.

(** ** The path of a task and [attach_subtask] *)

Lemma join_two (sep : string) (l : list string) (x m : string) :
  Str.join sep (l ++ [x; m]) = Str.join sep (l ++ [(x ++ sep ++ m)%string]).
Proof.
  induction l as [|y l IH]; [reflexivity|].
  destruct l as [|z l]; [reflexivity|].
  change (Str.join sep ((y :: z :: l) ++ [x; m]))
    with (y ++ sep ++ Str.join sep ((z :: l) ++ [x; m]))%string.
  rewrite IH. reflexivity.
Qed.

Lemma prefixed_join (ms : list string) :
  forall m, prefixed ms m = Str.join " > " (rev ms ++ [m]).
Proof.
  induction ms as [|a ms IH]; intros m; [reflexivity|].
  unfold prefixed in *. simpl. rewrite IH, <- app_assoc. simpl.
  symmetry. apply join_two.
Qed.

(** The two loops walk up the same ancestors. *)
Lemma path_loop_of_tags_loop (bound : nat) :
  forall (parent : option addr) (paths : list string) (path : string)
         (w w' : world) (res : list string),
    TaskNameParser.tags_loop bound parent paths w = (Ok res, w') ->
    exists ms, res = paths ++ ms
               /\ path_loop bound parent path w = (Ok (prefixed ms path), w').
Proof.
  induction bound as [|bound IH]; intros parent paths path w w' res Hrun.
  - destruct parent as [p|]; [discriminate|].
    injection Hrun as <- <-. exists []. now rewrite app_nil_r.
  - destruct parent as [p|].
    + simpl in Hrun.
      apply bind_Ok_inv in Hrun as (tp & w1 & Htp & Hrun).
      apply bind_Ok_inv in Hrun as (m & w2 & Hm & Hrun).
      apply bind_Ok_inv in Hrun as (p' & w3 & Hp & Hrun).
      destruct (IH p' (paths ++ [m]) (m ++ " > " ++ path)%string _ _ _ Hrun)
        as (ms & -> & Hpath).
      exists (m :: ms). split; [now rewrite <- app_assoc|].
      simpl path_loop.
      rewrite (bind_Ok _ _ _ _ _ Htp), (bind_Ok _ _ _ _ _ Hm), (bind_Ok _ _ _ _ _ Hp).
      exact Hpath.
    + injection Hrun as <- <-. exists []. now rewrite app_nil_r.
Qed.

Lemma path_run (bound : nat) (self : TaskNameParser.TaskNameParser) (w : world)
  (titles ms : list string) (m : string) :
  resolves w (TaskNameParser.task self) titles ->
  Forall2 mnemonic_of titles ms ->
  mnemonic (TaskNameParser.parser self) = Ok m ->
  length titles <= bound ->
  exists w',
    path bound self w = (Ok (Str.join " > " (rev ms ++ [m])), w')
    /\ cached_chain w' (TaskNameParser.task self) titles
    /\ reads_only w w'.
Proof.
  intros Hres Hms Hm Hb.
  destruct (ancestors_loop titles w _ bound [] ms Hres Hms Hb) as (w' & Hrun & Hc & Hr).
  exists w'. split; [|split; assumption].
  apply bind_Ok_inv in Hrun as (p & w1 & Hp & Hrun).
  destruct (path_loop_of_tags_loop bound p [] m _ _ _ Hrun) as (ms' & E & Hpath).
  simpl in E. subst ms'.
  unfold path. rewrite Hm. unfold lift at 1. unfold mbind at 1, M_bind at 1.
  rewrite (bind_Ok _ _ _ _ _ Hp). rewrite Hpath. now rewrite prefixed_join.
Qed.

(** X14. For a task whose ancestors have the given titles, the parent
    first: [path] is the mnemonics of the ancestors, the root's first, and
    then the mnemonic of the task itself (not its title), joined by [" > "];
    computing it only reads, and it fills the parent caches on the way. *)
Theorem path_is_joined_mnemonics (bound : nat) (self : TaskNameParser.TaskNameParser)
  (w : world) (titles ms : list string) (m : string) :
  resolves w (TaskNameParser.task self) titles ->
  Forall2 mnemonic_of titles ms ->
  mnemonic (TaskNameParser.parser self) = Ok m ->
  length titles <= bound ->
  exists w',
    path bound self w = (Ok (Str.join " > " (rev ms ++ [m])), w')
    /\ cached_chain w' (TaskNameParser.task self) titles
    /\ reads_only w w'.
Proof. apply path_run. Qed.

Lemma path_is_joined_mnemonics_witness :
  let t := {| _task := {| Store.t_gid := 0; Store.t_name := "Login page (LP)";
                          Store.t_parent := Some 1; Store.t_completed := false;
                          Store.t_custom_fields := [] |};
              __parent := None; __subtasks := None |} in
  let s := {| Store.tasks :=
                [Store.new_task 0 "Login page (LP)" (Some 1);
                 Store.new_task 1 "[AR] Feature" (Some 2);
                 Store.new_task 2 "Area (AR)" None];
              Store.sections := [] |} in
  let w := {| heap := [t]; remote := s; calls := [] |} in
  let self := {| TaskNameParser.parser := NameParser.new "Login page (LP)";
                 TaskNameParser.task := 0 |} in
  exists w', path 2 self w = (Ok "AR > Feature > LP", w') /\ calls w' = [GetTask 1; GetTask 2].
Proof.
  intros t s w self.
  destruct (path_is_joined_mnemonics 2 self w ["[AR] Feature"; "Area (AR)"]
              ["Feature"; "AR"] "LP") as (w' & Hrun & _ & _).
  - eapply resolves_fetch; [reflexivity..|].
    apply (store_chain_step _ 1 (Store.new_task 1 "[AR] Feature" (Some 2)));
      [reflexivity|].
    apply (store_chain_step _ 2 (Store.new_task 2 "Area (AR)" None));
      [reflexivity|]. constructor.
  - repeat constructor.
  - reflexivity.
  - simpl. lia.
  - exists w'. split; [exact Hrun|].
    vm_compute in Hrun. injection Hrun as <-. reflexivity.
Defined.

Lemma with_task_set_name_same (o : object) :
  AsanaTask.with_task (Store.set_name (Store.t_name (_task o))) o = o.
Proof. destruct o as [[] ? ?]. reflexivity. Qed.

(** The setter of [name] on an object whose task the store has. *)
Lemma set_name_run (self : addr) (o : object) (t : Store.stored_task) (w : world)
  (value : string) :
  heap w !! self = Some o ->
  Store.tasks (remote w) !! Store.t_gid (_task o) = Some t ->
  Store.t_name (Store.st_data t) = Store.t_name (_task o) ->
  exists w' t',
    AsanaTask.set_name self value w = (Ok tt, w')
    /\ heap w' = <[self := AsanaTask.with_task (Store.set_name value) o]> (heap w)
    /\ Store.tasks (remote w') !! Store.t_gid (_task o) = Some t'
    /\ Store.t_name (Store.st_data t') = value
    /\ length (Store.tasks (remote w')) = length (Store.tasks (remote w)).
Proof.
  intros Ho Ht Hsync.
  destruct (String.eqb_spec (Store.t_name (_task o)) value) as [E|Hne].
  - exists w, t. rewrite (set_name_same self o w value Ho E). subst value.
    rewrite with_task_set_name_same, list_insert_id by exact Ho.
    repeat split; assumption.
  - destruct (set_name_other self o w value Ho Hne) as (r & s & Hrun & Hr).
    unfold Store.update_task in Hr. unfold Store.gid in *. rewrite Ht in Hr.
    destruct Hr as [-> ->]. eexists _, _. split; [exact Hrun|]. simpl.
    split; [reflexivity|]. rewrite list_lookup_alter_eq. unfold Store.gid in *.
    rewrite Ht. simpl. split; [reflexivity|]. split; [reflexivity|].
    apply length_alter.
Qed.

Lemma reparent_lookup (ts : list Store.stored_task) (g sg : Store.gid)
  (f : list Store.gid -> list Store.gid) (t2 : Store.stored_task) :
  ts !! g = Some t2 ->
  exists t3,
    alter (Store.with_subtasks f) sg
      (alter (Store.with_data (Store.set_parent (Some sg))) g
         (map (Store.with_subtasks (Store.remove_gid g)) ts)) !! g = Some t3
    /\ Store.st_data t3 = Store.set_parent (Some sg) (Store.st_data t2).
Proof.
  intros Hts. unfold Store.gid in *.
  assert (alter (Store.with_data (Store.set_parent (Some sg))) g
            (map (Store.with_subtasks (Store.remove_gid g)) ts) !! g
          = Some (Store.with_data (Store.set_parent (Some sg))
                    (Store.with_subtasks (Store.remove_gid g) t2))) as E.
  { rewrite list_lookup_alter_eq, list_lookup_fmap. now rewrite Hts. }
  destruct (decide (sg = g)) as [->|Hne].
  - rewrite list_lookup_alter_eq, E. eexists. split; reflexivity.
  - rewrite list_lookup_alter_ne by auto. eexists. split; [exact E|reflexivity].
Qed.

Lemma attach_subtask_run (bound : nat) (self task : addr) (o so : object)
  (t st : Store.stored_task) (w : world) (titles ms : list string) (m : string) :
  heap w !! task = Some o ->
  heap w !! self = Some so ->
  Store.tasks (remote w) !! Store.t_gid (_task o) = Some t ->
  Store.t_name (Store.st_data t) = Store.t_name (_task o) ->
  Store.tasks (remote w) !! Store.t_gid (_task so) = Some st ->
  resolves w task titles ->
  Forall2 mnemonic_of titles ms ->
  mnemonic_of (Store.t_name (_task o)) m ->
  length titles <= bound ->
  exists w' o' d,
    attach_subtask bound self task w = (Ok task, w')
    /\ heap w' !! task = Some o'
    /\ Store.t_name (_task o') = Str.join " > " (rev ms ++ [m])
    /\ Store.t_parent (_task o') = Store.t_parent (_task o)
    /\ Store.get_task (Store.t_gid (_task o)) (remote w') = Ok d
    /\ Store.t_name d = Str.join " > " (rev ms ++ [m])
    /\ Store.t_parent d = Some (Store.t_gid (_task so)).
Proof.
  intros Ho Hso Ht Hsync Hst Hres Hms Hm Hb.
  set (tp := {| TaskNameParser.parser := NameParser.new (Store.t_name (_task o));
                TaskNameParser.task := task |}).
  destruct (path_run bound tp w titles ms m Hres Hms Hm Hb) as (w1 & Hpath & _ & Hr1 & Hf1).
  destruct (Hf1 task o Ho) as [(o1 & Ho1 & Hd1) _].
  destruct (Hf1 self so Hso) as [(so1 & Hso1 & Hsd1) _].
  assert (Store.tasks (remote w1) !! Store.t_gid (_task o1) = Some t) as Ht1
    by (now rewrite Hr1, Hd1).
  assert (Store.t_name (Store.st_data t) = Store.t_name (_task o1)) as Hsync1
    by (now rewrite Hd1).
  destruct (set_name_run task o1 t w1 (Str.join " > " (rev ms ++ [m])) Ho1 Ht1 Hsync1)
    as (w2 & t2 & Hset & Hh2 & Ht2 & Hn2 & Hlen2).
  assert (heap w2 !! task
          = Some (AsanaTask.with_task (Store.set_name (Str.join " > " (rev ms ++ [m]))) o1))
    as Ho2.
  { rewrite Hh2. apply list_lookup_insert_eq. eapply lookup_lt_Some; eauto. }
  assert (exists so2, heap w2 !! self = Some so2
                      /\ Store.t_gid (_task so2) = Store.t_gid (_task so))
    as (so2 & Hso2 & Hg2).
  { destruct (decide (self = task)) as [->|Hne].
    - eexists. split; [exact Ho2|]. simpl. congruence.
    - exists so1. split; [|now rewrite Hsd1].
      rewrite Hh2. now rewrite list_lookup_insert_ne by auto. }
  assert (exists st2, Store.tasks (remote w2) !! Store.t_gid (_task so) = Some st2)
    as (st2 & Hst2).
  { apply lookup_lt_is_Some. rewrite Hlen2, Hr1. eapply lookup_lt_Some; eauto. }
  rewrite Hd1 in Ht2.
  destruct (reparent_lookup _ _ (Store.t_gid (_task so))
              (fun l => l ++ [Store.t_gid (_task o)]) _ Ht2) as (t3 & Ht3 & Hd3).
  eexists _, _, _. split.
  - unfold attach_subtask, AsanaTask.gid.
    rewrite bind_assoc. rewrite (bind_Ok _ _ _ _ _ (deref_Some _ _ _ Ho)).
    rewrite bind_ret_l.
    rewrite (bind_Ok _ _ _ _ _ (new_run _ _ _ Ho)).
    fold tp. rewrite (bind_Ok _ _ _ _ _ Hpath).
    rewrite (bind_Ok _ _ _ _ _ Hset).
    rewrite bind_assoc. rewrite (bind_Ok _ _ _ _ _ (deref_Some _ _ _ Hso2)).
    rewrite bind_ret_l. rewrite Hg2.
    unfold request, log, Store.set_parent_for_task, mbind, M_bind, with_remote.
    simpl. unfold Store.gid in *. rewrite Ht2, Hst2. reflexivity.
  - simpl. split; [exact Ho2|]. split; [reflexivity|]. split; [simpl; now rewrite Hd1|].
    unfold Store.get_task. simpl.
    unfold Store.gid in *. rewrite Ht3. split; [reflexivity|].
    rewrite Hd3. simpl. split; [exact Hn2|reflexivity].
Qed.

(** X15. [attach_subtask] writes the path into the title of the task and
    moves the task below [self] in the store, but it tells the object of
    the task nothing about the move: the record of the object keeps the
    parent it had, so a later read of [task.parent] does not give [self]. *)
Theorem attach_subtask_keeps_old_parent (bound : nat) (self task : addr)
  (o so : object) (t st : Store.stored_task) (w : world) (titles ms : list string)
  (m : string) :
  heap w !! task = Some o ->
  heap w !! self = Some so ->
  Store.tasks (remote w) !! Store.t_gid (_task o) = Some t ->
  Store.t_name (Store.st_data t) = Store.t_name (_task o) ->
  Store.tasks (remote w) !! Store.t_gid (_task so) = Some st ->
  resolves w task titles ->
  Forall2 mnemonic_of titles ms ->
  mnemonic_of (Store.t_name (_task o)) m ->
  length titles <= bound ->
  exists w' o' d,
    attach_subtask bound self task w = (Ok task, w')
    /\ heap w' !! task = Some o'
    /\ Store.t_name (_task o') = Str.join " > " (rev ms ++ [m])
    /\ Store.t_parent (_task o') = Store.t_parent (_task o)
    /\ Store.get_task (Store.t_gid (_task o)) (remote w') = Ok d
    /\ Store.t_name d = Str.join " > " (rev ms ++ [m])
    /\ Store.t_parent d = Some (Store.t_gid (_task so)).
Proof. apply attach_subtask_run. Qed.

Lemma attach_subtask_keeps_old_parent_witness :
  let s := {| Store.tasks :=
                [Store.new_task 0 "Login page (LP)" (Some 1);
                 Store.new_task 1 "Area (AR)" None;
                 Store.new_task 2 "Sprint 4" None];
              Store.sections := [] |} in
  let ob (g : nat) := {| _task := default (Store.st_data (Store.new_task 0 "" None))
                                    (Store.st_data <$> Store.tasks s !! g);
                         __parent := None; __subtasks := None |} in
  let w := {| heap := [ob 0; ob 2]; remote := s; calls := [] |} in
  exists w' o' d,
    attach_subtask 1 1 0 w = (Ok 0, w')
    /\ heap w' !! 0 = Some o'
    /\ Store.t_name (_task o') = "AR > LP"
    /\ Store.t_parent (_task o') = Some 1
    /\ Store.get_task 0 (remote w') = Ok d
    /\ Store.t_name d = "AR > LP"
    /\ Store.t_parent d = Some 2.
Proof.
  intros s ob w.
  apply (attach_subtask_keeps_old_parent 1 1 0 (ob 0) (ob 2)
           (Store.new_task 0 "Login page (LP)" (Some 1)) (Store.new_task 2 "Sprint 4" None)
           w ["Area (AR)"] ["AR"] "LP"); try reflexivity.
  - eapply resolves_fetch; [reflexivity..|].
    apply (store_chain_step _ 1 (Store.new_task 1 "Area (AR)" None)); [reflexivity|].
    constructor.
  - repeat constructor.
Defined.

(** ** The ideal line of the burndown chart *)

Module BurndownProofs.
Import PlotBurndown.
Local Open Scope Z_scope.

Lemma workdays_none (start end_ : Z) : end_ <= start -> workdays start end_ = 0.
Proof.
  intros H. unfold workdays. rewrite seqZ_nil by lia. reflexivity.
Qed.

Lemma workdays_first (start end_ : Z) :
  start < end_ ->
  workdays start end_
  = (if weekday (start + 1) <? 5 then 1 else 0) + workdays (start + 1) end_.
Proof.
  intros H. unfold workdays. rewrite seqZ_cons by lia.
  replace (Z.pred (end_ - start)) with (end_ - (start + 1)) by lia.
  replace (Z.succ (start + 1)) with (start + 1 + 1) by lia.
  rewrite filter_cons.
  destruct (decide (weekday (start + 1) < 5)) as [Hw|Hw].
  - apply Z.ltb_lt in Hw as ->. simpl length. lia.
  - apply Z.ltb_nlt in Hw as ->. lia.
Qed.

Lemma workdays_last (start d : Z) :
  start <= d ->
  workdays start (d + 1)
  = workdays start d + (if weekday (d + 1) <? 5 then 1 else 0).
Proof.
  intros H. unfold workdays.
  replace (d + 1 - start) with ((d - start) + 1) by lia.
  rewrite seqZ_app by lia. rewrite filter_app, length_app.
  replace (start + 1 + (d - start)) with (d + 1) by lia.
  change (seqZ (d + 1) 1) with [d + 1]. rewrite filter_cons, filter_nil.
  destruct (decide (weekday (d + 1) < 5)) as [Hw|Hw].
  - apply Z.ltb_lt in Hw as ->. simpl length. lia.
  - apply Z.ltb_nlt in Hw as ->. simpl length. lia.
Qed.

Lemma next_day_run (d : Z) : d < max_ordinal -> next_day d = Done (d + 1).
Proof. intros H. unfold next_day. apply Z.ltb_lt in H as ->. reflexivity. Qed.

Lemma delta_loop_run (n : nat) :
  forall (bound : nat) (start end_ delta_days : Z),
    end_ <= max_ordinal ->
    (Z.to_nat (end_ - start) <= n)%nat ->
    (n <= bound)%nat ->
    delta_loop bound start end_ delta_days = Done (delta_days + workdays start end_).
Proof.
  induction n as [|n IH]; intros bound start end_ delta_days Hmax Hn Hb.
  - assert (end_ <= start) as Hle by lia.
    rewrite workdays_none by lia.
    destruct bound; simpl; apply Z.ltb_ge in Hle as ->; f_equal; lia.
  - destruct (Z.ltb_spec start end_) as [Hlt|Hge].
    + destruct bound as [|bound]; [lia|]. simpl.
      apply Z.ltb_lt in Hlt as E. rewrite E. rewrite next_day_run by lia.
      rewrite IH by lia. rewrite (workdays_first start end_) by lia.
      destruct (weekday (start + 1) <? 5); f_equal; lia.
    + rewrite workdays_none by lia.
      destruct bound; simpl; apply Z.ltb_ge in Hge as ->; f_equal; lia.
Qed.

Lemma compute_delta_days_run (bound : nat) (start end_ : Z) :
  end_ <= max_ordinal ->
  (Z.to_nat (end_ - start) <= bound)%nat ->
  compute_delta_days bound start end_ = Done (workdays start end_).
Proof.
  intros Hmax Hb. unfold compute_delta_days.
  now rewrite (delta_loop_run bound bound start end_ 0 Hmax Hb).
Qed.

Lemma line_loop_run (n : nat) :
  forall (bound : nat) (start cur end_ story_points : Z),
    end_ < max_ordinal ->
    workdays start end_ <> 0 ->
    start <= cur ->
    (Z.to_nat (end_ - cur + 1) <= n)%nat ->
    (n <= bound)%nat ->
    line_loop bound cur end_ story_points (workdays start end_) (workdays start cur)
      (seqZ start (cur - start))
      (map (ideal_on start end_ story_points) (seqZ start (cur - start)))
    = Done (days_from start (Z.max (cur - 1) end_),
            map (ideal_on start end_ story_points)
                (days_from start (Z.max (cur - 1) end_))).
Proof.
  induction n as [|n IH]; intros bound start cur end_ story_points Hmax Hd Hs Hn Hb.
  - assert (end_ < cur) as Hlt by lia.
    replace (Z.max (cur - 1) end_) with (cur - 1) by lia.
    unfold days_from. replace (cur - 1 - start + 1) with (cur - start) by lia.
    destruct bound; simpl; apply Z.leb_gt in Hlt as ->; reflexivity.
  - destruct (Z.leb_spec cur end_) as [Hle|Hgt].
    + destruct bound as [|bound]; [lia|]. simpl.
      apply Z.leb_le in Hle as E. rewrite E. rewrite next_day_run by lia.
      unfold ideal. apply Z.eqb_neq in Hd as E0. rewrite E0.
      replace (if weekday (cur + 1) <? 5 then workdays start cur + 1
               else workdays start cur)
        with (workdays start (cur + 1))
        by (rewrite (workdays_last start cur) by lia;
            destruct (weekday (cur + 1) <? 5); lia).
      assert (seqZ start (cur - start) ++ [cur] = seqZ start (cur + 1 - start)) as Ed.
      { replace (cur + 1 - start) with ((cur - start) + 1) by lia.
        rewrite seqZ_app by lia. replace (start + (cur - start)) with cur by lia.
        reflexivity. }
      assert (map (ideal_on start end_ story_points) (seqZ start (cur - start))
                ++ [(inject_Z story_points
                     - inject_Z (workdays start cur * story_points)
                       / inject_Z (workdays start end_))%Q]
              = map (ideal_on start end_ story_points) (seqZ start (cur + 1 - start)))
        as El.
      { rewrite <- Ed, map_app. reflexivity. }
      rewrite Ed, El. rewrite IH by lia.
      replace (Z.max (cur + 1 - 1) end_) with (Z.max (cur - 1) end_) by lia.
      reflexivity.
    + replace (Z.max (cur - 1) end_) with (cur - 1) by lia.
      unfold days_from. replace (cur - 1 - start + 1) with (cur - start) by lia.
      destruct bound; simpl; apply Z.leb_gt in Hgt as ->; reflexivity.
Qed.

Lemma compute_burndown_line_run (bound : nat) (start end_ story_points : Z) :
  start <= end_ < max_ordinal ->
  workdays start end_ <> 0 ->
  (Z.to_nat (end_ - start + 1) <= bound)%nat ->
  compute_burndown_line bound start end_ story_points
  = Done (days_from start end_,
          map (ideal_on start end_ story_points) (days_from start end_)).
Proof.
  intros [Hle Hmax] Hd Hb. unfold compute_burndown_line.
  rewrite compute_delta_days_run by lia.
  pose proof (line_loop_run bound bound start start end_ story_points Hmax Hd) as H.
  rewrite Z.sub_diag in H. rewrite (workdays_none start start) in H by lia.
  rewrite (seqZ_nil start 0) in H by lia. simpl map in H. rewrite H by lia.
  replace (Z.max (start - 1) end_) with end_ by lia. reflexivity.
Qed.

Lemma ideal_on_start (start end_ story_points : Z) :
  (ideal_on start end_ story_points start == inject_Z story_points)%Q.
Proof.
  unfold ideal_on. rewrite (workdays_none start start) by lia.
  rewrite Z.mul_0_l. unfold Qdiv. rewrite Qmult_0_l. ring.
Qed.

Lemma ideal_on_end (start end_ story_points : Z) :
  workdays start end_ <> 0 ->
  (ideal_on start end_ story_points end_ == 0)%Q.
Proof.
  intros Hd. unfold ideal_on. rewrite inject_Z_mult.
  rewrite Qmult_comm, Qdiv_mult_l; [ring|].
  intros H. apply Hd. now apply (inject_Z_injective _ 0).
Qed.

End BurndownProofs.

(** X16. [compute_delta_days] counts the days from Monday to Friday after
    [start], up to [end] and with it; the loop ends within [end - start]
    rounds. *)
Theorem compute_delta_days_counts_workdays (bound : nat) (start end_ : Z) :
  (end_ <= PlotBurndown.max_ordinal)%Z ->
  Z.to_nat (end_ - start) <= bound ->
  PlotBurndown.compute_delta_days bound start end_
  = PlotBurndown.Done (PlotBurndown.workdays start end_).
Proof. apply BurndownProofs.compute_delta_days_run. Qed.

Lemma compute_delta_days_counts_workdays_witness :
  PlotBurndown.compute_delta_days 9 739557 739566 = PlotBurndown.Done 7%Z.
Proof.
  apply (compute_delta_days_counts_workdays 9 739557 739566); [discriminate|].
  vm_compute. lia.
Defined.

(** X17. For a sprint with a day from Monday to Friday after its first
    day: the ideal line has one point for every day from [start_date] to
    [end_date]; the point of a day is [story_points] less the share of the
    working days that have passed up to that day, so the line starts at
    [story_points] and ends at 0. *)
Theorem burndown_line_runs_to_zero (bound : nat) (start end_ story_points : Z) :
  (start <= end_ < PlotBurndown.max_ordinal)%Z ->
  PlotBurndown.workdays start end_ <> 0%Z ->
  Z.to_nat (end_ - start + 1) <= bound ->
  let y := PlotBurndown.ideal_on start end_ story_points in
  PlotBurndown.compute_burndown_line bound start end_ story_points
  = PlotBurndown.Done (PlotBurndown.days_from start end_,
                       map y (PlotBurndown.days_from start end_))
  /\ (y start == inject_Z story_points)%Q
  /\ (y end_ == 0)%Q.
Proof.
  intros Hd Hw Hb y. split; [|split].
  - now apply BurndownProofs.compute_burndown_line_run.
  - apply BurndownProofs.ideal_on_start.
  - now apply BurndownProofs.ideal_on_end.
Qed.

Lemma burndown_line_runs_to_zero_witness :
  PlotBurndown.compute_burndown_line 5 739557 739560 12
  = PlotBurndown.Done ([739557; 739558; 739559; 739560]%Z,
                       map (PlotBurndown.ideal_on 739557 739560 12)
                           [739557; 739558; 739559; 739560]%Z).
Proof.
  apply (burndown_line_runs_to_zero 5 739557 739560 12); [split|..].
  - discriminate.
  - reflexivity.
  - discriminate.
  - vm_compute. lia.
Defined.

(** X18. A sprint that ends before [date.max] and has no day from Monday
    to Friday after its first day, as one of a single day, has no ideal
    line: the division by the number of working days raises
    [ZeroDivisionError] at the first point. *)
Theorem burndown_line_divides_by_zero (bound : nat) (start end_ story_points : Z) :
  (start <= end_ < PlotBurndown.max_ordinal)%Z ->
  PlotBurndown.workdays start end_ = 0%Z ->
  Z.to_nat (end_ - start) < bound ->
  PlotBurndown.compute_burndown_line bound start end_ story_points
  = PlotBurndown.Fail PlotBurndown.ZeroDivisionError.
Proof.
  intros [Hle Hmax] Hw Hb. unfold PlotBurndown.compute_burndown_line.
  rewrite BurndownProofs.compute_delta_days_run by lia. rewrite Hw.
  destruct bound as [|bound]; [lia|]. simpl.
  assert (start < PlotBurndown.max_ordinal)%Z as Hs by lia.
  apply Z.leb_le in Hle as ->. rewrite (BurndownProofs.next_day_run _ Hs).
  reflexivity.
Qed.

Lemma burndown_line_divides_by_zero_witness :
  PlotBurndown.compute_burndown_line 1 739557 739557 12
  = PlotBurndown.Fail PlotBurndown.ZeroDivisionError.
Proof.
  apply (burndown_line_divides_by_zero 1 739557 739557 12); [split|..].
  - apply Z.le_refl.
  - reflexivity.
  - reflexivity.
  - vm_compute. lia.
Defined.

(** ** The callbacks of the estimate rollup *)

Lemma find_put_none (field_name other : string) (v : Store.value)
  (fs : list Store.custom_field) :
  find_field other (put_field field_name v fs) = None <-> find_field other fs = None.
Proof.
  destruct (String.eqb_spec other field_name) as [->|Hne].
  - destruct (find_field field_name fs) as [f|] eqn:Ef.
    + rewrite (find_put_same _ _ _ _ Ef). split; discriminate.
    + split; [auto|intros _].
      unfold find_field in *. induction fs as [|f0 fs IH]; [reflexivity|].
      simpl in *. destruct (String.eqb (Store.field_name f0) field_name) eqn:E;
        [discriminate|]. simpl. rewrite E. now apply IH.
  - now rewrite find_put_other.
Qed.

Lemma value_eqb_number (a b : Store.value) (y : Q) :
  Store.value_eqb a b = true ->
  Store.number_of b = Some y ->
  exists x, Store.number_of a = Some x /\ (x == y)%Q.
Proof.
  unfold Store.value_eqb. intros H Hb. rewrite Hb in H.
  destruct (Store.number_of a) as [x|]; [|discriminate].
  exists x. split; [reflexivity|]. now apply Qeq_bool_iff.
Qed.

(** One [update_field] on a task the store has: it returns, and the
    object reads as before but for the field, which reads as the value. *)
Lemma update_field_step (self : addr) (o : object) (t : Store.stored_task)
  (w : world) (field_name : string) (v : Store.value) :
  heap w !! self = Some o ->
  Store.tasks (remote w) !! Store.t_gid (_task o) = Some t ->
  exists w' o' t',
    AsanaTask.update_field self field_name v w = (Ok tt, w')
    /\ heap w' !! self = Some o'
    /\ Store.tasks (remote w') !! Store.t_gid (_task o') = Some t'
    /\ Store.t_completed (_task o') = Store.t_completed (_task o)
    /\ (forall other, other <> field_name ->
          field_view (fields_of o') other = field_view (fields_of o) other)
    /\ (forall other, find_field other (fields_of o') = None
                      <-> find_field other (fields_of o) = None)
    /\ (find_field field_name (fields_of o) <> None ->
        (forall d, v <> Store.VDict d) ->
        Store.value_eqb (field_view (fields_of o') field_name) v = true).
Proof.
  intros Ho Ht. rewrite (update_field_run _ _ _ _ _ Ho).
  destruct (Store.value_eqb (field_view (fields_of o) field_name) v) eqn:E.
  { exists w, o, t. repeat split; auto. }
  destruct (find_field field_name (fields_of o)) as [f|] eqn:Ef.
  2:{ exists w, o, t. repeat split; auto. }
  cbv zeta. unfold Store.update_task. unfold Store.gid in *. rewrite Ht.
  eexists _, _, _. split; [reflexivity|]. simpl.
  split; [apply list_lookup_insert_eq; eapply lookup_lt_Some; eauto|].
  split; [rewrite list_lookup_alter_eq; unfold Store.gid in *; now rewrite Ht|].
  split; [reflexivity|].
  split; [intros other Hne; now apply view_put_other|].
  split; [intros other; apply find_put_none|].
  intros _ Hv. unfold fields_of at 1. simpl.
  rewrite (view_put_same _ _ _ _ Ef Hv). apply value_eqb_refl.
Qed.

Lemma field_value_world (self : addr) (field_name : string) (w : world) :
  (AsanaTask.field_value self field_name w).2 = w.
Proof.
  destruct (heap w !! self) as [o|] eqn:Ho.
  - now rewrite (field_value_run _ _ _ _ Ho).
  - unfold AsanaTask.field_value, AsanaTask._field, deref, mbind, M_bind.
    now rewrite Ho.
Qed.

Lemma fmap_world {A B} (f : A -> B) (m : M world A) (w : world) :
  (m w).2 = w -> ((f <$> m) w).2 = w.
Proof.
  intros H. unfold fmap, M_fmap, mbind, M_bind.
  destruct (m w) as [[x|e] w1]; simpl in *; assumption.
Qed.

Lemma bind_world {A B} (m : M world A) (k : A -> M world B) (w : world) :
  (m w).2 = w -> (forall x, (k x w).2 = w) -> ((m ≫= k) w).2 = w.
Proof.
  intros H Hk. unfold mbind, M_bind.
  destruct (m w) as [[x|e] w1]; simpl in *; subst; [apply Hk|reflexivity].
Qed.

(** X19. The reducer of the rollup only reads: whatever the task and the
    sums so far, and whether it returns or raises, [__increment_estimate]
    sends no request and leaves every object as it is. *)
Theorem increment_estimate_only_reads (c : UpdateEstimatesForTask.constants)
  (task : addr) (current : option (Q * Q * Q)) (w : world) :
  (UpdateEstimatesForTask.__increment_estimate c task current w).2 = w.
Proof.
  unfold UpdateEstimatesForTask.__increment_estimate.
  destruct (UpdateEstimatesForTask.or_zeros current) as [[c0 c1] c2].
  apply bind_world; [apply fmap_world, field_value_world|intros e].
  apply bind_world; [apply fmap_world, field_value_world|intros k].
  apply bind_world; [apply fmap_world, field_value_world|intros r].
  apply bind_world; [reflexivity|intros e'].
  apply bind_world; [reflexivity|intros k'].
  apply bind_world; [reflexivity|intros r']. reflexivity.
Qed.

Lemma bind_lift_Ok {W A B} (a : A) (f : A -> M W B) (w : W) :
  (lift (Ok a) ≫= f) w = f a w.
Proof. reflexivity. Qed.

Lemma initialize_task_run (c : UpdateEstimatesForTask.constants)
  (task : addr) (o : object) (t : Store.stored_task) (w : world) (e : Q) :
  heap w !! task = Some o ->
  Store.tasks (remote w) !! Store.t_gid (_task o) = Some t ->
  NoDup [UpdateEstimatesForTask.estimate_hours_name c;
         UpdateEstimatesForTask.completed_hours_name c;
         UpdateEstimatesForTask.remaining_hours_name c;
         UpdateEstimatesForTask.estimate_days_name c;
         UpdateEstimatesForTask.remaining_days_name c] ->
  Qeq_bool (UpdateEstimatesForTask.hours_per_day c) 0 = false ->
  Store.number_of
    (UpdateEstimatesForTask.or_zero
       (field_view (fields_of o) (UpdateEstimatesForTask.estimate_hours_name c)))
  = Some e ->
  find_field (UpdateEstimatesForTask.completed_hours_name c) (fields_of o) <> None ->
  find_field (UpdateEstimatesForTask.remaining_hours_name c) (fields_of o) <> None ->
  exists w' o' k r,
    UpdateEstimatesForTask.__initialize_task c task w = (Ok tt, w')
    /\ heap w' !! task = Some o'
    /\ field_view (fields_of o') (UpdateEstimatesForTask.estimate_hours_name c)
       = field_view (fields_of o) (UpdateEstimatesForTask.estimate_hours_name c)
    /\ Store.number_of
         (field_view (fields_of o') (UpdateEstimatesForTask.completed_hours_name c))
       = Some k
    /\ Store.number_of
         (field_view (fields_of o') (UpdateEstimatesForTask.remaining_hours_name c))
       = Some r
    /\ (k == if Store.t_completed (_task o) then e else 0)%Q
    /\ (k + r == e)%Q.
Proof.
  intros Ho Ht Hnd Hh He Hck Hcr.
  set (en := UpdateEstimatesForTask.estimate_hours_name c) in *.
  set (cn := UpdateEstimatesForTask.completed_hours_name c) in *.
  set (rn := UpdateEstimatesForTask.remaining_hours_name c) in *.
  set (edn := UpdateEstimatesForTask.estimate_days_name c) in *.
  set (rdn := UpdateEstimatesForTask.remaining_days_name c) in *.
  assert (en <> cn /\ en <> rn /\ en <> edn /\ en <> rdn
          /\ cn <> rn /\ cn <> edn /\ cn <> rdn /\ rn <> edn /\ rn <> rdn)
    as (N1 & N2 & N3 & N4 & N5 & N6 & N7 & N8 & N9).
  { rewrite !NoDup_cons in Hnd. rewrite !elem_of_cons in Hnd.
    repeat split; intros E; rewrite E in Hnd; tauto. }
  set (estimate := UpdateEstimatesForTask.or_zero (field_view (fields_of o) en)) in *.
  set (completed := if Store.t_completed (_task o) then estimate else Store.VNum 0).
  set (kq := if Store.t_completed (_task o) then e else 0%Q).
  assert (Store.number_of completed = Some kq) as Hkq.
  { unfold completed, kq. destruct (Store.t_completed (_task o)); [exact He|reflexivity]. }
  assert (forall d, completed <> Store.VDict d) as Hcd.
  { intros d E. rewrite E in Hkq. discriminate. }
  set (remaining := UpdateEstimatesForTask.num (e - kq)).
  assert (UpdateEstimatesForTask.sub estimate completed = Ok remaining) as Hsub.
  { unfold UpdateEstimatesForTask.sub. now rewrite He, Hkq. }
  assert (exists d1, UpdateEstimatesForTask.round_div estimate
                       (UpdateEstimatesForTask.hours_per_day c) = Ok d1) as (d1 & Hd1).
  { unfold UpdateEstimatesForTask.round_div. rewrite He, Hh. eauto. }
  assert (exists d2, UpdateEstimatesForTask.round_div remaining
                       (UpdateEstimatesForTask.hours_per_day c) = Ok d2) as (d2 & Hd2).
  { unfold UpdateEstimatesForTask.round_div, remaining. simpl. rewrite Hh. eauto. }
  destruct (update_field_step task o t w rn remaining Ho Ht)
    as (w1 & o1 & t1 & R1 & Ho1 & Ht1 & Hc1 & Hv1 & Hf1 & Hs1).
  destruct (update_field_step task o1 t1 w1 cn completed Ho1 Ht1)
    as (w2 & o2 & t2 & R2 & Ho2 & Ht2 & Hc2 & Hv2 & Hf2 & Hs2).
  destruct (update_field_step task o2 t2 w2 edn d1 Ho2 Ht2)
    as (w3 & o3 & t3 & R3 & Ho3 & Ht3 & Hc3 & Hv3 & Hf3 & Hs3).
  destruct (update_field_step task o3 t3 w3 rdn d2 Ho3 Ht3)
    as (w4 & o4 & t4 & R4 & Ho4 & Ht4 & Hc4 & Hv4 & Hf4 & Hs4).
  assert (Store.value_eqb (field_view (fields_of o4) rn) remaining = true) as Er.
  { rewrite Hv4, Hv3, Hv2 by auto. apply Hs1; [exact Hcr|discriminate]. }
  assert (Store.value_eqb (field_view (fields_of o4) cn) completed = true) as Ek.
  { rewrite Hv4, Hv3 by auto. apply Hs2; [|exact Hcd]. now rewrite Hf1. }
  destruct (value_eqb_number _ _ _ Ek Hkq) as (k & Hk & Ekq).
  destruct (value_eqb_number _ _ (Qred (e - kq)) Er eq_refl) as (r & Hr & Erq).
  exists w4, o4, k, r. split.
  - unfold UpdateEstimatesForTask.__initialize_task.
    rewrite (bind_Ok _ _ _ _ _ (field_value_run _ _ _ _ Ho)).
    rewrite (bind_Ok _ _ w w (Store.t_completed (_task o)))
      by (rewrite completed_run; now rewrite Ho).
    fold en estimate completed. rewrite Hsub, bind_lift_Ok.
    fold rn. rewrite (bind_Ok _ _ _ _ _ R1).
    fold cn. rewrite (bind_Ok _ _ _ _ _ R2).
    rewrite Hd1, bind_lift_Ok.
    fold edn. rewrite (bind_Ok _ _ _ _ _ R3).
    rewrite Hd2, bind_lift_Ok.
    fold rdn. exact R4.
  - split; [exact Ho4|]. split; [rewrite Hv4, Hv3, Hv2, Hv1 by auto; reflexivity|].
    split; [exact Hk|]. split; [exact Hr|]. split; [exact Ekq|].
    rewrite Ekq, Erq, Qred_correct. ring.
Qed.

(** X20. The initializer splits the estimate: on a task that has the
    fields for the completed and the remaining hours, with five different
    field names and a working day of other than zero hours, the task reads
    afterwards with its estimate as before, with the whole estimate as
    completed hours when it is completed and with 0 when it is not, and
    with completed and remaining hours that add up to the estimate. *)
Theorem initialize_task_splits_estimate (c : UpdateEstimatesForTask.constants)
  (task : addr) (o : object) (t : Store.stored_task) (w : world) (e : Q) :
  heap w !! task = Some o ->
  Store.tasks (remote w) !! Store.t_gid (_task o) = Some t ->
  NoDup [UpdateEstimatesForTask.estimate_hours_name c;
         UpdateEstimatesForTask.completed_hours_name c;
         UpdateEstimatesForTask.remaining_hours_name c;
         UpdateEstimatesForTask.estimate_days_name c;
         UpdateEstimatesForTask.remaining_days_name c] ->
  Qeq_bool (UpdateEstimatesForTask.hours_per_day c) 0 = false ->
  Store.number_of
    (UpdateEstimatesForTask.or_zero
       (field_view (fields_of o) (UpdateEstimatesForTask.estimate_hours_name c)))
  = Some e ->
  find_field (UpdateEstimatesForTask.completed_hours_name c) (fields_of o) <> None ->
  find_field (UpdateEstimatesForTask.remaining_hours_name c) (fields_of o) <> None ->
  exists w' o' k r,
    UpdateEstimatesForTask.__initialize_task c task w = (Ok tt, w')
    /\ heap w' !! task = Some o'
    /\ field_view (fields_of o') (UpdateEstimatesForTask.estimate_hours_name c)
       = field_view (fields_of o) (UpdateEstimatesForTask.estimate_hours_name c)
    /\ Store.number_of
         (field_view (fields_of o') (UpdateEstimatesForTask.completed_hours_name c))
       = Some k
    /\ Store.number_of
         (field_view (fields_of o') (UpdateEstimatesForTask.remaining_hours_name c))
       = Some r
    /\ (k == if Store.t_completed (_task o) then e else 0)%Q
    /\ (k + r == e)%Q.
Proof. apply initialize_task_run. Qed.

Lemma initialize_task_splits_estimate_witness :
  let o := {| _task := Store.st_data (Scenario.estimated_task 0 "B" None true
                                        (Store.VNum 3) (Store.VNum 7) []);
              __parent := None; __subtasks := None |} in
  let s := {| Store.tasks := [Scenario.estimated_task 0 "B" None true
                                (Store.VNum 3) (Store.VNum 7) []];
              Store.sections := [] |} in
  let w := {| heap := [o]; remote := s; calls := [] |} in
  exists w' o' k r,
    UpdateEstimatesForTask.__initialize_task Scenario.settings 0 w = (Ok tt, w')
    /\ heap w' !! 0 = Some o'
    /\ field_view (fields_of o') "Estimate hours" = Store.VNum 3
    /\ Store.number_of (field_view (fields_of o') "Completed hours") = Some k
    /\ Store.number_of (field_view (fields_of o') "Remaining hours") = Some r
    /\ (k == 3)%Q
    /\ (k + r == 3)%Q.
Proof.
  intros o s w.
  apply (initialize_task_splits_estimate Scenario.settings 0 o
           (Scenario.estimated_task 0 "B" None true (Store.VNum 3) (Store.VNum 7) [])
           w 3); try reflexivity; try discriminate.
  repeat (apply NoDup_cons_2;
          [rewrite ?elem_of_cons, ?elem_of_nil; intuition discriminate|]).
  apply NoDup_nil_2.
Defined.

(** ** More on the hierarchy builder and on sections *)

Lemma parser_new_inv (task : addr) (w w' : world) (tp : TaskNameParser.TaskNameParser) :
  TaskNameParser.new task w = (Ok tp, w') ->
  w' = w
  /\ exists o, heap w !! task = Some o
               /\ tp = {| TaskNameParser.parser := NameParser.new (Store.t_name (_task o));
                          TaskNameParser.task := task |}.
Proof.
  intros H. destruct (heap w !! task) as [o|] eqn:Ho.
  - rewrite (new_run _ _ _ Ho) in H. injection H as <- <-. eauto.
  - unfold TaskNameParser.new in H. apply bind_Ok_inv in H as (n & w1 & Hn & _).
    rewrite name_run, Ho in Hn. discriminate.
Qed.

(** A pass that returns leaves a title of a single segment. *)
Lemma build_hierarchy_post (bound fuel : nat) (task : addr)
  (section : AsanaSection.AsanaSection) :
  forall (w w' : world),
    BuildHierarchy.__build_hierarchy bound fuel task section w = (Ok tt, w') ->
    exists o', heap w' !! task = Some o'
               /\ length (parts (NameParser.new (Store.t_name (_task o')))) = 1.
Proof.
  induction fuel as [|fuel IH]; intros w w' Hrun; [discriminate|].
  simpl in Hrun. apply bind_Ok_inv in Hrun as (tp & w1 & Htp & Hrun).
  apply parser_new_inv in Htp as (-> & o & Ho & ->). simpl in Hrun.
  destruct (Nat.eqb_spec (length (parts (NameParser.new (Store.t_name (_task o))))) 1)
    as [E|E].
  - injection Hrun as <-. eauto.
  - apply bind_Ok_inv in Hrun as ([] & w2 & _ & Hrun).
    apply bind_Ok_inv in Hrun as (n & w3 & _ & Hrun).
    apply bind_Ok_inv in Hrun as ([] & w4 & _ & Hrun).
    now apply IH in Hrun.
Qed.

(** X21. Whenever [__build_hierarchy] returns, the title of the task has
    a single segment, and so a further call on the same object, for
    whatever section, sends nothing and changes nothing. *)
Theorem build_hierarchy_settles (bound fuel : nat) (task : addr)
  (section : AsanaSection.AsanaSection) (w w' : world) :
  BuildHierarchy.__build_hierarchy bound fuel task section w = (Ok tt, w') ->
  (exists o', heap w' !! task = Some o'
              /\ length (parts (NameParser.new (Store.t_name (_task o')))) = 1)
  /\ forall bound' fuel' section',
       BuildHierarchy.__build_hierarchy bound' (S fuel') task section' w' = (Ok tt, w').
Proof.
  intros Hrun. destruct (build_hierarchy_post _ _ _ _ _ _ Hrun) as (o' & Ho' & Hlen).
  split; [eauto|]. intros bound' fuel' section'.
  now apply (build_hierarchy_single_segment bound' fuel' task o').
Qed.

Lemma build_hierarchy_settles_witness :
  let w := Scenario.stories_loaded "Area (AR) > Feature > Do the thing" in
  let w' := (BuildHierarchy.__build_hierarchy 2 3 0 Scenario.stories_section w).2 in
  (exists o', heap w' !! 0 = Some o' /\ Store.t_name (_task o') = "[AR Feature] Do the thing")
  /\ BuildHierarchy.__build_hierarchy 2 1 0 Scenario.stories_section w' = (Ok tt, w').
Proof.
  intros w w'.
  destruct (build_hierarchy_settles 2 3 0 Scenario.stories_section w w') as [_ H].
  - vm_compute. reflexivity.
  - split; [|apply H]. eexists. split; vm_compute; reflexivity.
Defined.

Lemma get_section_run (section_name : string) (w : world) :
  AsanaProject.get_section section_name w
  = (Ok ((fun x => {| AsanaSection.gid := x.1; AsanaSection.name := x.2 |})
           <$> List.find (fun x => String.eqb x.2 section_name)
                         (Store.get_sections_for_project (remote w))),
     {| heap := heap w; remote := remote w;
        calls := calls w ++ [GetSectionsForProject] |}).
Proof. reflexivity. Qed.

(** X22. [--parent] with the name of a section the project does not
    have, when the first of the sections to work on exists: the command
    ends with an [AttributeError] at that section; up to then it has only
    asked for the sections of the project, twice, and has read or changed
    no task. *)
Theorem missing_parent_section_raises (bound fuel : nat) (name p : string)
  (rest : list string) (recursive : bool) (sec : Store.gid * string) (w : world) :
  List.find (fun x => String.eqb x.2 name) (Store.get_sections_for_project (remote w))
  = Some sec ->
  List.find (fun x => String.eqb x.2 p) (Store.get_sections_for_project (remote w))
  = None ->
  BuildHierarchy._execute bound fuel
    {| BuildHierarchy.section_names := name :: rest;
       BuildHierarchy.recursive := recursive;
       BuildHierarchy.parent := Some p |} w
  = (Raise AttributeError,
     {| heap := heap w; remote := remote w;
        calls := calls w ++ [GetSectionsForProject; GetSectionsForProject] |}).
Proof.
  intros Hs Hp. unfold BuildHierarchy._execute. simpl.
  unfold mbind at 1, M_bind at 1. unfold mbind at 1, M_bind at 1.
  rewrite get_section_run, Hs. simpl.
  unfold mbind at 1, M_bind at 1. rewrite get_section_run. simpl. rewrite Hp. simpl.
  unfold raise. now rewrite <- app_assoc.
Qed.

Lemma missing_parent_section_raises_witness :
  (BuildHierarchy._execute 2 3
     {| BuildHierarchy.section_names := ["Stories"];
        BuildHierarchy.recursive := false;
        BuildHierarchy.parent := Some "Epics" |}
     (Scenario.empty_world (Scenario.stories "A > B"))).1
  = Raise AttributeError.
Proof.
  rewrite (missing_parent_section_raises 2 3 "Stories" "Epics" [] false (0, "Stories"));
    reflexivity.
Defined.

(** X23. [section.tasks()] keeps no list: every call asks the store and
    makes a new object for every task, with nothing cached in it, and
    leaves the objects there are as they were. *)
Theorem section_tasks_are_new_objects (self : AsanaSection.AsanaSection)
  (w w' : world) (l : list addr) :
  AsanaSection.tasks self w = (Ok l, w') ->
  l = seq (length (heap w)) (length l)
  /\ remote w' = remote w
  /\ calls w' = calls w ++ [GetTasksForSection (AsanaSection.gid self)]
  /\ (forall a o, heap w !! a = Some o -> heap w' !! a = Some o)
  /\ (forall a, In a l ->
        exists o, heap w' !! a = Some o /\ __parent o = None /\ __subtasks o = None).
Proof.
  intros Hrun. unfold AsanaSection.tasks in Hrun.
  apply bind_Ok_inv in Hrun as (ds & w1 & Hds & Hrun).
  rewrite map_M_new in Hrun. injection Hrun as <- <-.
  assert (heap w1 = heap w /\ remote w1 = remote w
          /\ calls w1 = calls w ++ [GetTasksForSection (AsanaSection.gid self)])
    as (Hh & Hr & Hc).
  { unfold query, log, mbind, M_bind in Hds. simpl in Hds.
    destruct (Store.get_tasks_for_section _ _); [|discriminate].
    injection Hds as _ <-. auto. }
  simpl. rewrite Hh, length_seq.
  split; [reflexivity|]. split; [exact Hr|]. split; [exact Hc|]. split.
  - intros a o Ha. now apply lookup_app_l_Some.
  - intros a Ha. apply in_seq in Ha as [Hlo Hhi].
    rewrite lookup_app_r by lia. rewrite list_lookup_fmap.
    destruct (ds !! (a - length (heap w))) as [d|] eqn:Hd.
    + simpl. eauto.
    + apply lookup_ge_None in Hd. lia.
Qed.

Lemma section_tasks_are_new_objects_witness :
  let w := Scenario.stories_loaded "A" in
  exists w', AsanaSection.tasks Scenario.stories_section w = (Ok [1], w')
             /\ heap w' !! 0 = heap w !! 0.
Proof.
  intros w. eexists. split; [reflexivity|].
  destruct (section_tasks_are_new_objects Scenario.stories_section w _ [1] eq_refl)
    as (_ & _ & _ & H & _).
  exact (H 0 _ eq_refl).
Defined.

(** ** The setter of [parent] *)

Lemma set_parent_run (self value : addr) (o vo : object) (t tv : Store.stored_task)
  (w : world) :
  heap w !! self = Some o ->
  heap w !! value = Some vo ->
  Store.tasks (remote w) !! Store.t_gid (_task o) = Some t ->
  Store.tasks (remote w) !! Store.t_gid (_task vo) = Some tv ->
  exists w' d,
    AsanaTask.set_parent self value w = (Ok tt, w')
    /\ calls w' = calls w ++ [SetParentForTask (Store.t_gid (_task o))
                                               (Store.t_gid (_task vo));
                              GetTask (Store.t_gid (_task o))]
    /\ Store.get_task (Store.t_gid (_task o)) (remote w') = Ok d
    /\ d = Store.set_parent (Some (Store.t_gid (_task vo))) (Store.st_data t)
    /\ heap w' !! self = Some {| _task := d; __parent := Some value;
                                 __subtasks := __subtasks o |}
    /\ (forall a, a <> self -> heap w' !! a = heap w !! a).
Proof.
  intros Ho Hvo Ht Htv.
  destruct (reparent_lookup _ _ (Store.t_gid (_task vo))
              (fun l => l ++ [Store.t_gid (_task o)]) _ Ht) as (t3 & Ht3 & Hd3).
  set (o1 := {| _task := _task o; __parent := Some value; __subtasks := __subtasks o |}).
  set (w1 := with_heap (fun h => <[self := o1]> h) w).
  assert (heap w1 !! self = Some o1) as Ho1.
  { simpl. apply list_lookup_insert_eq. eapply lookup_lt_Some; eauto. }
  assert (exists vo1, heap w1 !! value = Some vo1 /\ _task vo1 = _task vo)
    as (vo1 & Hvo1 & Hvd).
  { destruct (decide (value = self)) as [->|Hne].
    - exists o1. split; [exact Ho1|]. simpl. congruence.
    - exists vo. split; [|reflexivity]. simpl.
      now rewrite list_lookup_insert_ne by auto. }
  eexists _, _. split.
  - unfold AsanaTask.set_parent.
    rewrite (bind_Ok _ _ _ _ _ (deref_Some _ _ _ Ho)).
    cbv beta. fold o1.
    rewrite (bind_Ok (assign self o1) _ w w1 tt eq_refl).
    unfold AsanaTask.gid.
    rewrite bind_assoc. rewrite (bind_Ok _ _ _ _ _ (deref_Some _ _ _ Ho1)).
    rewrite bind_ret_l.
    rewrite bind_assoc. rewrite (bind_Ok _ _ _ _ _ (deref_Some _ _ _ Hvo1)).
    rewrite bind_ret_l. rewrite Hvd. simpl (_task o1).
    unfold request, query, log, Store.set_parent_for_task, Store.get_task,
      mbind, M_bind, with_remote.
    simpl. unfold Store.gid in *. rewrite Ht, Htv. simpl.
    unfold Store.gid in *. rewrite Ht3. simpl.
    unfold deref. simpl. rewrite list_lookup_insert_eq by (eapply lookup_lt_Some; eauto).
    unfold assign. simpl. reflexivity.
  - simpl. split; [now rewrite <- app_assoc|].
    unfold Store.get_task. simpl. unfold Store.gid in *. rewrite Ht3.
    split; [reflexivity|]. split; [exact Hd3|].
    split.
    + rewrite list_insert_insert_eq.
      rewrite list_lookup_insert_eq by (eapply lookup_lt_Some; eauto).
      reflexivity.
    + intros a Ha. now rewrite !list_lookup_insert_ne by auto.
Qed.

(** X24. Setting the parent and reading it back: [task.parent = value] on
    tasks the store has sends the move and then fetches the task again, so
    that the record of the object names the new parent; a read of
    [task.parent] then gives the very object [value], without a request,
    and no other object has changed. *)
Theorem set_parent_round_trip (self value : addr) (o vo : object)
  (t tv : Store.stored_task) (w : world) :
  heap w !! self = Some o ->
  heap w !! value = Some vo ->
  Store.tasks (remote w) !! Store.t_gid (_task o) = Some t ->
  Store.tasks (remote w) !! Store.t_gid (_task vo) = Some tv ->
  exists w' o',
    AsanaTask.set_parent self value w = (Ok tt, w')
    /\ calls w' = calls w ++ [SetParentForTask (Store.t_gid (_task o))
                                               (Store.t_gid (_task vo));
                              GetTask (Store.t_gid (_task o))]
    /\ heap w' !! self = Some o'
    /\ Store.get_task (Store.t_gid (_task o)) (remote w') = Ok (_task o')
    /\ Store.t_parent (_task o') = Some (Store.t_gid (_task vo))
    /\ AsanaTask.parent self w' = (Ok (Some value), w')
    /\ (forall a, a <> self -> heap w' !! a = heap w !! a).
Proof.
  intros Ho Hvo Ht Htv.
  destruct (set_parent_run self value o vo t tv w Ho Hvo Ht Htv)
    as (w' & d & Hrun & Hc & Hg & Hd & Ho' & Hf).
  exists w', {| _task := d; __parent := Some value; __subtasks := __subtasks o |}.
  split; [exact Hrun|]. split; [exact Hc|]. split; [exact Ho'|].
  split; [exact Hg|]. split; [now rewrite Hd|].
  split; [|exact Hf].
  apply (parent_cached self _ (Store.t_gid (_task vo)) value w' Ho');
    [now rewrite Hd|reflexivity].
Qed.

Lemma set_parent_round_trip_witness :
  let s := {| Store.tasks := [Store.new_task 0 "Story" None; Store.new_task 1 "Epic" None];
              Store.sections := [] |} in
  let ob (t : Store.stored_task) := {| _task := Store.st_data t; __parent := None;
                                       __subtasks := None |} in
  let w := {| heap := [ob (Store.new_task 0 "Story" None);
                       ob (Store.new_task 1 "Epic" None)];
              remote := s; calls := [] |} in
  exists w', AsanaTask.set_parent 0 1 w = (Ok tt, w')
             /\ AsanaTask.parent 0 w' = (Ok (Some 1), w')
             /\ calls w' = [SetParentForTask 0 1; GetTask 0].
Proof.
  intros s ob w.
  destruct (set_parent_round_trip 0 1 (ob (Store.new_task 0 "Story" None))
              (ob (Store.new_task 1 "Epic" None))
              (Store.new_task 0 "Story" None) (Store.new_task 1 "Epic" None) w
              eq_refl eq_refl eq_refl eq_refl)
    as (w' & o' & Hrun & Hc & _ & _ & _ & Hp & _).
  exists w'. split; [exact Hrun|]. split; [exact Hp|exact Hc].
Defined.
